(** * Pagination state cache of the anime bot: model and properties

    A shallow embedding of [utils.py], [storage.py] and the handlers of
    [keyboards.py].  Python integers are [Z], Python strings
    are lists of code points, dictionaries are finite maps, and the
    module-level [data_cache] together with the sqlite connection form an
    explicit world that every coroutine threads through. *)

From Stdlib Require Import ZArith List Lia Ascii String DecimalString DecimalZ.
From stdpp Require Import gmap strings list.

Set Warnings "-register-all".

Open Scope Z_scope.

(** ** Python values *)

(** A [str] is a sequence of Unicode code points. *)
Definition pystr := list N.

Definition str (s : string) : pystr :=
  map N_of_ascii (list_ascii_of_string s).

(** [str(z)] for an [int]: the decimal digits, with a leading minus. *)
Definition repr_int (z : Z) : pystr :=
  str (NilZero.string_of_int (Z.to_int z)).

Inductive Exn :=
  | ValueError
  | TypeError
  | KeyError
  | AttributeError
  | AssertionError
  | JSONDecodeError
  | BadRequest          (* telegram.error.BadRequest *)
  | TelegramError       (* any other telegram.error *)
  | ClientError         (* raised by the anilist client *)
  | DatabaseError.      (* sqlite3.Error *)

Inductive Res (A : Type) :=
  | Ok (a : A)
  | Raise (e : Exn).
Arguments Ok {A} a.
Arguments Raise {A} e.

(** ** utils.py *)

Definition clamp (value least most : Z) : Z :=
  Z.max least (Z.min value most).

(** Number of elements of [range(start, stop, step)], [step] not zero. *)
Definition range_len (start stop step : Z) : Z :=
  if 0 <? step
  then (if start <? stop then (stop - start - 1) / step + 1 else 0)
  else (if stop <? start then (start - stop - 1) / (- step) + 1 else 0).

Definition py_range (start stop step : Z) : Res (list Z) :=
  if step =? 0 then Raise ValueError
  else Ok (map (fun i : nat => start + Z.of_nat i * step)
               (seq 0 (Z.to_nat (range_len start stop step)))).

(** A slice bound, normalised the way Python does it: negative bounds count
    from the end, and everything is cut to [0, len]. *)
Definition slice_index {A} (s : list A) (i : Z) : nat :=
  let n := Z.of_nat (length s) in
  Z.to_nat (if i <? 0 then Z.max 0 (i + n) else Z.min i n).

(** [s[lo:hi]] *)
Definition py_slice {A} (s : list A) (lo hi : Z) : list A :=
  take (slice_index s hi - slice_index s lo) (drop (slice_index s lo) s).

(** [s[lo:]] *)
Definition py_slice_from {A} (s : list A) (lo : Z) : list A :=
  drop (slice_index s lo) s.

Definition chunk_at {A} (text : list A) (chunk_length start : Z) : list A :=
  let end_ := start + chunk_length in
  if end_ <? Z.of_nat (length text)
  then py_slice text start end_
  else py_slice_from text start.

Definition chunkify_text {A} (text : list A) (chunk_length : Z)
  : Res (list (list A)) :=
  match py_range 0 (Z.of_nat (length text)) chunk_length with
  | Raise e => Raise e
  | Ok starts =>
      Ok (fold_left
            (fun chunks start => chunks ++ [chunk_at text chunk_length start])
            starts [])
  end.

(** ** settings.py *)

Inductive DatabaseTables :=
  | PREFERENCES
  | KEYBOARD_ANIME
  | KEYBOARD_MANGA
  | KEYBOARD_CHARACTER.

Global Instance DatabaseTables_eq_dec : EqDecision DatabaseTables.
Proof. solve_decision. Defined.

Global Instance DatabaseTables_countable : Countable DatabaseTables.
Proof.
  refine (inj_countable'
    (fun t => match t with
              | PREFERENCES => 0%nat | KEYBOARD_ANIME => 1%nat
              | KEYBOARD_MANGA => 2%nat | KEYBOARD_CHARACTER => 3%nat
              end)
    (fun n => match n with
              | 0%nat => PREFERENCES | 1%nat => KEYBOARD_ANIME
              | 2%nat => KEYBOARD_MANGA | _ => KEYBOARD_CHARACTER
              end) _).
  by intros [].
Defined.

(** The value of each member of the [StrEnum]. *)
Definition table_value (t : DatabaseTables) : string :=
  match t with
  | PREFERENCES => "preferences"
  | KEYBOARD_ANIME => "keyboard_anime"
  | KEYBOARD_MANGA => "keyboard_manga"
  | KEYBOARD_CHARACTER => "keyboard_character"
  end.

(** [for table in DatabaseTables], in definition order. *)
Definition all_tables : list DatabaseTables :=
  [PREFERENCES; KEYBOARD_ANIME; KEYBOARD_MANGA; KEYBOARD_CHARACTER].

(** [Language.ENGLISH] *)
Definition ENGLISH : Z := 1.

(** ** Values held by the cache and by the database *)

(** What a cached field can hold: [None], an [int] or a [str]. *)
Inductive PyVal :=
  | PNone
  | PInt (z : Z)
  | PStr (s : pystr).

(** What a database cell can hold. *)
Inductive SqlVal :=
  | SNull
  | SInt (z : Z)
  | SText (s : pystr).

(** The Python value [fetchone] hands back for a cell. *)
Definition py_of_sql (v : SqlVal) : PyVal :=
  match v with
  | SNull => PNone
  | SInt z => PInt z
  | SText s => PStr s
  end.

(** [bool(v)] *)
Definition truthy (v : PyVal) : bool :=
  match v with
  | PNone => false
  | PInt z => negb (z =? 0)
  | PStr s => match s with [] => false | _ => true end
  end.

(** [f"{v}"] *)
Definition format_value (v : PyVal) : pystr :=
  match v with
  | PNone => str "None"
  | PInt z => repr_int z
  | PStr s => s
  end.

(** ** The tables created by [setup_storage] *)

Inductive ColType := INTEGER | TEXT.

(** Columns after [user_id], with their declared type and default. *)
Definition schema (t : DatabaseTables) : list (string * ColType * SqlVal) :=
  match t with
  | PREFERENCES => [("language", INTEGER, SInt ENGLISH)]
  | _ => [("message_id", INTEGER, SNull);
          ("reply_id", INTEGER, SNull);
          ("step", INTEGER, SInt 1);
          ("current_page", INTEGER, SNull);
          ("last_page", INTEGER, SNull);
          ("kwargs", TEXT, SNull)]
  end.

(** [column_names[tablename][1:]] *)
Definition column_names (t : DatabaseTables) : list string :=
  map (fun c => fst (fst c)) (schema t).

(** The row [INSERT OR IGNORE INTO t (user_id) VALUES (?)] creates, without
    its [user_id]. *)
Definition default_row (t : DatabaseTables) : list SqlVal :=
  map snd (schema t).

(** A database: the rows this connection sees, keyed by table and
    [user_id] (the primary key of every table). *)
Abbreviation Database := (gmap (DatabaseTables * Z) (list SqlVal)).

(** *** How the engine reads a value spliced into the statement text

    [set_user_data] formats each value into the text of the [UPDATE].
    The engine then reads that text back as an expression.  The readings
    below are the ones that are a single literal; any other text is left
    to the engine ([None] here). *)

Definition apostrophe : N := 39.

(** A code point the statement text can carry: not NUL, not a surrogate. *)
Definition sql_char (c : N) : bool :=
  ((0 <? c) && (c <? 55296) || (57343 <? c) && (c <=? 1114111))%N.

(** The text between the outer quotes of a string literal: a doubled
    quote stands for one quote, a single one ends the literal early. *)
Fixpoint sql_unquote (body : pystr) : option pystr :=
  match body with
  | [] => Some []
  | c :: rest =>
      if (c =? apostrophe)%N then
        match rest with
        | c' :: rest' =>
            if (c' =? apostrophe)%N
            then cons apostrophe <$> sql_unquote rest'
            else None
        | [] => None
        end
      else if sql_char c then cons c <$> sql_unquote rest
      else None
  end.

Definition sql_string_literal (text : pystr) : option pystr :=
  match text with
  | q :: rest =>
      if (q =? apostrophe)%N then
        match rev rest with
        | q' :: rbody =>
            if (q' =? apostrophe)%N then sql_unquote (rev rbody) else None
        | [] => None
        end
      else None
  | [] => None
  end.

Definition is_digit (c : N) : bool := ((48 <=? c) && (c <=? 57))%N.

Definition digits_value (ds : pystr) : Z :=
  fold_left (fun acc c => 10 * acc + (Z.of_N c - 48)) ds 0.

(** An integer literal, with an optional sign in front. *)
Definition sql_int_literal (text : pystr) : option Z :=
  match text with
  | [] => None
  | c :: ds =>
      if (c =? 45)%N then
        match ds with
        | [] => None
        | _ => if forallb is_digit ds then Some (- digits_value ds) else None
        end
      else if forallb is_digit text then Some (digits_value text) else None
  end.

(** The keyword [NULL], in any letter case. *)
Definition is_null_keyword (text : pystr) : bool :=
  match text with
  | [n; u; l1; l2] =>
      (((n =? 78) || (n =? 110)) && ((u =? 85) || (u =? 117))
       && ((l1 =? 76) || (l1 =? 108)) && ((l2 =? 76) || (l2 =? 108)))%N
  | _ => false
  end.

Definition int64 (z : Z) : bool :=
  (- 9223372036854775808 <=? z) && (z <=? 9223372036854775807).

Definition sql_literal (text : pystr) : option SqlVal :=
  if is_null_keyword text then Some SNull
  else match sql_string_literal text with
       | Some s => Some (SText s)
       | None =>
           match sql_int_literal text with
           | Some z => if int64 z then Some (SInt z) else None
           | None => None
           end
       end.

(** The literal that [f"{key}={value}"] makes the engine read. *)
Definition sql_value_of (v : PyVal) : option SqlVal :=
  match v with
  | PNone => None
  | PInt z => if int64 z then Some (SInt z) else None
  | PStr s => sql_literal s
  end.

(** A value stored in a column as it is (no conversion by the column's
    type affinity). *)
Definition stored_as_is (ty : ColType) (v : SqlVal) : bool :=
  match ty, v with
  | _, SNull => true
  | INTEGER, SInt _ => true
  | TEXT, SText _ => true
  | _, _ => false
  end.

Fixpoint column_index (key : string) (cols : list (string * ColType * SqlVal))
  : option (nat * ColType) :=
  match cols with
  | [] => None
  | (name, ty, _) :: cols' =>
      if String.eqb key name then Some (0%nat, ty)
      else match column_index key cols' with
           | Some (i, ty') => Some (S i, ty')
           | None => None
           end
  end.

(** One [key=value] of the [SET] list applied to a row; [None] when the
    assignment is not a plain literal stored in an existing column. *)
Definition assign (t : DatabaseTables) (row : list SqlVal)
    (change : string * PyVal) : option (list SqlVal) :=
  match column_index (fst change) (schema t), sql_value_of (snd change) with
  | Some (i, ty), Some v =>
      if stored_as_is ty v then Some (<[i := v]> row) else None
  | _, _ => None
  end.

Fixpoint assign_all (t : DatabaseTables) (row : list SqlVal)
    (changes : list (string * PyVal)) : option (list SqlVal) :=
  match changes with
  | [] => Some row
  | change :: changes' =>
      match assign t row change with
      | Some row' => assign_all t row' changes'
      | None => None
      end
  end.

(** ** Methods of [str] used by the handlers *)

(** [sep.join(parts)] *)
Fixpoint join (sep : pystr) (parts : list pystr) : pystr :=
  match parts with
  | [] => []
  | [p] => p
  | p :: parts' => p ++ sep ++ join sep parts'
  end.

(** [c.isspace()] *)
Definition py_isspace (c : N) : bool :=
  ((9 <=? c) && (c <=? 13) || (28 <=? c) && (c <=? 32)
   || (c =? 133) || (c =? 160) || (c =? 5760)
   || (8192 <=? c) && (c <=? 8202)
   || (c =? 8232) || (c =? 8233) || (c =? 8239) || (c =? 8287)
   || (c =? 12288))%N.

Fixpoint lstrip (p : N -> bool) (s : pystr) : pystr :=
  match s with
  | [] => []
  | c :: s' => if p c then lstrip p s' else s
  end.

Definition rstrip (p : N -> bool) (s : pystr) : pystr :=
  rev (lstrip p (rev s)).

(** [s.strip()] *)
Definition strip (s : pystr) : pystr := rstrip py_isspace (lstrip py_isspace s).

(** [s.strip(chars)] *)
Definition strip_chars (chars : pystr) (s : pystr) : pystr :=
  let p := fun c => existsb (N.eqb c) chars in
  rstrip p (lstrip p s).

(** [s.isnumeric()], given the test for code points outside ASCII. *)
Definition isnumeric (numeric : N -> bool) (s : pystr) : bool :=
  match s with
  | [] => false
  | _ => forallb (fun c => if (c <? 128)%N then is_digit c else numeric c) s
  end.

(** ** json *)

(** The values [loads] builds and [dumps] writes. *)
Inductive JVal :=
  | JNull
  | JBool (b : bool)
  | JInt (z : Z)
  | JFloat (literal : pystr)
  | JStr (s : pystr)
  | JArr (elements : list JVal)
  | JObj (members : list (pystr * JVal)).

Definition hex_digit (n : N) : N :=
  (if n <? 10 then 48 + n else 87 + n)%N.

(** The four digits of [\uXXXX]. *)
Definition hex4 (c : N) : pystr :=
  [hex_digit (c / 4096 mod 16); hex_digit (c / 256 mod 16);
   hex_digit (c / 16 mod 16); hex_digit (c mod 16)]%N.

(** One character of a string, written with [ensure_ascii]. *)
Definition escape_char (c : N) : pystr :=
  (if c =? 34 then [92; 34]
   else if c =? 92 then [92; 92]
   else if c =? 10 then [92; 110]
   else if c =? 13 then [92; 114]
   else if c =? 9 then [92; 116]
   else if c =? 8 then [92; 98]
   else if c =? 12 then [92; 102]
   else if (32 <=? c) && (c <=? 126) then [c]
   else if c <? 65536 then 92 :: 117 :: hex4 c
   else let v := c - 65536 in
        (92 :: 117 :: hex4 (55296 + v / 1024))
          ++ (92 :: 117 :: hex4 (56320 + v mod 1024)))%N.

Definition json_string (s : pystr) : pystr :=
  34%N :: concat (map escape_char s) ++ [34%N].

(** [dumps(v)] with the default separators. *)
Fixpoint dumps (v : JVal) : pystr :=
  match v with
  | JNull => str "null"
  | JBool true => str "true"
  | JBool false => str "false"
  | JInt z => repr_int z
  | JFloat literal => literal
  | JStr s => json_string s
  | JArr elements =>
      91%N :: join (str ", ") (map dumps elements) ++ [93%N]
  | JObj members =>
      123%N :: join (str ", ")
                 (map (fun kv => match kv with
                                 | (k, x) => json_string k ++ str ": " ++ dumps x
                                 end) members)
        ++ [125%N]
  end.

Definition is_json_ws (c : N) : bool :=
  ((c =? 32) || (c =? 9) || (c =? 10) || (c =? 13))%N.

Definition hex_value (c : N) : option N :=
  (if (48 <=? c) && (c <=? 57) then Some (c - 48)
   else if (97 <=? c) && (c <=? 102) then Some (c - 87)
   else if (65 <=? c) && (c <=? 70) then Some (c - 55)
   else None)%N.

(** Four hexadecimal digits and what follows them. *)
Definition parse_hex4 (s : pystr) : option (N * pystr) :=
  match s with
  | a :: b :: c :: d :: rest =>
      match hex_value a, hex_value b, hex_value c, hex_value d with
      | Some a, Some b, Some c, Some d =>
          Some (((a * 16 + b) * 16 + c) * 16 + d, rest)%N
      | _, _, _, _ => None
      end
  | _ => None
  end.

Definition simple_escape (e : N) : option N :=
  (if e =? 34 then Some 34
   else if e =? 92 then Some 92
   else if e =? 47 then Some 47
   else if e =? 98 then Some 8
   else if e =? 102 then Some 12
   else if e =? 110 then Some 10
   else if e =? 114 then Some 13
   else if e =? 116 then Some 9
   else None)%N.

Definition is_high_surrogate (c : N) : bool := ((55296 <=? c) && (c <=? 56319))%N.
Definition is_low_surrogate (c : N) : bool := ((56320 <=? c) && (c <=? 57343))%N.

Definition prepend (c : N) (r : option (pystr * pystr)) : option (pystr * pystr) :=
  match r with
  | Some (s, rest) => Some (c :: s, rest)
  | None => None
  end.

(** The characters of a string up to its closing quote (the opening one is
    already read), and what follows; [None] for a malformed string. *)
Fixpoint scan_string (fuel : nat) (s : pystr) : option (pystr * pystr) :=
  match fuel with
  | O => None
  | S fuel' =>
      match s with
      | [] => None
      | c :: r =>
          if (c =? 34)%N then Some ([], r)
          else if (c =? 92)%N then
            match r with
            | [] => None
            | e :: r' =>
                if (e =? 117)%N then
                  match parse_hex4 r' with
                  | None => None
                  | Some (hi, r'') =>
                      if is_high_surrogate hi then
                        match r'' with
                        | b :: u :: r3 =>
                            if ((b =? 92) && (u =? 117))%N then
                              match parse_hex4 r3 with
                              | None => None
                              | Some (lo, r4) =>
                                  if is_low_surrogate lo
                                  then prepend
                                         (65536 + (hi - 55296) * 1024 + (lo - 56320))%N
                                         (scan_string fuel' r4)
                                  else prepend hi (scan_string fuel' r'')
                              end
                            else prepend hi (scan_string fuel' r'')
                        | _ => prepend hi (scan_string fuel' r'')
                        end
                      else prepend hi (scan_string fuel' r'')
                  end
                else
                  match simple_escape e with
                  | Some c' => prepend c' (scan_string fuel' r')
                  | None => None
                  end
            end
          else if (c <? 32)%N then None
          else prepend c (scan_string fuel' r)
      end
  end.

Fixpoint skip_ws (s : pystr) : pystr :=
  match s with
  | c :: s' => if is_json_ws c then skip_ws s' else s
  | [] => []
  end.

(** The longest run of digits at the front, and the rest. *)
Fixpoint span_digits (s : pystr) : pystr * pystr :=
  match s with
  | c :: s' =>
      if is_digit c
      then let '(ds, rest) := span_digits s' in (c :: ds, rest)
      else ([], s)
  | [] => ([], [])
  end.

(** [prefix] at the front of [s]: what follows it. *)
Fixpoint after_prefix (prefix s : pystr) : option pystr :=
  match prefix, s with
  | [], _ => Some s
  | p :: prefix', c :: s' => if (p =? c)%N then after_prefix prefix' s' else None
  | _ :: _, [] => None
  end.

(** The integer part of a number: [0], or a digit from 1 to 9 and more
    digits. *)
Definition span_int_part (s : pystr) : option (pystr * pystr) :=
  match s with
  | c :: s' =>
      if (c =? 48)%N then Some ([c], s')
      else if is_digit c
           then let '(ds, rest) := span_digits s' in Some (c :: ds, rest)
           else None
  | [] => None
  end.

Definition span_fraction (s : pystr) : pystr * pystr :=
  match s with
  | dot :: s' =>
      if (dot =? 46)%N then
        match span_digits s' with
        | ([], _) => ([], s)
        | (ds, rest) => (dot :: ds, rest)
        end
      else ([], s)
  | [] => ([], s)
  end.

Definition span_exponent (s : pystr) : pystr * pystr :=
  match s with
  | e :: s' =>
      if ((e =? 101) || (e =? 69))%N then
        match s' with
        | sg :: s'' =>
            if ((sg =? 43) || (sg =? 45))%N then
              match span_digits s'' with
              | ([], _) => ([], s)
              | (ds, rest) => (e :: sg :: ds, rest)
              end
            else
              match span_digits s' with
              | ([], _) => ([], s)
              | (ds, rest) => (e :: ds, rest)
              end
        | [] => ([], s)
        end
      else ([], s)
  | [] => ([], s)
  end.

Definition parse_number (s : pystr) : option (JVal * pystr) :=
  let '(negative, s1) :=
    match s with
    | c :: s' => if (c =? 45)%N then (true, s') else (false, s)
    | [] => (false, s)
    end in
  match span_int_part s1 with
  | None => None
  | Some (ds, s2) =>
      let '(frac, s3) := span_fraction s2 in
      let '(expo, s4) := span_exponent s3 in
      match frac, expo with
      | [], [] =>
          Some (JInt (if negative then - digits_value ds else digits_value ds), s4)
      | _, _ =>
          Some (JFloat ((if negative then [45%N] else []) ++ ds ++ frac ++ expo), s4)
      end
  end.

Definition parse_constant (s : pystr) : option (JVal * pystr) :=
  match after_prefix (str "null") s with
  | Some rest => Some (JNull, rest)
  | None =>
  match after_prefix (str "true") s with
  | Some rest => Some (JBool true, rest)
  | None =>
  match after_prefix (str "false") s with
  | Some rest => Some (JBool false, rest)
  | None =>
  match after_prefix (str "NaN") s with
  | Some rest => Some (JFloat (str "NaN"), rest)
  | None =>
  match after_prefix (str "Infinity") s with
  | Some rest => Some (JFloat (str "Infinity"), rest)
  | None =>
  match after_prefix (str "-Infinity") s with
  | Some rest => Some (JFloat (str "-Infinity"), rest)
  | None => parse_number s
  end end end end end end.

(** One value at the front of [s] and what follows it.  The fuel bounds
    the nesting and the number of members; the length of the text is
    always enough. *)
Fixpoint parse_value (fuel : nat) (s : pystr) : option (JVal * pystr) :=
  match fuel with
  | O => None
  | S fuel' =>
      match s with
      | [] => None
      | c :: r =>
          if (c =? 34)%N then
            match scan_string (S (length r)) r with
            | Some (x, rest) => Some (JStr x, rest)
            | None => None
            end
          else if (c =? 123)%N then
            match skip_ws r with
            | c' :: r' =>
                if (c' =? 125)%N then Some (JObj [], r')
                else match parse_members fuel' (c' :: r') with
                     | Some (ms, rest) => Some (JObj ms, rest)
                     | None => None
                     end
            | [] => None
            end
          else if (c =? 91)%N then
            match skip_ws r with
            | c' :: r' =>
                if (c' =? 93)%N then Some (JArr [], r')
                else match parse_elements fuel' (c' :: r') with
                     | Some (xs, rest) => Some (JArr xs, rest)
                     | None => None
                     end
            | [] => None
            end
          else parse_constant s
      end
  end
with parse_members (fuel : nat) (s : pystr)
  : option (list (pystr * JVal) * pystr) :=
  match fuel with
  | O => None
  | S fuel' =>
      match s with
      | q :: r =>
          if (q =? 34)%N then
            match scan_string (S (length r)) r with
            | None => None
            | Some (key, s1) =>
                match skip_ws s1 with
                | colon :: s2 =>
                    if (colon =? 58)%N then
                      match parse_value fuel' (skip_ws s2) with
                      | None => None
                      | Some (x, s3) =>
                          match skip_ws s3 with
                          | d :: s4 =>
                              if (d =? 125)%N then Some ([(key, x)], s4)
                              else if (d =? 44)%N then
                                match parse_members fuel' (skip_ws s4) with
                                | Some (ms, rest) => Some ((key, x) :: ms, rest)
                                | None => None
                                end
                              else None
                          | [] => None
                          end
                      end
                    else None
                | [] => None
                end
            end
          else None
      | [] => None
      end
  end
with parse_elements (fuel : nat) (s : pystr) : option (list JVal * pystr) :=
  match fuel with
  | O => None
  | S fuel' =>
      match parse_value fuel' s with
      | None => None
      | Some (x, s1) =>
          match skip_ws s1 with
          | d :: s2 =>
              if (d =? 93)%N then Some ([x], s2)
              else if (d =? 44)%N then
                match parse_elements fuel' (skip_ws s2) with
                | Some (xs, rest) => Some (x :: xs, rest)
                | None => None
                end
              else None
          | [] => None
          end
      end
  end.

(** [loads(s)] *)
Definition loads (s : pystr) : Res JVal :=
  match parse_value (S (length s)) (skip_ws s) with
  | Some (v, rest) =>
      match skip_ws rest with
      | [] => Ok v
      | _ => Raise JSONDecodeError
      end
  | None => Raise JSONDecodeError
  end.

(** A [dict] with [str] keys: the keys in insertion order, each once. *)
Abbreviation PyDict := (list (pystr * JVal)).

Definition pystr_eqb (a b : pystr) : bool := bool_decide (a = b).

(** [d[key] = value] *)
Fixpoint dict_set (key : pystr) (value : JVal) (d : PyDict) : PyDict :=
  match d with
  | [] => [(key, value)]
  | (k, x) :: d' =>
      if pystr_eqb k key then (k, value) :: d'
      else (k, x) :: dict_set key value d'
  end.

Fixpoint dict_get (key : pystr) (d : PyDict) : option JVal :=
  match d with
  | [] => None
  | (k, x) :: d' => if pystr_eqb k key then Some x else dict_get key d'
  end.

(** The [dict] an object's members make: a repeated key keeps its first
    place and its last value. *)
Definition dict_of_members (members : list (pystr * JVal)) : PyDict :=
  fold_left (fun d kv => dict_set (fst kv) (snd kv) d) members [].

(** ** Collaborators: the chat transport, the content API, the renderer *)

Inductive Category := Anime | Character | Manga.

(** [cls.table_name] *)
Definition table_name (cls : Category) : DatabaseTables :=
  match cls with
  | Anime => KEYBOARD_ANIME
  | Character => KEYBOARD_CHARACTER
  | Manga => KEYBOARD_MANGA
  end.

(** [cls.pattern.split(":")[0]] *)
Definition pattern_prefix (cls : Category) : pystr :=
  match cls with
  | Anime => str "anime"
  | Character => str "character"
  | Manga => str "manga"
  end.

(** The word the "not found" message starts with. *)
Definition category_title (cls : Category) : pystr :=
  match cls with
  | Anime => str "Anime"
  | Character => str "Character"
  | Manga => str "Manga"
  end.

(** An object returned by the content API; the renderer alone looks
    inside it. *)
Record Item := { item_id : Z; item_payload : pystr }.

(** The pagination object returned with a search. *)
Module Page.
Record t := { last : Z; current : Z; per_page : Z }.
End Page.

(** [class OnePage] *)
Definition OnePage : Page.t :=
  {| Page.last := 1; Page.current := 1; Page.per_page := 1 |}.

Record InlineKeyboardButton := { text : string; callback_data : pystr }.

(** [InlineKeyboardMarkup(keyboard)]: rows of buttons. *)
Abbreviation InlineKeyboardMarkup := (list (list InlineKeyboardButton)).

(** What the handlers read from the incoming [update]. *)
Record Update := {
  effective_user : Z;      (* update.effective_user.id *)
  effective_chat : Z;      (* update.effective_chat.id *)
  effective_message : Z;   (* update.effective_message.message_id *)
}.

(** Calls that leave the process, in the order they are made. *)
Inductive Event :=
  | EvExecute (sql : pystr) (user_id : Z)
  | EvCommit
  | EvDeleteMessage (chat_id : Z) (message_id : PyVal)
  | EvReplyHtml (body : pystr) (reply_to_message_id : option PyVal)
                (reply_markup : InlineKeyboardMarkup)
  | EvReplyText (body : pystr) (reply_to_message_id : Z)
  | EvGet (cls : Category) (key : JVal)
  | EvSearch (cls : Category) (identifier : pystr) (per_page page : JVal).

(** The answers of the outside world.  Every call that leaves the process
    advances a clock, and the answer to a call is the one listed at the
    clock's value, so that any sequence of answers can be described. *)
Record Env := {
  (** the database cannot be reached: [execute] or [commit] raises *)
  db_unavailable : nat -> bool;
  (** what the engine makes of a statement whose values are not plain
      literals: a new content, or an error *)
  db_other : nat -> Database -> option Database;
  delete_message_result : nat -> Res unit;
  (** the id of the message sent *)
  reply_result : nat -> Res Z;
  get_result : nat -> Res (option Item);
  search_result : nat -> Res (list Item * Page.t);
  format_item : Category -> Item -> JVal -> pystr;
  remove_unspecified_tags : pystr -> pystr;
  (** [c.isnumeric()] for a code point outside ASCII *)
  unicode_numeric : N -> bool;
}.

(** ** The process state *)

Record World := {
  data_cache : gmap Z (gmap DatabaseTables (gmap string PyVal));
  db : Database;
  clock : nat;
  trace : list Event;
}.

Definition set_data_cache (c : gmap Z (gmap DatabaseTables (gmap string PyVal)))
    (w : World) : World :=
  {| data_cache := c; db := db w; clock := clock w; trace := trace w |}.

Definition set_db (d : Database) (w : World) : World :=
  {| data_cache := data_cache w; db := d; clock := clock w; trace := trace w |}.

(** The world after one more call has left the process. *)
Definition called (ev : Event) (w : World) : World :=
  {| data_cache := data_cache w; db := db w;
     clock := S (clock w); trace := trace w ++ [ev] |}.

(** A coroutine: it runs on a world and returns or raises. *)
Definition M (A : Type) : Type := World -> Res A * World.

Global Instance M_ret : MRet M := fun A a w => (Ok a, w).

Global Instance M_bind : MBind M := fun A B f m w =>
  match m w with
  | (Ok a, w') => f a w'
  | (Raise e, w') => (Raise e, w')
  end.

Definition raise {A} (e : Exn) : M A := fun w => (Raise e, w).

(** [try: body / except <caught>: handler] *)
Definition try_except {A} (body : M A) (caught : Exn -> bool) (handler : M A)
  : M A := fun w =>
  match body w with
  | (Ok a, w') => (Ok a, w')
  | (Raise e, w') => if caught e then handler w' else (Raise e, w')
  end.

(** [try: body / finally: cleanup]: the cleanup runs however the body
    ends; an exception of the body is raised again after it unless the
    cleanup raises itself. *)
Definition try_finally {A} (body : M A) (cleanup : M unit) : M A := fun w =>
  match body w with
  | (Ok a, w') =>
      match cleanup w' with
      | (Ok _, w'') => (Ok a, w'')
      | (Raise e, w'') => (Raise e, w'')
      end
  | (Raise e, w') =>
      match cleanup w' with
      | (Ok _, w'') => (Raise e, w'')
      | (Raise e', w'') => (Raise e', w'')
      end
  end.

Fixpoint for_each {A} (f : A -> M unit) (l : list A) : M unit :=
  match l with
  | [] => mret tt
  | x :: l' => _ ← f x; for_each f l'
  end.

Section Program.
Context (env : Env).

(** A call to a collaborator. *)
Definition call {A} (ev : Event) (answer : Env -> nat -> Res A) : M A :=
  fun w => (answer env (clock w), called ev w).

(** ** storage.py *)

(** [cursor.execute(sql, (user_id,))] for a statement with the given
    effect on the rows ([None]: the engine rejects it). *)
Definition cursor_execute (sql : pystr) (user_id : Z)
    (effect : Database -> option Database) : M unit := fun w =>
  let w' := called (EvExecute sql user_id) w in
  if db_unavailable env (clock w) then (Raise DatabaseError, w')
  else match effect (db w) with
       | Some d => (Ok tt, set_db d w')
       | None => (Raise DatabaseError, w')
       end.

Definition connection_commit : M unit := fun w =>
  let w' := called EvCommit w in
  if db_unavailable env (clock w) then (Raise DatabaseError, w')
  else (Ok tt, w').

Definition insert_or_ignore (t : DatabaseTables) (user_id : Z) (d : Database)
  : Database :=
  match d !! (t, user_id) with
  | Some _ => d
  | None => <[(t, user_id) := default_row t]> d
  end.

Definition sql_insert (t : DatabaseTables) : pystr :=
  str "INSERT OR IGNORE INTO " ++ str (table_value t)
    ++ str " (user_id) VALUES (?)".

Definition sql_select (t : DatabaseTables) : pystr :=
  str "SELECT * FROM " ++ str (table_value t) ++ str " WHERE user_id=?".

(** [cursor.execute(SELECT ...).fetchone()[1:]] *)
Definition fetchone_tail (t : DatabaseTables) (user_id : Z)
  : M (list SqlVal) :=
  _ ← cursor_execute (sql_select t) user_id Some;
  ((fun w => match db w !! (t, user_id) with
             | Some row => (Ok row, w)
             | None => (Raise TypeError, w)
             end) : M (list SqlVal)).

(** The dictionary built by the [zip] loop. *)
Definition zip_row (cols : list string) (row : list SqlVal)
  : gmap string PyVal :=
  fold_left (fun d kv => <[fst kv := py_of_sql (snd kv)]> d) (zip cols row) ∅.

Fixpoint load_tables (user_id : Z) (tables : list DatabaseTables)
    (user_data : gmap DatabaseTables (gmap string PyVal))
  : M (gmap DatabaseTables (gmap string PyVal)) :=
  match tables with
  | [] => mret user_data
  | t :: tables' =>
      _ ← cursor_execute (sql_insert t) user_id
            (fun d => Some (insert_or_ignore t user_id d));
      _ ← connection_commit;
      row ← fetchone_tail t user_id;
      load_tables user_id tables'
        (<[t := zip_row (column_names t) row]> user_data)
  end.

Definition setup_data_cache (user_id : Z) : M unit :=
  user_data ← load_tables user_id all_tables ∅;
  ((fun w =>
      (Ok tt, set_data_cache (<[user_id := user_data]> (data_cache w)) w))
    : M unit).

(** [if user_id not in data_cache: await setup_data_cache(user_id)] *)
Definition ensure_cached (user_id : Z) : M unit := fun w =>
  match data_cache w !! user_id with
  | Some _ => (Ok tt, w)
  | None => setup_data_cache user_id w
  end.

(** [user_data = data_cache[user_id]] followed by the assertion that the
    table is one of its keys. *)
Definition assert_table (user_id : Z) (t : DatabaseTables) : M unit := fun w =>
  match data_cache w !! user_id with
  | None => (Raise KeyError, w)
  | Some user_data =>
      match user_data !! t with
      | Some _ => (Ok tt, w)
      | None => (Raise AssertionError, w)
      end
  end.

Definition changes_string (changes : list (string * PyVal)) : pystr :=
  join (str ", ")
    (map (fun kv => str (fst kv) ++ str "=" ++ format_value (snd kv)) changes).

Definition sql_update (t : DatabaseTables) (changes : list (string * PyVal))
  : pystr :=
  str "UPDATE " ++ str (table_value t) ++ str " SET "
    ++ changes_string changes ++ str " WHERE user_id=?".

(** What the [UPDATE] does to the rows.  With plain literals for all
    values it rewrites the user's row (or nothing when there is no such
    row); an empty [SET] list is a syntax error; any other statement is
    the engine's to decide. *)
Definition update_effect (now : nat) (t : DatabaseTables) (user_id : Z)
    (changes : list (string * PyVal)) (d : Database) : option Database :=
  match changes with
  | [] => None
  | _ =>
      match assign_all t (default_row t) changes with
      | None => db_other env now d
      | Some _ =>
          match d !! (t, user_id) with
          | None => Some d
          | Some row =>
              match assign_all t row changes with
              | Some row' => Some (<[(t, user_id) := row']> d)
              | None => db_other env now d
              end
          end
      end
  end.

(** [user_data[tablename][key] = value] *)
Definition setitem (user_id : Z) (t : DatabaseTables) (kv : string * PyVal)
  : M unit := fun w =>
  match data_cache w !! user_id with
  | None => (Raise KeyError, w)
  | Some user_data =>
      match user_data !! t with
      | None => (Raise KeyError, w)
      | Some table =>
          (Ok tt,
           set_data_cache
             (<[user_id := <[t := <[fst kv := snd kv]> table]> user_data]>
                (data_cache w)) w)
      end
  end.

Definition set_user_data (user_id : Z) (t : DatabaseTables)
    (changes : list (string * PyVal)) : M unit :=
  _ ← ensure_cached user_id;
  _ ← assert_table user_id t;
  _ ← ((fun w => cursor_execute (sql_update t changes) user_id
                   (update_effect (clock w) t user_id changes) w) : M unit);
  _ ← connection_commit;
  for_each (setitem user_id t) changes.

(** The dictionary [get_user_data] returns is the cached one itself, not
    a copy: it is named by its place in [data_cache]. *)
Definition TableRef : Type := Z * DatabaseTables.

Definition get_user_data (user_id : Z) (t : DatabaseTables) : M TableRef :=
  _ ← ensure_cached user_id;
  _ ← assert_table user_id t;
  mret (user_id, t).

(** [table[key]] *)
Definition getitem (table : TableRef) (key : string) : M PyVal := fun w =>
  match data_cache w !! fst table with
  | None => (Raise KeyError, w)
  | Some user_data =>
      match user_data !! snd table with
      | None => (Raise KeyError, w)
      | Some d =>
          match d !! key with
          | Some v => (Ok v, w)
          | None => (Raise KeyError, w)
          end
      end
  end.

End Program.

(** ** keyboards.py *)

(** The arguments [get_data] is called with, once bound to its
    parameters. *)
Record FetchRequest := {
  identifier : JVal;
  page : JVal;
  per_page : JVal;
  language : JVal;
}.

(** [get_data(identifier, page)]: the other two parameters take their
    defaults. *)
Definition positional_call (identifier : pystr) (page : Z) : FetchRequest :=
  {| identifier := JStr identifier; page := JInt page;
     per_page := JInt 1; language := JInt ENGLISH |}.

Definition parameter_names : list pystr :=
  [str "identifier"; str "page"; str "per_page"; str "language"].

(** [get_data] called with the dictionary unpacked into keyword
    arguments: every key must name a parameter, and the two parameters
    without a default must be given. *)
Definition keyword_call (kwargs : PyDict) : Res FetchRequest :=
  if forallb (fun kv => existsb (pystr_eqb (fst kv)) parameter_names) kwargs
  then
    match dict_get (str "identifier") kwargs, dict_get (str "page") kwargs with
    | Some i, Some p =>
        Ok {| identifier := i; page := p;
              per_page := default (JInt 1) (dict_get (str "per_page") kwargs);
              language := default (JInt ENGLISH) (dict_get (str "language") kwargs) |}
    | _, _ => Raise TypeError
    end
  else Raise TypeError.

Definition is_BadRequest (e : Exn) : bool :=
  match e with BadRequest => true | _ => false end.

Definition lift {A} (r : Res A) : M A := fun w => (r, w).

Section Keyboards.
Context (env : Env).

(** The loop of the search branch: every item found is fetched again by
    its id; the API may answer [None]. *)
Fixpoint fetch_each (cls : Category) (found : list Item)
  : M (list (option Item)) :=
  match found with
  | [] => mret []
  | a :: found' =>
      i ← call env (EvGet cls (JInt (item_id a))) get_result;
      rest ← fetch_each cls found';
      mret (i :: rest)
  end.

(** [for item in items: text += format(item, language)]; formatting
    [None] raises. *)
Fixpoint format_all (cls : Category) (language : JVal)
    (items : list (option Item)) (text : pystr) : Res pystr :=
  match items with
  | [] => Ok text
  | Some a :: items' =>
      format_all cls language items' (text ++ format_item env cls a language)
  | None :: _ => Raise AttributeError
  end.

Definition not_found (cls : Category) (identifier : pystr) : pystr :=
  category_title cls ++ str " '" ++ identifier ++ str "' not found".

(** The three [get_data] methods differ in the client method they call
    and in the formatter only. *)
Definition get_data (cls : Category) (request : FetchRequest)
  : M (pystr * Page.t) :=
  match identifier request with
  | JStr ident =>
      '(items, pagination) ←
        (if isnumeric (unicode_numeric env) ident then
           item ← call env (EvGet cls (JStr ident)) get_result;
           mret (match item with Some a => [Some a] | None => [] end, OnePage)
         else
           '(found, pagination) ←
             call env (EvSearch cls ident (per_page request) (page request))
               search_result;
           items ← fetch_each cls found;
           mret (items, pagination));
      text ← lift (match items with
                   | [] => Ok (not_found cls ident)
                   | _ => format_all cls (language request) items []
                   end);
      mret (remove_unspecified_tags env text, pagination)
  | _ => raise AttributeError
  end.

Definition keyboard (cls : Category) (step : PyVal)
    (current_page last_page : Z) : InlineKeyboardMarkup :=
  let callback_data_previous :=
    pattern_prefix cls ++ str ":-" ++ format_value step in
  let callback_data_next :=
    pattern_prefix cls ++ str ":" ++ format_value step in
  if negb (last_page =? 1) then
    [ (if negb (last_page =? 1)
       then [ {| text := "Previous"; callback_data := callback_data_previous |} ]
       else []);
      (if negb (current_page =? last_page)
       then [ {| text := "Next"; callback_data := callback_data_next |} ]
       else []) ]
  else [].

Definition generate_markup (cls : Category) (current_page last_page : Z)
    (update : Update) : M InlineKeyboardMarkup :=
  let user := effective_user update in
  let current_page := clamp current_page 1 last_page in
  user_data ← get_user_data env user (table_name cls);
  previous_keyboard ← getitem user_data "message_id";
  step ← getitem user_data "step";
  _ ← (if truthy previous_keyboard then
         try_finally
           (try_except
              (call env (EvDeleteMessage (effective_chat update) previous_keyboard)
                 delete_message_result)
              is_BadRequest
              (mret tt))
           (set_user_data env user (table_name cls)
              [("message_id", PStr (str "NULL"))])
       else mret tt);
  mret (keyboard cls step current_page last_page).

(** The text stored under [kwargs]. *)
Definition quoted_kwargs (identifier : pystr) : pystr :=
  apostrophe :: dumps (JObj [(str "identifier", JStr identifier)])
    ++ [apostrophe].

Definition handle_first (cls : Category) (update : Update)
    (args : list pystr) : M unit :=
  let identifier := strip (join (str " ") args) in
  match identifier with
  | [] => mret tt
  | _ =>
      '(text, pagination) ← get_data cls (positional_call identifier 1);
      let text := str "1 of " ++ repr_int (Page.last pagination)
                    ++ [10%N; 10%N] ++ text in
      let kwargs := quoted_kwargs identifier in
      let text := remove_unspecified_tags env text in
      keyboard ← generate_markup cls (Page.current pagination)
                   (Page.last pagination) update;
      message ← call env
                  (EvReplyHtml text (Some (PInt (effective_message update)))
                     keyboard)
                  reply_result;
      set_user_data env (effective_user update) (table_name cls)
        [("message_id", PInt message);
         ("reply_id", PInt (effective_message update));
         ("current_page", PInt (Page.current pagination));
         ("last_page", PInt (Page.last pagination));
         ("kwargs", PStr kwargs)]
  end.

(** An [int] operand; anything else makes the operation raise. *)
Definition as_int (v : PyVal) : M Z :=
  match v with
  | PInt z => mret z
  | _ => raise TypeError
  end.

(** [kwargs.strip("'")] *)
Definition strip_quotes (v : PyVal) : M pystr :=
  match v with
  | PStr s => mret (strip_chars [apostrophe] s)
  | _ => raise AttributeError
  end.

(** [kwargs["page"] = next_page] *)
Definition set_page (decoded : JVal) (next_page : Z) : M PyDict :=
  match decoded with
  | JObj members =>
      mret (dict_set (str "page") (JInt next_page) (dict_of_members members))
  | _ => raise TypeError
  end.

(** [step] is [int(query.data.split(":")[1])]. *)
Definition handle_next (cls : Category) (update : Update) (step : Z)
  : M unit :=
  pagination ← get_user_data env (effective_user update) (table_name cls);
  current_page ← getitem pagination "current_page";
  if negb (truthy current_page) then
    _ ← call env (EvReplyText (str "Please run the command again")
                    (effective_message update)) reply_result;
    mret tt
  else
    current ← as_int current_page;
    last_page ← getitem pagination "last_page";
    most ← as_int last_page;
    let next_page := clamp (current + step) 1 most in
    if next_page =? current then mret tt
    else
      kwargs ← getitem pagination "kwargs";
      kwargs ← strip_quotes kwargs;
      kwargs ← lift (loads kwargs);
      kwargs ← set_page kwargs next_page;
      request ← lift (keyword_call kwargs);
      '(text, _) ← get_data cls request;
      let text := remove_unspecified_tags env text in
      last_page ← getitem pagination "last_page";
      let text := repr_int next_page ++ str " of " ++ format_value last_page
                    ++ [10%N; 10%N] ++ text in
      last_page ← getitem pagination "last_page";
      most ← as_int last_page;
      keyboard ← generate_markup cls next_page most update;
      reply_id ← getitem pagination "reply_id";
      message ← try_except
                  (call env (EvReplyHtml text (Some reply_id) keyboard)
                     reply_result)
                  is_BadRequest
                  (call env (EvReplyHtml text None keyboard) reply_result);
      set_user_data env (effective_user update) (table_name cls)
        [("message_id", PInt message); ("current_page", PInt next_page)].

(** What reaches [handle]: a command with its arguments, or a click on a
    navigation button with the step its payload carries. *)
Inductive Interaction :=
  | Command (args : list pystr)
  | CallbackQuery (step : Z).

Definition handle (cls : Category) (update : Update) (i : Interaction)
  : M unit :=
  match i with
  | CallbackQuery step => handle_next cls update step
  | Command args => handle_first cls update args
  end.

End Keyboards.

(** ** utils.py: the tags of an html text *)

(** [s.startswith(prefix)] *)
Definition startswith (prefix s : pystr) : bool :=
  match after_prefix prefix s with
  | Some _ => true
  | None => false
  end.

(** The first loop of [complete_html_tags].  [index] walks over the text
    once; [tag] is [None] between two tags and, inside one, the text read
    since [tag_start].  A tag still open at the end of the text is not
    kept. *)
Fixpoint find_tags (html_string : pystr) (tag : option pystr) : list pystr :=
  match html_string with
  | [] => []
  | c :: rest =>
      match tag with
      | None =>
          if (c =? 60)%N then find_tags rest (Some [c]) else find_tags rest None
      | Some read =>
          if (c =? 62)%N then (read ++ [c]) :: find_tags rest None
          else find_tags rest (Some (read ++ [c]))
      end
  end.

(** [f'</{missing_tag}>'] *)
Definition closing_tag (missing_tag : pystr) : pystr :=
  str "</" ++ missing_tag ++ str ">".

(** The second loop: the stack of open tags (its top is its last element)
    and the tags kept so far. *)
Fixpoint process_tags (tags : list pystr) (stack completed_html : list pystr)
  : list pystr * list pystr :=
  match tags with
  | [] => (stack, completed_html)
  | tag :: tags' =>
      if startswith (str "</") tag then
        match last stack with
        | Some top =>
            if pystr_eqb top (py_slice tag 2 (-1))
            then process_tags tags' (removelast stack) (completed_html ++ [tag])
            else process_tags tags' stack completed_html
        | None => process_tags tags' stack completed_html
        end
      else
        process_tags tags' (stack ++ [py_slice tag 1 (-1)]) (completed_html ++ [tag])
  end.

Definition complete_html_tags (html_string : pystr) : pystr :=
  let result := find_tags html_string None in
  let '(stack, completed_html) := process_tags result [] [] in
  let completed_html :=
    fold_left (fun completed missing_tag => completed ++ [closing_tag missing_tag])
      (rev stack) completed_html in
  join [] completed_html.

(** ** utils.py: what is logged of an update *)

(** The regular expressions [remove_update_sensitive_info] is made of:
    literal text, [.*], sequence and alternation. *)
Inductive Regex :=
  | RLit (t : pystr)
  | RAnyStar
  | RSeq (r1 r2 : Regex)
  | RAlt (r1 r2 : Regex).

(** [.*] in front of the continuation [k]: as many characters of the line
    as possible, then one less each time the continuation fails. *)
Fixpoint any_star (s : pystr) (k : pystr -> option pystr) : option pystr :=
  match s with
  | c :: s' =>
      if (c =? 10)%N then k s
      else match any_star s' k with
           | Some rest => Some rest
           | None => k s
           end
  | [] => k s
  end.

(** The first match of [r] at the front of [s], found as the matcher of
    [re] finds it: the alternatives in their order, each repetition the
    longest that lets what follows match.  The result is the text after
    the match. *)
Fixpoint re_match (r : Regex) (s : pystr) (k : pystr -> option pystr)
  : option pystr :=
  match r with
  | RLit t =>
      match after_prefix t s with
      | Some s' => k s'
      | None => None
      end
  | RAnyStar => any_star s k
  | RSeq r1 r2 => re_match r1 s (fun s' => re_match r2 s' k)
  | RAlt r1 r2 =>
      match re_match r1 s k with
      | Some rest => Some rest
      | None => re_match r2 s k
      end
  end.

(** [re.sub(r, "", s)] for a pattern that matches no empty text: the
    matches, looked for from left to right, are cut out. *)
Fixpoint re_sub_empty (fuel : nat) (r : Regex) (s : pystr) : pystr :=
  match fuel with
  | O => s
  | S fuel' =>
      match s with
      | [] => []
      | c :: s' =>
          match re_match r s Some with
          | Some rest =>
              if (length rest <? length s)%nat then re_sub_empty fuel' r rest
              else c :: re_sub_empty fuel' r s'
          | None => c :: re_sub_empty fuel' r s'
          end
      end
  end.

(** The four fields of the pattern: the text in front of [.*] and the text
    after it. *)
Definition sensitive_fields : list (pystr * pystr) :=
  [ (34%N :: str "id" ++ 34%N :: str ": ", str ",");
    (34%N :: str "last_name" ++ 34%N :: str ": " ++ [34%N], 34%N :: str ",");
    (34%N :: str "first_name" ++ 34%N :: str ": " ++ [34%N], 34%N :: str ",");
    (34%N :: str "username" ++ 34%N :: str ": " ++ [34%N], 34%N :: str ",") ].

(** ['(' + ')|('.join([...]) + ')'] *)
Fixpoint alternatives (fields : list (pystr * pystr)) : Regex :=
  match fields with
  | [] => RLit []
  | [(before, after)] => RSeq (RLit before) (RSeq RAnyStar (RLit after))
  | (before, after) :: fields' =>
      RAlt (RSeq (RLit before) (RSeq RAnyStar (RLit after))) (alternatives fields')
  end.

Definition remove_update_sensitive_info (update : pystr) : pystr :=
  re_sub_empty (length update) (alternatives sensitive_fields) update.

(** ** keyboards.py: the help keyboard *)

(** [class HelpTopic(StrEnum)] *)
Inductive HelpTopic := HELP_ANIME | HELP_CHARACTER | HELP_MANGA | HELP_ABOUT.

Definition help_topic_value (topic : HelpTopic) : pystr :=
  match topic with
  | HELP_ANIME => str "help:anime"
  | HELP_CHARACTER => str "help:character"
  | HELP_MANGA => str "help:manga"
  | HELP_ABOUT => str "help:about"
  end.

(** [HelpKeyboardHandler.generate_markup] *)
Definition help_markup : InlineKeyboardMarkup :=
  [ [ {| text := "Anime"; callback_data := help_topic_value HELP_ANIME |};
      {| text := "Characters"; callback_data := help_topic_value HELP_CHARACTER |};
      {| text := "Manga"; callback_data := help_topic_value HELP_MANGA |} ];
    [ {| text := "About"; callback_data := help_topic_value HELP_ABOUT |} ] ].

(** The text [HelpKeyboardHandler.handle] picks for the payload of the
    click. *)
Definition help_text (topic : pystr) : pystr :=
  if pystr_eqb topic (help_topic_value HELP_ANIME) then
    str "Use the /anime command to request anime data" ++ [10%N]
      ++ [10%N] ++ str "/anime <anime title>" ++ [10%N]
      ++ [10%N] ++ str "For exmaple: /anime Awesome Anime"
  else if pystr_eqb topic (help_topic_value HELP_CHARACTER) then
    str "Use the /character command to request character data" ++ [10%N]
      ++ [10%N] ++ str "/character <character name>" ++ [10%N]
      ++ [10%N] ++ str "For example: /character Cool Character"
  else if pystr_eqb topic (help_topic_value HELP_MANGA) then
    str "Use the /manga command to request character data" ++ [10%N]
      ++ [10%N] ++ str "/manga <manga title>" ++ [10%N]
      ++ str "For example: /manga Mid Manga" ++ [10%N]
  else if pystr_eqb topic (help_topic_value HELP_ABOUT) then
    str "Get information about this bot" ++ [10%N]
      ++ [10%N] ++ str "/about" ++ [10%N]
  else
    str "I was designed to give you quick and easy access to anime and manga related information."
      ++ [10%N] ++ str "Pick a topic you need help understanding.".

(** [HelpKeyboardHandler.handle], by the call it ends with: the text and
    the markup given to [edit_message_text], or [None] when it returns
    without the call.  [displayed] is [query.message.text]. *)
Definition help_handle (topic : pystr) (displayed : option pystr)
  : option (pystr * InlineKeyboardMarkup) :=
  let text := help_text topic in
  if match displayed with
     | Some shown => pystr_eqb text shown
     | None => false
     end
  then None
  else Some (text, help_markup).

(** ** Predicates used to state and prove the properties *)

(** A coroutine run from a world satisfying [P] ends in a world satisfying
    [Q] when it returns and [E] when it raises. *)
Definition triple {A} (P : World -> Prop) (m : M A)
    (Q : A -> World -> Prop) (E : World -> Prop) : Prop :=
  forall w, P w ->
    match m w with
    | (Ok a, w') => Q a w'
    | (Raise _, w') => E w'
    end.

Definition stable_call (P : World -> Prop) : Prop :=
  forall ev w, P w -> P (called ev w).

Definition stable_db (P : World -> Prop) : Prop :=
  forall d w, P w -> P (set_db d w).

Definition stable_cache (P : World -> Prop) : Prop :=
  forall c w, P w -> P (set_data_cache c w).

(** [data_cache[user_id][t]], when both keys are there. *)
Definition cached_table (w : World) (user_id : Z) (t : DatabaseTables)
  : option (gmap string PyVal) :=
  match data_cache w !! user_id with
  | Some user_data => user_data !! t
  | None => None
  end.

Definition update_row (changes : list (string * PyVal)) (row : gmap string PyVal)
  : gmap string PyVal :=
  fold_left (fun d kv => <[fst kv := snd kv]> d) changes row.

(** A field of the user's cached row. *)
Definition cached_field (w : World) (user_id : Z) (t : DatabaseTables)
    (key : string) : option PyVal :=
  match cached_table w user_id t with
  | Some row => row !! key
  | None => None
  end.

(** [user_id in data_cache] *)
Definition is_cached (w : World) (user_id : Z) : bool :=
  match data_cache w !! user_id with
  | Some _ => true
  | None => false
  end.

(** The cache once the changes are copied into the user's dictionary. *)
Definition cache_after_changes (user_id : Z) (t : DatabaseTables)
    (changes : list (string * PyVal))
    (c : gmap Z (gmap DatabaseTables (gmap string PyVal)))
  : gmap Z (gmap DatabaseTables (gmap string PyVal)) :=
  match c !! user_id with
  | Some user_data =>
      match user_data !! t with
      | Some row => <[user_id := <[t := update_row changes row]> user_data]> c
      | None => c
      end
  | None => c
  end.

(** A code point of a well-formed text: in range and not a surrogate. *)
Definition scalar_value (c : N) : Prop :=
  (c <= 1114111 /\ ~ (55296 <= c <= 57343))%N.

(** A character that stands for itself inside a quoted text of the
    statement. *)
(** *** The quoted text as the engine reads it *)

Definition plain_char (c : N) : Prop := c <> apostrophe /\ sql_char c = true.

(** The two page fields of a user's cached row. *)
Definition Fields (user_id : Z) (t : DatabaseTables) (c l : PyVal) (w : World)
  : Prop :=
  exists row, cached_table w user_id t = Some row
              /\ row !! "current_page" = Some c
              /\ row !! "last_page" = Some l.

(** The events added since the trace was [tr0]. *)
Definition Ext (tr0 : list Event) (w : World) : Prop :=
  exists evs, trace w = tr0 ++ evs.


(** The statements a read issues: the insertion of a missing row, the
    commit, the selection of the row. *)
Definition read_event (ev : Event) : Prop :=
  match ev with
  | EvExecute sql _ => exists t, sql = sql_insert t \/ sql = sql_select t
  | EvCommit => True
  | _ => False
  end.

(** [w1] is [w] after statements of a read for [user_id]: rows are kept,
    missing rows of the user may have been created with their defaults,
    and only read events were added.  The cache is not part of it. *)
Definition ReadsDb (user_id : Z) (w w1 : World) : Prop :=
  (forall k row, db w !! k = Some row -> db w1 !! k = Some row)
  /\ (forall k, db w !! k = None ->
        db w1 !! k = None
        \/ (snd k = user_id /\ db w1 !! k = Some (default_row (fst k))))
  /\ exists evs, trace w1 = trace w ++ evs /\ Forall read_event evs.

(** Where the pagination returned by [get_data] comes from. *)
Definition page_source (env : Env) (request : FetchRequest) (p : Page.t)
  : Prop :=
  match identifier request with
  | JStr ident =>
      if isnumeric (unicode_numeric env) ident then p = OnePage
      else exists n found, search_result env n = Ok (found, p)
  | _ => False
  end.

(** A read changes the cache at the user's entry only, and only when
    the user was not cached. *)
Definition ReadThrough (user_id : Z) (w w1 : World) : Prop :=
  ReadsDb user_id w w1
  /\ (forall u, u <> user_id -> data_cache w1 !! u = data_cache w !! u)
  /\ (forall ud, data_cache w !! user_id = Some ud -> w1 = w).


(** The process is started again: [data_cache = {}], the database stays. *)
Definition restart (w : World) : World := set_data_cache ∅ w.

(** Neither the cache nor the database differ between two worlds. *)
Definition same_state (w w' : World) : Prop :=
  data_cache w' = data_cache w /\ db w' = db w.

(** The statement that clears the reference to the displayed message. *)
Definition clear_statement (t : DatabaseTables) : pystr :=
  sql_update t [("message_id", PStr (str "NULL"))].

(** In a list of events, every attempt to delete a message comes after
    the statement that clears the reference. *)
Definition cleared_before_delete (t : DatabaseTables) (user_id : Z)
    (evs : list Event) : Prop :=
  forall i chat_id message_id,
    evs !! i = Some (EvDeleteMessage chat_id message_id) ->
    exists j, (j < i)%nat /\ evs !! j = Some (EvExecute (clear_statement t) user_id).

(** Every cached field holds the value of its column in the stored row. *)
Definition cache_mirrors_store (user_id : Z) (t : DatabaseTables) (w : World)
  : Prop :=
  forall row stored,
    cached_table w user_id t = Some row ->
    db w !! (t, user_id) = Some stored ->
    forall i key, column_names t !! i = Some key ->
                  row !! key = py_of_sql <$> stored !! i.

(** *** Predicates on tags, lines, calls and requests *)

(** [f'<{name}>'] *)
Definition opening_tag (name : pystr) : pystr := str "<" ++ name ++ str ">".

(** A text that can stand between [<] and [>]. *)
Definition tag_body (body : pystr) : Prop := Forall (fun c => c <> 62%N) body.

(** A tag as the first loop cuts it. *)
Definition cut_tag (tag : pystr) : Prop :=
  exists body, tag = 60%N :: body ++ [62%N] /\ tag_body body.

(** A line ends where the text ends or at a newline. *)
Definition line_end (s : pystr) : Prop := s = [] \/ exists s', s = 10%N :: s'.

(** What holds of a field of the pattern: its match runs from the opening
    text to the last closing text of the line. *)
Definition field_cut (field : pystr * pystr) : Prop :=
  field.1 <> []
  /\ forall v rest tail,
       Forall (fun c => c <> 10%N) v ->
       (forall i, after_prefix field.2 (drop i rest) = None) ->
       line_end tail ->
       re_match (alternatives sensitive_fields)
         (field.1 ++ v ++ field.2 ++ rest ++ tail) Some
       = Some (rest ++ tail).

(** A call to the content API. *)
Definition fetch_event (ev : Event) : Prop :=
  match ev with
  | EvGet _ _ | EvSearch _ _ _ _ => True
  | _ => False
  end.

(** The calls that fetch again, by its id, every item a search found. *)
Definition refetch (cls : Category) (found : list Item) : list Event :=
  map (fun a => EvGet cls (JInt (item_id a))) found.

(** The request a click makes of the cached parameters:
    [loads(kwargs.strip("'"))], the page set, the dictionary unpacked. *)
Definition request_of_kwargs (kwargs : PyVal) (next_page : Z) : Res FetchRequest :=
  match kwargs with
  | PStr s =>
      match loads (strip_chars [apostrophe] s) with
      | Ok (JObj members) =>
          keyword_call (dict_set (str "page") (JInt next_page)
                          (dict_of_members members))
      | Ok _ => Raise TypeError
      | Raise e => Raise e
      end
  | _ => Raise AttributeError
  end.

(** The first call a fetch makes. *)
Definition first_fetch (env : Env) (cls : Category) (ident : pystr)
    (per_page page : JVal) : Event :=
  if isnumeric (unicode_numeric env) ident then EvGet cls (JStr ident)
  else EvSearch cls ident per_page page.

(** Since [w0], every call added to the trace has advanced the clock by
    one. *)
Definition Ticks (w0 w : World) : Prop :=
  exists evs, trace w = trace w0 ++ evs /\ clock w = (clock w0 + length evs)%nat.

(** Since [w0] the call [ev] was made, and [a] is the answer it got: the
    one listed at the value the clock had when the call was made. *)
Definition Answered {A} (env : Env) (answer : Env -> nat -> Res A) (w0 : World)
    (ev : Event) (a : A) (w : World) : Prop :=
  exists before after,
    trace w = trace w0 ++ before ++ ev :: after
    /\ answer env (clock w0 + length before)%nat = Ok a.

(** A property of the world that survives any rewriting of the cache
    entry of [user_id]. *)
Definition stable_entry (user_id : Z) (P : World -> Prop) : Prop :=
  forall user_data w,
    P w -> P (set_data_cache (<[user_id := user_data]> (data_cache w)) w).

(** The cache entries of the users other than [user_id] are those of
    [w0]. *)
Definition others_kept (user_id : Z) (w0 w : World) : Prop :=
  forall u', u' <> user_id -> data_cache w !! u' = data_cache w0 !! u'.

(** *** The pagination state, in the cache and in the store *)










(** ** A scenario: every collaborator answers, a search has three pages *)

Definition naruto : Item := {| item_id := 20; item_payload := str "Naruto" |}.

Definition scenario : Env := {|
  db_unavailable := fun _ => false;
  db_other := fun _ _ => None;
  delete_message_result := fun _ => Ok tt;
  reply_result := fun n => Ok (100 + Z.of_nat n);
  get_result := fun _ => Ok (Some naruto);
  search_result := fun _ =>
    Ok ([naruto], {| Page.last := 3; Page.current := 1; Page.per_page := 1 |});
  format_item := fun _ a _ => item_payload a;
  remove_unspecified_tags := fun s => s;
  unicode_numeric := fun _ => false;
|}.

(** The database is reachable except at one tick of the clock. *)
Definition scenario_db_down_at (k : nat) : Env := {|
  db_unavailable := fun n => Nat.eqb n k;
  db_other := fun _ _ => None;
  delete_message_result := fun _ => Ok tt;
  reply_result := fun n => Ok (100 + Z.of_nat n);
  get_result := fun _ => Ok (Some naruto);
  search_result := fun _ =>
    Ok ([naruto], {| Page.last := 3; Page.current := 1; Page.per_page := 1 |});
  format_item := fun _ a _ => item_payload a;
  remove_unspecified_tags := fun s => s;
  unicode_numeric := fun _ => false;
|}.

(** A process that has just started on an empty database. *)
Definition fresh : World :=
  {| data_cache := ∅; db := ∅; clock := 0; trace := [] |}.

Definition alice : Update :=
  {| effective_user := 1; effective_chat := 2; effective_message := 3 |}.

(** After [/anime Naruto]. *)
Definition after_naruto : World :=
  snd (handle_first scenario Anime alice [str "Naruto"] fresh).


(** After [/anime a''b], the identifier holding two apostrophes. *)
Definition after_quotes : World :=
  snd (handle_first scenario Anime alice [str "a''b"] fresh).

(** A world where the parameters of the query were lost. *)
Definition lost_parameters : World :=
  {| data_cache :=
       {[ 1 := {[ KEYBOARD_ANIME :=
                    {[ "current_page" := PInt 1; "last_page" := PInt 3;
                       "kwargs" := PNone ]} ]} ]};
     db := ∅; clock := 0; trace := [] |}.



(** * Properties *)

(** ** Properties of [utils.py] *)

Lemma clamp_bounds value least most :
  least <= most -> least <= clamp value least most <= most.
Proof. unfold clamp. lia. Qed.

(** C2. For every [last_page >= 1], every [step] and every [current_page]
    in [1, last_page], the page a navigation click aims at,
    [clamp (current_page + step) 1 last_page], lies in [1, last_page]. *)
Theorem clamp_target_in_range (last_page step current_page : Z) :
  1 <= last_page ->
  1 <= current_page <= last_page ->
  1 <= clamp (current_page + step) 1 last_page <= last_page.
Proof. intros Hlast _. now apply clamp_bounds. Qed.

Lemma clamp_target_in_range_witness :
  1 <= clamp (2 + 7) 1 3 <= 3.
Proof. apply (clamp_target_in_range 3 7 2); lia. Defined.

Section Chunks.
Context {A : Type}.
Implicit Types (text : list A) (k : Z).

Lemma fold_append_map (f : Z -> list A) (starts : list Z) (acc : list (list A)) :
  fold_left (fun chunks start => chunks ++ [f start]) starts acc
  = acc ++ map f starts.
Proof.
  revert acc. induction starts as [|s starts IH]; intros acc; simpl.
  - now rewrite app_nil_r.
  - rewrite IH, <- app_assoc. reflexivity.
Qed.

Lemma slice_index_inside text (i : Z) :
  0 <= i <= Z.of_nat (length text) -> slice_index text i = Z.to_nat i.
Proof.
  intros H. unfold slice_index.
  destruct (Z.ltb_spec i 0); [lia|]. f_equal. lia.
Qed.

Lemma chunk_at_inner text k (start : Z) :
  0 < k -> 0 <= start -> start + k < Z.of_nat (length text) ->
  chunk_at text k start = take (Z.to_nat k) (drop (Z.to_nat start) text).
Proof.
  intros Hk Hs Hlt. unfold chunk_at.
  destruct (Z.ltb_spec (start + k) (Z.of_nat (length text))); [|lia].
  unfold py_slice. rewrite !slice_index_inside by lia.
  f_equal. lia.
Qed.

Lemma chunk_at_last text k (start : Z) :
  0 <= start <= Z.of_nat (length text) ->
  Z.of_nat (length text) <= start + k ->
  chunk_at text k start = drop (Z.to_nat start) text.
Proof.
  intros Hs Hge. unfold chunk_at.
  destruct (Z.ltb_spec (start + k) (Z.of_nat (length text))); [lia|].
  unfold py_slice_from. now rewrite slice_index_inside by lia.
Qed.

Lemma chunk_at_length text k (start : Z) :
  0 < k -> 0 <= start <= Z.of_nat (length text) ->
  Z.of_nat (length (chunk_at text k start)) <= k.
Proof.
  intros Hk Hs.
  destruct (Z.lt_ge_cases (start + k) (Z.of_nat (length text))).
  - rewrite chunk_at_inner by lia. rewrite length_take. lia.
  - rewrite chunk_at_last by lia. rewrite length_drop. lia.
Qed.

(** The chunks cut at [j*k, (j+1)*k, ...] up to the end of the text
    rebuild the text from offset [j*k] on. *)
Lemma chunks_from text k (c j : nat) :
  0 < k ->
  Z.of_nat j * k <= Z.of_nat (length text) ->
  Z.of_nat (length text) <= Z.of_nat (j + c) * k ->
  (c <> 0%nat -> Z.of_nat (j + c - 1) * k < Z.of_nat (length text)) ->
  concat (map (chunk_at text k)
              (map (fun i : nat => 0 + Z.of_nat i * k) (seq j c)))
  = drop (Z.to_nat (Z.of_nat j * k)) text.
Proof.
  intros Hk. revert j. induction c as [|c IH]; intros j Hlo Hhi Hlast; simpl.
  - rewrite drop_ge; [reflexivity|]. replace (j + 0)%nat with j in Hhi by lia. lia.
  - destruct c as [|c].
    + simpl. rewrite app_nil_r.
      apply chunk_at_last; [lia|]. replace (j + 1)%nat with (S j) in Hhi by lia. lia.
    + rewrite IH.
      * rewrite chunk_at_inner; [| lia | lia |].
        -- replace (Z.to_nat (Z.of_nat (S j) * k))
             with (Z.to_nat (Z.of_nat j * k) + Z.to_nat k)%nat by lia.
           rewrite <- drop_drop. apply take_drop.
        -- specialize (Hlast ltac:(lia)).
           replace (j + S (S c) - 1)%nat with (S j + c)%nat in Hlast by lia. nia.
      * specialize (Hlast ltac:(lia)).
        replace (j + S (S c) - 1)%nat with (S j + c)%nat in Hlast by lia. nia.
      * replace (S j + S c)%nat with (j + S (S c))%nat by lia. exact Hhi.
      * intros _. replace (S j + S c - 1)%nat with (j + S (S c) - 1)%nat by lia.
        apply Hlast. lia.
Qed.

Lemma range_len_cover (n k : Z) :
  0 < k -> 0 <= n ->
  let m := range_len 0 n k in
  0 <= m /\ n <= m * k /\ (m <> 0 -> (m - 1) * k < n).
Proof.
  intros Hk Hn. unfold range_len.
  destruct (Z.ltb_spec 0 k); [|lia].
  destruct (Z.ltb_spec 0 n); simpl.
  - replace (n - 0 - 1) with (n - 1) by lia.
    pose proof (Z.div_mod (n - 1) k ltac:(lia)).
    pose proof (Z.mod_pos_bound (n - 1) k Hk).
    pose proof (Z.div_pos (n - 1) k ltac:(lia) Hk).
    repeat split; try nia.
  - repeat split; lia.
Qed.
End Chunks.

(** C10. For every text and every [chunk_length > 0], [chunkify_text]
    returns chunks whose concatenation, in order, is the text, and none of
    them is longer than [chunk_length]. *)
Theorem chunkify_text_concat_and_bound {A} (text : list A) (chunk_length : Z) :
  0 < chunk_length ->
  exists chunks,
    chunkify_text text chunk_length = Ok chunks
    /\ concat chunks = text
    /\ Forall (fun chunk => Z.of_nat (length chunk) <= chunk_length) chunks.
Proof.
  intros Hk. unfold chunkify_text, py_range.
  destruct (Z.eqb_spec chunk_length 0) as [Hz|Hnz]; [lia|].
  eexists. split; [reflexivity|].
  rewrite fold_append_map. simpl.
  set (n := Z.of_nat (length text)).
  destruct (range_len_cover n chunk_length Hk ltac:(lia)) as (Hm0 & Hcov & Hlast).
  set (m := range_len 0 n chunk_length) in *.
  split.
  - rewrite (chunks_from text chunk_length (Z.to_nat m) 0 Hk); simpl.
    + reflexivity.
    + lia.
    + fold n. rewrite Z2Nat.id by lia. exact Hcov.
    + intros Hne. fold n.
      replace (Z.of_nat (Z.to_nat m - 1)) with (m - 1) by lia.
      apply Hlast. lia.
  - apply Forall_forall. intros chunk Hin. apply list_elem_of_In in Hin.
    apply in_map_iff in Hin as (start & <- & Hin).
    apply in_map_iff in Hin as (i & <- & Hin).
    apply in_seq in Hin.
    apply chunk_at_length; [exact Hk|].
    fold n. split; [lia|].
    assert (Z.of_nat i <= m - 1) by lia.
    assert (m <> 0) by lia. specialize (Hlast H0). nia.
Qed.

Lemma chunkify_text_concat_and_bound_witness :
  exists chunks,
    chunkify_text (str "pagination") 4 = Ok chunks
    /\ concat chunks = str "pagination"
    /\ Forall (fun chunk => Z.of_nat (length chunk) <= 4) chunks.
Proof. apply (chunkify_text_concat_and_bound (str "pagination") 4). lia. Defined.





Section Rules.
Context {A B : Type}.

Lemma triple_ret (a : A) (Q : A -> World -> Prop) E :
  triple (Q a) (mret a) Q E.
Proof. intros w H. exact H. Qed.

Lemma triple_bind (m : M A) (k : A -> M B) P R Q E :
  triple P m R E -> (forall a, triple (R a) (k a) Q E) ->
  triple P (m ≫= k) Q E.
Proof.
  intros Hm Hk w HP. specialize (Hm w HP).
  unfold mbind, M_bind. destruct (m w) as [[a|e] w'].
  - apply Hk, Hm.
  - exact Hm.
Qed.

Lemma triple_weaken (m : M A) (P P' : World -> Prop) (Q Q' : A -> World -> Prop)
    (E E' : World -> Prop) :
  triple P' m Q' E' ->
  (forall w, P w -> P' w) -> (forall a w, Q' a w -> Q a w) ->
  (forall w, E' w -> E w) ->
  triple P m Q E.
Proof.
  intros H HP HQ HE w Hw. specialize (H w (HP w Hw)).
  destruct (m w) as [[a|e] w']; auto.
Qed.

Lemma triple_raise e (P : World -> Prop) (Q : A -> World -> Prop) :
  triple P (raise e) Q P.
Proof. intros w H. exact H. Qed.

Lemma triple_lift (r : Res A) (P : World -> Prop) :
  triple P (lift r) (fun a w => P w /\ r = Ok a) P.
Proof. intros w H. unfold lift. destruct r; auto. Qed.

(** What a coroutine leaves when it raises may be left open. *)
Lemma triple_any_exn (m : M A) (P : World -> Prop) (Q : A -> World -> Prop) E :
  triple P m Q E -> triple P m Q (fun _ => True).
Proof.
  intros H. eapply triple_weaken; [exact H|auto..].
Qed.

(** A fact that does not depend on the world moves to the context. *)
Lemma triple_pure (fact : Prop) (m : M A) (P : World -> Prop) Q E :
  (fact -> triple P m Q E) -> triple (fun w => P w /\ fact) m Q E.
Proof. intros H w [HP Hf]. now apply H. Qed.

Lemma triple_call env ev (answer : Env -> nat -> Res A) (P : World -> Prop) :
  stable_call P ->
  triple P (call env ev answer) (fun _ => P) P.
Proof.
  intros Hs w H. unfold call. destruct (answer env (clock w)); apply Hs, H.
Qed.

Lemma triple_try_except (body handler : M A) caught P Q R E :
  triple P body Q R -> triple R handler Q E -> (forall w, R w -> E w) ->
  triple P (try_except body caught handler) Q E.
Proof.
  intros Hb Hh HR w HP. specialize (Hb w HP). unfold try_except.
  destruct (body w) as [[a|e] w']; [exact Hb|].
  destruct (caught e); [apply Hh, Hb | apply HR, Hb].
Qed.

Lemma triple_try_finally (body : M A) (cleanup : M unit) P Q R S E :
  triple P body R S ->
  (forall a, triple (R a) cleanup (fun _ => Q a) E) ->
  triple S cleanup (fun _ => E) E ->
  triple P (try_finally body cleanup) Q E.
Proof.
  intros Hb Hok Hex w HP. specialize (Hb w HP). unfold try_finally.
  destruct (body w) as [[a|e] w'].
  - specialize (Hok a w' Hb). destruct (cleanup w') as [[[]|e'] w'']; exact Hok.
  - specialize (Hex w' Hb). destruct (cleanup w') as [[[]|e'] w'']; exact Hex.
Qed.
End Rules.

Section StorageFacts.
Context (env : Env).

Lemma triple_cursor_execute sql user_id effect (P : World -> Prop) :
  stable_call P -> stable_db P ->
  triple P (cursor_execute env sql user_id effect) (fun _ => P) P.
Proof.
  intros Hc Hd w H. unfold cursor_execute.
  destruct (db_unavailable env (clock w)); [apply Hc, H|].
  destruct (effect (db w)); [apply Hd|]; apply Hc, H.
Qed.

Lemma triple_connection_commit (P : World -> Prop) :
  stable_call P -> triple P (connection_commit env) (fun _ => P) P.
Proof.
  intros Hc w H. unfold connection_commit.
  destruct (db_unavailable env (clock w)); apply Hc, H.
Qed.

Lemma triple_fetchone_tail t user_id (P : World -> Prop) :
  stable_call P -> stable_db P ->
  triple P (fetchone_tail env t user_id) (fun _ => P) P.
Proof.
  intros Hc Hd. unfold fetchone_tail.
  eapply triple_bind; [apply triple_cursor_execute; assumption|].
  intros ? w H. destruct (db w !! (t, user_id)); exact H.
Qed.

Lemma triple_load_tables user_id tables user_data (P : World -> Prop) :
  stable_call P -> stable_db P ->
  triple P (load_tables env user_id tables user_data) (fun _ => P) P.
Proof.
  intros Hc Hd. revert user_data.
  induction tables as [|t tables IH]; intros user_data; simpl.
  - intros w H. exact H.
  - eapply triple_bind; [apply triple_cursor_execute; assumption|]. intros ?.
    eapply triple_bind; [apply triple_connection_commit; assumption|]. intros ?.
    eapply triple_bind; [apply triple_fetchone_tail; assumption|]. intros row.
    apply IH.
Qed.

(** Whatever is insensitive to calls and to the content of the database
    and of the cache survives every operation of [storage.py]. *)
Lemma triple_setup_data_cache user_id (P : World -> Prop) :
  stable_call P -> stable_db P -> stable_cache P ->
  triple P (setup_data_cache env user_id) (fun _ => P) P.
Proof.
  intros Hc Hd Hk. unfold setup_data_cache.
  eapply triple_bind; [apply triple_load_tables; assumption|].
  intros ud w H. apply Hk, H.
Qed.

Lemma triple_ensure_cached user_id (P : World -> Prop) :
  stable_call P -> stable_db P -> stable_cache P ->
  triple P (ensure_cached env user_id) (fun _ => P) P.
Proof.
  intros Hc Hd Hk w H. unfold ensure_cached.
  destruct (data_cache w !! user_id); [exact H|].
  now apply triple_setup_data_cache.
Qed.

Lemma triple_assert_table user_id t (P : World -> Prop) :
  triple P (assert_table user_id t) (fun _ => P) P.
Proof.
  intros w H. unfold assert_table.
  destruct (data_cache w !! user_id) as [ud|]; [|exact H].
  destruct (ud !! t); exact H.
Qed.

Lemma triple_for_each_setitem user_id t changes (P : World -> Prop) :
  stable_cache P ->
  triple P (for_each (setitem user_id t) changes) (fun _ => P) P.
Proof.
  intros Hk. induction changes as [|kv changes IH]; simpl.
  - intros w H. exact H.
  - eapply triple_bind; [|intros ?; apply IH].
    intros w H. unfold setitem.
    destruct (data_cache w !! user_id) as [ud|]; [|exact H].
    destruct (ud !! t); [apply Hk|]; exact H.
Qed.

Lemma triple_set_user_data user_id t changes (P : World -> Prop) :
  stable_call P -> stable_db P -> stable_cache P ->
  triple P (set_user_data env user_id t changes) (fun _ => P) P.
Proof.
  intros Hc Hd Hk. unfold set_user_data.
  eapply triple_bind; [apply triple_ensure_cached; assumption|]. intros ?.
  eapply triple_bind; [apply triple_assert_table|]. intros ?.
  eapply triple_bind.
  { intros w H. apply (triple_cursor_execute _ _ _ P Hc Hd w H). }
  intros ?.
  eapply triple_bind; [apply triple_connection_commit; assumption|]. intros ?.
  apply triple_for_each_setitem; assumption.
Qed.

Lemma triple_get_user_data user_id t (P : World -> Prop) :
  stable_call P -> stable_db P -> stable_cache P ->
  triple P (get_user_data env user_id t) (fun _ => P) P.
Proof.
  intros Hc Hd Hk. unfold get_user_data.
  eapply triple_bind; [apply triple_ensure_cached; assumption|]. intros ?.
  eapply triple_bind; [apply triple_assert_table|]. intros ?.
  intros w H. exact H.
Qed.

Lemma triple_getitem table key (P : World -> Prop) :
  triple P (getitem table key) (fun _ => P) P.
Proof.
  intros w H. unfold getitem.
  destruct (data_cache w !! table.1) as [ud|]; [|exact H].
  destruct (ud !! table.2) as [d|]; [|exact H].
  destruct (d !! key); exact H.
Qed.

(** *** The cache of a user who is already cached *)

Lemma ensure_cached_hit user_id ud w :
  data_cache w !! user_id = Some ud ->
  ensure_cached env user_id w = (Ok tt, w).
Proof. intros H. unfold ensure_cached. now rewrite H. Qed.

Lemma get_user_data_hit user_id t row w :
  cached_table w user_id t = Some row ->
  get_user_data env user_id t w = (Ok (user_id, t), w).
Proof.
  unfold cached_table. intros H.
  destruct (data_cache w !! user_id) as [ud|] eqn:Hud; [|discriminate].
  unfold get_user_data, mbind, M_bind.
  rewrite (ensure_cached_hit _ ud) by assumption.
  unfold assert_table. rewrite Hud, H. reflexivity.
Qed.

Lemma getitem_hit user_id t row key w :
  cached_table w user_id t = Some row ->
  getitem (user_id, t) key w
  = (match row !! key with Some v => Ok v | None => Raise KeyError end, w).
Proof.
  unfold cached_table, getitem. simpl. intros H.
  destruct (data_cache w !! user_id) as [ud|]; [|discriminate].
  rewrite H. destruct (row !! key); reflexivity.
Qed.

(** The loop that copies the changes into the cached dictionary. *)
Lemma for_each_setitem_hit user_id t changes : forall w ud row,
  data_cache w !! user_id = Some ud -> ud !! t = Some row ->
  for_each (setitem user_id t) changes w
  = (Ok tt,
     match changes with
     | [] => w
     | _ => set_data_cache
              (<[user_id := <[t := update_row changes row]> ud]> (data_cache w)) w
     end).
Proof.
  induction changes as [|kv changes IH]; intros w ud row Hud Hrow; [reflexivity|].
  simpl. unfold mbind, M_bind, setitem at 1. rewrite Hud, Hrow.
  erewrite IH; cycle 1.
  { simpl. apply lookup_insert_eq. }
  { apply lookup_insert_eq. }
  f_equal. destruct changes as [|kv' changes]; [reflexivity|].
  unfold set_data_cache; simpl. f_equal.
  rewrite insert_insert_eq. f_equal. rewrite insert_insert_eq. reflexivity.
Qed.

(** What [set_user_data] does to the cache, seen from the world the
    read-through leaves: nothing when it raises, the changes when it
    returns. *)
Lemma set_user_data_cache user_id t changes w :
  let w1 := snd (ensure_cached env user_id w) in
  match set_user_data env user_id t changes w with
  | (Raise _, w') => data_cache w' = data_cache w1
  | (Ok _, w') =>
      exists ud row,
        data_cache w1 !! user_id = Some ud /\ ud !! t = Some row
        /\ data_cache w'
           = match changes with
             | [] => data_cache w1
             | _ => <[user_id := <[t := update_row changes row]> ud]> (data_cache w1)
             end
  end.
Proof.
  simpl. unfold set_user_data, mbind, M_bind.
  destruct (ensure_cached env user_id w) as [[[]|e] w1]; simpl; [|reflexivity].
  unfold assert_table.
  destruct (data_cache w1 !! user_id) as [ud|] eqn:Hud; [|reflexivity].
  destruct (ud !! t) as [row|] eqn:Hrow; [|reflexivity].
  unfold cursor_execute.
  destruct (db_unavailable env (clock w1)); [reflexivity|].
  destruct (update_effect env (clock w1) t user_id changes (db w1)) as [d|];
    [|reflexivity].
  unfold connection_commit. simpl.
  destruct (db_unavailable env (S (clock w1))); [reflexivity|].
  erewrite for_each_setitem_hit by (simpl; eassumption).
  exists ud, row. repeat split; try assumption.
  destruct changes; reflexivity.
Qed.
End StorageFacts.

Section KeyboardFacts.
Context (env : Env).

Lemma triple_call_value {A} ev (answer : Env -> nat -> Res A) (P : World -> Prop) :
  stable_call P ->
  triple P (call env ev answer)
    (fun a w => P w /\ exists n, answer env n = Ok a) P.
Proof.
  intros Hs w H. unfold call.
  destruct (answer env (clock w)) eqn:Ha; [|apply Hs, H].
  split; [apply Hs, H | eauto].
Qed.

Lemma triple_fetch_each cls found (P : World -> Prop) :
  stable_call P -> triple P (fetch_each env cls found) (fun _ => P) P.
Proof.
  intros Hs. induction found as [|a found IH]; simpl.
  - intros w H. exact H.
  - eapply triple_bind; [apply triple_call; assumption|]. intros i.
    eapply triple_bind; [apply IH|]. intros rest w H. exact H.
Qed.


Lemma triple_get_data cls request (P : World -> Prop) :
  stable_call P ->
  triple P (get_data env cls request)
    (fun r w => P w /\ page_source env request (snd r)) P.
Proof.
  intros Hs. unfold get_data, page_source.
  destruct (identifier request) as [| | | |ident| |];
    try (intros w H; exact H).
  eapply triple_bind with
    (R := fun r w => P w /\
            if isnumeric (unicode_numeric env) ident then snd r = OnePage
            else exists n found, search_result env n = Ok (found, snd r)).
  - destruct (isnumeric (unicode_numeric env) ident).
    + eapply triple_bind; [apply triple_call; assumption|].
      intros item w H. simpl. auto.
    + eapply triple_bind; [apply triple_call_value; assumption|].
      intros [found pagination]. apply triple_pure. intros [n Hn].
      eapply triple_bind; [apply triple_fetch_each; assumption|].
      intros items w H. simpl. eauto.
  - intros [items pagination]. apply triple_pure. simpl. intros Hp.
    eapply triple_bind; [apply triple_lift|].
    intros text. apply triple_pure. intros _ w H. simpl. auto.
Qed.
End KeyboardFacts.

Lemma triple_and {A} (m : M A) (P1 P2 : World -> Prop) Q1 Q2 E1 E2 :
  triple P1 m Q1 E1 -> triple P2 m Q2 E2 ->
  triple (fun w => P1 w /\ P2 w) m (fun a w => Q1 a w /\ Q2 a w)
    (fun w => E1 w /\ E2 w).
Proof.
  intros H1 H2 w [HP1 HP2]. specialize (H1 w HP1). specialize (H2 w HP2).
  destruct (m w) as [[a|e] w']; auto.
Qed.




Lemma Fields_stable_call u t c l : stable_call (Fields u t c l).
Proof. intros ev w H. exact H. Qed.
Lemma Fields_stable_db u t c l : stable_db (Fields u t c l).
Proof. intros d w H. exact H. Qed.

Lemma Ext_stable tr0 : stable_call (Ext tr0) /\ stable_db (Ext tr0) /\ stable_cache (Ext tr0).
Proof.
  repeat split; intros x w [evs H]; [|exists evs; exact H..].
  exists (evs ++ [x]). simpl. rewrite H. now rewrite app_assoc.
Qed.


Section MoreKeyboardFacts.
Context (env : Env).

Lemma set_user_data_hit user_id t changes row w :
  cached_table w user_id t = Some row ->
  match set_user_data env user_id t changes w with
  | (Raise _, w') => data_cache w' = data_cache w
  | (Ok _, w') => cached_table w' user_id t = Some (update_row changes row)
  end.
Proof.
  intros H. pose proof (set_user_data_cache env user_id t changes w) as S.
  unfold cached_table in H.
  destruct (data_cache w !! user_id) as [ud|] eqn:Hud; [|discriminate].
  rewrite (ensure_cached_hit env _ ud) in S by assumption. simpl in S.
  destruct (set_user_data env user_id t changes w) as [[[]|e] w']; [|exact S].
  destruct S as (ud' & row' & Hud' & Hrow' & Hc).
  rewrite Hud in Hud'. injection Hud' as <-. rewrite H in Hrow'. injection Hrow' as <-.
  unfold cached_table. rewrite Hc.
  destruct changes as [|kv changes]; [simpl; now rewrite Hud|].
  rewrite lookup_insert_eq. apply lookup_insert_eq.
Qed.

Lemma triple_set_user_data_fields user_id t changes c l c' l' :
  (forall row, row !! "current_page" = Some c -> row !! "last_page" = Some l ->
               update_row changes row !! "current_page" = Some c'
               /\ update_row changes row !! "last_page" = Some l') ->
  triple (Fields user_id t c l) (set_user_data env user_id t changes)
    (fun _ => Fields user_id t c' l') (Fields user_id t c l).
Proof.
  intros Hupd w (row & Hrow & Hc & Hl).
  pose proof (set_user_data_hit user_id t changes row w Hrow) as S.
  destruct (set_user_data env user_id t changes w) as [[[]|e] w'].
  - exists (update_row changes row). split; [exact S|]. now apply Hupd.
  - exists row. unfold cached_table in *. rewrite S. auto.
Qed.

Lemma triple_get_user_data_fields user_id t c l :
  triple (Fields user_id t c l) (get_user_data env user_id t)
    (fun r w => Fields user_id t c l w /\ r = (user_id, t))
    (Fields user_id t c l).
Proof.
  intros w H. destruct H as (row & Hrow & Hc & Hl).
  rewrite (get_user_data_hit env _ _ row) by assumption.
  split; [|reflexivity]. exists row. auto.
Qed.

Lemma triple_getitem_fields user_id t c l key :
  triple (Fields user_id t c l) (getitem (user_id, t) key)
    (fun v w => Fields user_id t c l w
                /\ ((key = "current_page" -> v = c) /\ (key = "last_page" -> v = l)))
    (Fields user_id t c l).
Proof.
  intros w H. destruct H as (row & Hrow & Hc & Hl).
  rewrite (getitem_hit _ _ row) by assumption.
  destruct (row !! key) as [v|] eqn:Hv; [|exists row; auto].
  split; [exists row; auto|].
  split; intros ->; congruence.
Qed.

Lemma keyboard_one_page cls step current_page :
  keyboard cls step current_page 1 = [].
Proof. reflexivity. Qed.

(** [generate_markup] never touches the page fields of the cached row. *)
Lemma triple_generate_markup_fields cls current_page last_page update c l :
  triple (Fields (effective_user update) (table_name cls) c l)
    (generate_markup env cls current_page last_page update)
    (fun _ => Fields (effective_user update) (table_name cls) c l)
    (Fields (effective_user update) (table_name cls) c l).
Proof.
  unfold generate_markup.
  eapply triple_bind; [apply triple_get_user_data_fields|].
  intros r. apply triple_pure. intros ->.
  eapply triple_bind; [apply triple_getitem|]. intros previous_keyboard.
  eapply triple_bind; [apply triple_getitem|]. intros step.
  eapply triple_bind with (R := fun _ => Fields _ _ c l).
  - destruct (truthy previous_keyboard); [|intros w H; exact H].
    eapply triple_try_finally.
    + eapply triple_try_except.
      * apply triple_call, Fields_stable_call.
      * intros w H. exact H.
      * intros w H. exact H.
    + intros ?. apply triple_set_user_data_fields.
      intros row Hc Hl. unfold update_row. simpl.
      rewrite !lookup_insert_ne by discriminate. auto.
    + apply triple_set_user_data_fields.
      intros row Hc Hl. unfold update_row. simpl.
      rewrite !lookup_insert_ne by discriminate. auto.
  - intros ? w H. exact H.
Qed.

(** Whatever is insensitive to calls, to the database and to the cache
    survives [generate_markup]; on one page the markup is empty. *)
Lemma triple_generate_markup cls current_page last_page update (P : World -> Prop) :
  stable_call P -> stable_db P -> stable_cache P ->
  triple P (generate_markup env cls current_page last_page update)
    (fun markup w => P w /\ (last_page = 1 -> markup = [])) P.
Proof.
  intros Hc Hd Hk. unfold generate_markup.
  eapply triple_bind; [apply triple_get_user_data; assumption|]. intros r.
  eapply triple_bind; [apply triple_getitem|]. intros previous_keyboard.
  eapply triple_bind; [apply triple_getitem|]. intros step.
  eapply triple_bind with (R := fun _ => P).
  - destruct (truthy previous_keyboard); [|intros w H; exact H].
    eapply triple_try_finally.
    + eapply triple_try_except.
      * apply triple_call, Hc.
      * intros w H. exact H.
      * intros w H. exact H.
    + intros ?. apply triple_set_user_data; assumption.
    + apply triple_set_user_data; assumption.
  - intros ? w H. split; [exact H|]. intros ->. apply keyboard_one_page.
Qed.
End MoreKeyboardFacts.

Section HandlerFacts.
Context (env : Env).

Lemma triple_unchanged {A} (m : M A) (P : World -> Prop) :
  (forall w, snd (m w) = w) -> triple P m (fun _ => P) P.
Proof.
  intros Hm w H. specialize (Hm w). destruct (m w) as [[a|e] w'];
    simpl in Hm; now subst.
Qed.

Lemma triple_as_int v (P : World -> Prop) :
  triple P (as_int v) (fun z w => P w /\ v = PInt z) P.
Proof. intros w H. destruct v; simpl; auto. Qed.

Lemma triple_strip_quotes v (P : World -> Prop) :
  triple P (strip_quotes v) (fun _ => P) P.
Proof. intros w H. destruct v; exact H. Qed.

Lemma triple_set_page decoded n (P : World -> Prop) :
  triple P (set_page decoded n) (fun _ => P) P.
Proof. intros w H. destruct decoded; exact H. Qed.

End HandlerFacts.

(** ** What a read through the cache may do *)



Lemma ReadsDb_refl u w : ReadsDb u w w.
Proof.
  repeat split; auto. exists []. split; [now rewrite app_nil_r | constructor].
Qed.

Lemma ReadsDb_called u w w1 ev :
  read_event ev -> ReadsDb u w w1 -> ReadsDb u w (called ev w1).
Proof.
  intros Hev (H1 & H2 & evs & H3 & H4). repeat split; auto.
  exists (evs ++ [ev]). simpl. rewrite H3, app_assoc. split; [reflexivity|].
  apply Forall_app. split; [exact H4 | repeat constructor; exact Hev].
Qed.

Lemma ReadsDb_cache u w w1 c :
  ReadsDb u w w1 -> ReadsDb u w (set_data_cache c w1).
Proof. intros H. exact H. Qed.

Lemma ReadsDb_insert u w w1 t :
  ReadsDb u w w1 ->
  ReadsDb u w (set_db (insert_or_ignore t u (db w1)) w1).
Proof.
  intros (H1 & H2 & H3). unfold insert_or_ignore.
  destruct (db w1 !! (t, u)) eqn:Hrow; [repeat split; assumption|].
  repeat split; [| |exact H3]; simpl.
  - intros k row Hk. specialize (H1 k row Hk).
    rewrite lookup_insert_ne; [exact H1|]. intros <-. congruence.
  - intros k Hk. destruct (decide ((t, u) = k)) as [<-|Hne].
    + right. rewrite lookup_insert_eq. auto.
    + rewrite lookup_insert_ne by assumption. auto.
Qed.

Section ReadFacts.
Context (env : Env).

Lemma triple_load_tables_reads u w0 tables user_data :
  triple (ReadsDb u w0) (load_tables env u tables user_data)
    (fun _ => ReadsDb u w0) (ReadsDb u w0).
Proof.
  revert user_data. induction tables as [|t tables IH]; intros user_data; simpl.
  { intros w H. exact H. }
  eapply triple_bind with (R := fun _ => ReadsDb u w0).
  { intros w H. unfold cursor_execute.
    assert (read_event (EvExecute (sql_insert t) u)) as Hev by (exists t; auto).
    destruct (db_unavailable env (clock w)); [now apply ReadsDb_called|].
    exact (ReadsDb_insert u w0 (called _ w) t (ReadsDb_called u w0 w _ Hev H)). }
  intros ?. eapply triple_bind with (R := fun _ => ReadsDb u w0).
  { intros w H. unfold connection_commit.
    destruct (db_unavailable env (clock w)); now apply ReadsDb_called. }
  intros ?. eapply triple_bind with (R := fun _ => ReadsDb u w0);
    [|intros row; apply IH].
  unfold fetchone_tail. eapply triple_bind with (R := fun _ => ReadsDb u w0).
  { intros w H. unfold cursor_execute.
    assert (read_event (EvExecute (sql_select t) u)) as Hev by (exists t; auto).
    destruct (db_unavailable env (clock w)); [now apply ReadsDb_called|].
    destruct w as [c d k tr]. exact (ReadsDb_called u w0 _ _ Hev H). }
  intros ? w H. destruct (db w !! (t, u)); exact H.
Qed.


Lemma ensure_cached_read_through u w :
  ReadThrough u w (snd (ensure_cached env u w)).
Proof.
  unfold ensure_cached.
  destruct (data_cache w !! u) as [ud|] eqn:Hud; simpl.
  { split; [apply ReadsDb_refl|]. auto. }
  unfold setup_data_cache, mbind, M_bind.
  pose proof (triple_load_tables_reads u w all_tables ∅ w (ReadsDb_refl u w)) as H.
  pose proof (triple_load_tables env u all_tables ∅
                (fun w' => data_cache w' = data_cache w)) as Hc.
  specialize (Hc ltac:(intros ? ? ?; assumption) ltac:(intros ? ? ?; assumption)
                w eq_refl).
  destruct (load_tables env u all_tables ∅ w) as [[user_data|e] w1]; simpl.
  - split; [exact H|]. split; [|intros ud; congruence].
    intros u' Hne. simpl. rewrite lookup_insert_ne by congruence. now rewrite Hc.
  - split; [exact H|]. split; [|intros ud; congruence].
    intros u' _. now rewrite Hc.
Qed.

Lemma get_user_data_read_through u t w :
  ReadThrough u w (snd (get_user_data env u t w)).
Proof.
  pose proof (ensure_cached_read_through u w) as H.
  unfold get_user_data, mbind, M_bind.
  destruct (ensure_cached env u w) as [[[]|e] w1]; simpl in *; [|exact H].
  unfold assert_table.
  destruct (data_cache w1 !! u) as [ud|]; [|exact H].
  destruct (ud !! t); exact H.
Qed.

Lemma get_user_data_ok u t w r w1 :
  get_user_data env u t w = (Ok r, w1) ->
  r = (u, t) /\ exists row, cached_table w1 u t = Some row.
Proof.
  unfold get_user_data, mbind, M_bind.
  destruct (ensure_cached env u w) as [[[]|e] w']; [|discriminate].
  unfold assert_table, cached_table.
  destruct (data_cache w' !! u) as [ud|] eqn:Hud; [|discriminate].
  destruct (ud !! t) as [row|] eqn:Hrow; [|discriminate].
  intros [= <- <-]. rewrite Hud. eauto.
Qed.

(** *** The two early exits of [handle_next] *)

Lemma handle_next_uninitialised cls update step w r w1 row v :
  let u := effective_user update in
  let t := table_name cls in
  get_user_data env u t w = (Ok r, w1) ->
  cached_table w1 u t = Some row ->
  row !! "current_page" = Some v -> truthy v = false ->
  handle_next env cls update step w
  = (match reply_result env (clock w1) with
     | Ok _ => Ok tt
     | Raise e => Raise e
     end,
     called (EvReplyText (str "Please run the command again")
               (effective_message update)) w1).
Proof.
  intros u t Hget Hrow Hv Hf.
  destruct (get_user_data_ok u t w r w1 Hget) as [-> _].
  unfold handle_next, mbind, M_bind. fold u t. rewrite Hget.
  rewrite (getitem_hit u t row) by assumption. rewrite Hv, Hf. simpl.
  unfold call. destruct (reply_result env (clock w1)); reflexivity.
Qed.

Lemma handle_next_same_page cls update step w r w1 row c l :
  let u := effective_user update in
  let t := table_name cls in
  get_user_data env u t w = (Ok r, w1) ->
  cached_table w1 u t = Some row ->
  row !! "current_page" = Some (PInt c) -> c <> 0 ->
  row !! "last_page" = Some (PInt l) ->
  clamp (c + step) 1 l = c ->
  handle_next env cls update step w = (Ok tt, w1).
Proof.
  intros u t Hget Hrow Hc Hnz Hl Hsame.
  destruct (get_user_data_ok u t w r w1 Hget) as [-> _].
  unfold handle_next, mbind, M_bind. fold u t. rewrite Hget.
  rewrite (getitem_hit u t row) by assumption. rewrite Hc. simpl.
  destruct (Z.eqb_spec c 0) as [|_]; [contradiction|]. simpl.
  rewrite (getitem_hit u t row) by assumption. rewrite Hl. simpl.
  rewrite Hsame, Z.eqb_refl. reflexivity.
Qed.
End ReadFacts.

Section WriteFacts.
Context (env : Env).

(** [set_user_data] for a user who is cached, step by step: the
    statement, then the commit, then the cache. *)
Lemma set_user_data_run user_id t changes w ud row :
  data_cache w !! user_id = Some ud -> ud !! t = Some row ->
  set_user_data env user_id t changes w
  = let w1 := called (EvExecute (sql_update t changes) user_id) w in
    if db_unavailable env (clock w) then (Raise DatabaseError, w1)
    else match update_effect env (clock w) t user_id changes (db w) with
         | None => (Raise DatabaseError, w1)
         | Some d =>
             let w2 := called EvCommit (set_db d w1) in
             if db_unavailable env (S (clock w)) then (Raise DatabaseError, w2)
             else (Ok tt,
                   match changes with
                   | [] => w2
                   | _ => set_data_cache
                            (<[user_id := <[t := update_row changes row]> ud]>
                               (data_cache w)) w2
                   end)
         end.
Proof.
  intros Hud Hrow. unfold set_user_data, mbind, M_bind.
  rewrite (ensure_cached_hit env _ ud) by assumption.
  unfold assert_table. rewrite Hud, Hrow. unfold cursor_execute.
  destruct (db_unavailable env (clock w)); [reflexivity|].
  destruct (update_effect env (clock w) t user_id changes (db w)) as [d|];
    [|reflexivity].
  unfold connection_commit. simpl.
  destruct (db_unavailable env (S (clock w))); [reflexivity|].
  erewrite for_each_setitem_hit by (simpl; eassumption).
  reflexivity.
Qed.

(** The statement that clears the message reference is made of plain
    literals: it rewrites the first column of the user's row. *)
Lemma update_effect_clear (now : nat) (cls : Category) (user_id : Z) (d : Database) :
  update_effect env now (table_name cls) user_id
    [("message_id", PStr (str "NULL"))] d
  = Some (match d !! (table_name cls, user_id) with
          | Some row => <[(table_name cls, user_id) := <[0%nat := SNull]> row]> d
          | None => d
          end).
Proof.
  unfold update_effect.
  destruct cls; simpl; destruct (d !! _); reflexivity.
Qed.

Lemma generate_markup_run cls current_page last_page update w row mid st :
  let u := effective_user update in
  let t := table_name cls in
  cached_table w u t = Some row ->
  row !! "message_id" = Some mid -> truthy mid = true ->
  row !! "step" = Some st ->
  generate_markup env cls current_page last_page update w
  = let kb := keyboard cls st (clamp current_page 1 last_page) last_page in
    let w1 := called (EvDeleteMessage (effective_chat update) mid) w in
    match set_user_data env u t [("message_id", PStr (str "NULL"))] w1 with
    | (Ok _, w2) =>
        (match delete_message_result env (clock w) with
         | Ok _ => Ok kb
         | Raise e => if is_BadRequest e then Ok kb else Raise e
         end, w2)
    | (Raise e', w2) => (Raise e', w2)
    end.
Proof.
  intros u t Hrow Hmid Htruthy Hst.
  unfold generate_markup, mbind, M_bind. fold u t.
  rewrite (get_user_data_hit env u t row) by assumption.
  rewrite (getitem_hit u t row) by assumption. rewrite Hmid.
  rewrite (getitem_hit u t row) by assumption. rewrite Hst.
  rewrite Htruthy. unfold try_finally, try_except, call.
  destruct (delete_message_result env (clock w)) as [[]|e]; simpl.
  - destruct (set_user_data env u t _ _) as [[[]|e'] w2]; reflexivity.
  - destruct (is_BadRequest e); simpl;
      destruct (set_user_data env u t _ _) as [[[]|e'] w2]; reflexivity.
Qed.

(** The read at the start of [generate_markup] leaves a world from which
    the same read is a hit. *)
Lemma generate_markup_after_read cls current_page last_page update w r w1 :
  get_user_data env (effective_user update) (table_name cls) w = (Ok r, w1) ->
  generate_markup env cls current_page last_page update w
  = generate_markup env cls current_page last_page update w1.
Proof.
  intros Hget.
  destruct (get_user_data_ok env _ _ w r w1 Hget) as [-> [row Hrow]].
  unfold generate_markup, mbind, M_bind. rewrite Hget.
  now rewrite (get_user_data_hit env _ _ row w1 Hrow).
Qed.
End WriteFacts.

Section NumericFacts.
Context (env : Env).


End NumericFacts.

(** ** Observing a world *)

Lemma pair_of_fst {A B} (p : A * B) (a : A) : fst p = a -> p = (a, snd p).
Proof. destruct p. simpl. now intros ->. Qed.

Lemma cached_field_row w u t key v :
  cached_field w u t key = Some v ->
  exists row, cached_table w u t = Some row /\ row !! key = Some v.
Proof.
  unfold cached_field. destruct (cached_table w u t) as [row|]; [|discriminate].
  eauto.
Qed.

Lemma Fields_of_cached_fields w u t c l :
  cached_field w u t "current_page" = Some c ->
  cached_field w u t "last_page" = Some l ->
  Fields u t c l w.
Proof.
  unfold cached_field, Fields.
  destruct (cached_table w u t) as [row|]; [|discriminate]. eauto.
Qed.

Lemma cached_fields_of_Fields w u t c l :
  Fields u t c l w ->
  cached_field w u t "current_page" = Some c
  /\ cached_field w u t "last_page" = Some l.
Proof. intros (row & H & Hc & Hl). unfold cached_field. now rewrite H. Qed.

(** ** Clicks that do not move *)

Lemma clamp_back_from_first step last_page :
  step < 0 -> clamp (1 + step) 1 last_page = 1.
Proof. unfold clamp. lia. Qed.

Lemma clamp_forward_from_last step last_page :
  0 < step -> 1 <= last_page -> clamp (last_page + step) 1 last_page = last_page.
Proof. unfold clamp. lia. Qed.

(** C3, as the code has it. When the target page of a click equals the
    current page, [handle_next] returns after the read of the state and
    does nothing else: no update, no fetch, no message.  The read itself
    goes through the cache: for a user already cached the world is left
    as it was; for a user not yet cached it fills the cache entry of that
    user, keeps every stored row and issues read statements only. *)
Theorem same_page_click_only_reads env cls update step w c l :
  let u := effective_user update in
  let t := table_name cls in
  let w1 := snd (get_user_data env u t w) in
  fst (get_user_data env u t w) = Ok (u, t) ->
  cached_field w1 u t "current_page" = Some (PInt c) -> c <> 0 ->
  cached_field w1 u t "last_page" = Some (PInt l) ->
  clamp (c + step) 1 l = c ->
  handle_next env cls update step w = (Ok tt, w1)
  /\ ReadThrough u w w1.
Proof.
  intros u t w1 Hget Hc Hnz Hl Hsame.
  apply pair_of_fst in Hget. fold w1 in Hget.
  destruct (Fields_of_cached_fields w1 u t _ _ Hc Hl) as (row & Hrow & Hc' & Hl').
  split.
  - eapply handle_next_same_page; eassumption.
  - apply get_user_data_read_through.
Qed.

Lemma same_page_click_only_reads_witness :
  let w1 := snd (get_user_data scenario (effective_user alice) (table_name Anime)
                   after_naruto) in
  handle_next scenario Anime alice (-1) after_naruto = (Ok tt, w1)
  /\ ReadThrough (effective_user alice) after_naruto w1.
Proof.
  refine (same_page_click_only_reads scenario Anime alice (-1) after_naruto 1 3
            _ _ _ _ _).
  - vm_compute. reflexivity.
  - vm_compute. reflexivity.
  - lia.
  - vm_compute. reflexivity.
  - vm_compute. reflexivity.
Defined.

(** C3, as stated, fails on the first click after a restart: the user
    is on page 1 of 3 and steps back, the target is page 1 again, and the
    read that precedes the comparison has filled the cache. *)
Lemma same_page_click_counterexample :
  let w := restart after_naruto in
  let w' := snd (handle_next scenario Anime alice (-1) w) in
  db w !! (KEYBOARD_ANIME, 1)
  = Some [SInt 114; SInt 3; SInt 1; SInt 1; SInt 3;
          SText (dumps (JObj [(str "identifier", JStr (str "Naruto"))]))]
  /\ clamp (1 + -1) 1 3 = 1
  /\ fst (handle_next scenario Anime alice (-1) w) = Ok tt
  /\ trace w' = trace (snd (get_user_data scenario 1 KEYBOARD_ANIME w))
  /\ cached_field w 1 KEYBOARD_ANIME "current_page" = None
  /\ cached_field w' 1 KEYBOARD_ANIME "current_page" = Some (PInt 1)
  /\ ~ same_state w w'.
Proof.
  intros w w'.
  assert (cached_field w 1 KEYBOARD_ANIME "current_page" = None) as Hbefore
    by (vm_compute; reflexivity).
  assert (cached_field w' 1 KEYBOARD_ANIME "current_page" = Some (PInt 1))
    as Hafter by (vm_compute; reflexivity).
  split; [vm_compute; reflexivity|].
  split; [reflexivity|].
  split; [vm_compute; reflexivity|].
  split; [vm_compute; reflexivity|].
  split; [exact Hbefore|].
  split; [exact Hafter|].
  clearbody w w'. intros [Hcache _].
  unfold cached_field, cached_table in Hbefore, Hafter.
  rewrite Hcache in Hafter. congruence.
Qed.

(** ** A click on a session that was never initialised *)

(** C7, as the code has it. When the page read for a click is absent
    ([None]; zero and the empty string are taken the same way),
    [handle_next] replies that the command must be run again and does
    nothing after the read of the state: no update of the cache or of the
    database follows.  The read itself goes through the cache: it leaves a
    cached user's world as it was, and for a user not yet cached it
    creates the rows that are missing, with their defaults, and fills the
    cache entry of that user. *)
Theorem uninitialised_click_only_replies env cls update step w v :
  let u := effective_user update in
  let t := table_name cls in
  let w1 := snd (get_user_data env u t w) in
  fst (get_user_data env u t w) = Ok (u, t) ->
  cached_field w1 u t "current_page" = Some v -> truthy v = false ->
  handle_next env cls update step w
  = (match reply_result env (clock w1) with
     | Ok _ => Ok tt
     | Raise e => Raise e
     end,
     called (EvReplyText (str "Please run the command again")
               (effective_message update)) w1)
  /\ same_state w1 (snd (handle_next env cls update step w))
  /\ ReadThrough u w w1.
Proof.
  intros u t w1 Hget Hv Hf.
  apply pair_of_fst in Hget. fold w1 in Hget.
  destruct (cached_field_row w1 u t _ _ Hv) as (row & Hrow & Hv').
  rewrite (handle_next_uninitialised env cls update step w _ w1 row v Hget Hrow Hv' Hf).
  split; [reflexivity|]. split; [split; reflexivity|].
  apply get_user_data_read_through.
Qed.

Lemma uninitialised_click_only_replies_witness :
  let w1 := snd (get_user_data scenario (effective_user alice) (table_name Anime)
                   fresh) in
  handle_next scenario Anime alice 1 fresh
  = (match reply_result scenario (clock w1) with
     | Ok _ => Ok tt
     | Raise e => Raise e
     end,
     called (EvReplyText (str "Please run the command again")
               (effective_message alice)) w1)
  /\ same_state w1 (snd (handle_next scenario Anime alice 1 fresh))
  /\ ReadThrough (effective_user alice) fresh w1.
Proof.
  refine (uninitialised_click_only_replies scenario Anime alice 1 fresh PNone
            _ _ _).
  - vm_compute. reflexivity.
  - vm_compute. reflexivity.
  - reflexivity.
Defined.

(** C7, as stated, fails for the very case it names: after a restart
    with an empty database, the read creates the user's rows and fills the
    cache before the reply is sent. *)
Lemma uninitialised_click_counterexample :
  let w' := snd (handle_next scenario Anime alice 1 fresh) in
  data_cache fresh !! 1 = None
  /\ db fresh !! (KEYBOARD_ANIME, 1) = None
  /\ trace w' !! 12%nat
     = Some (EvReplyText (str "Please run the command again") 3)
  /\ db w' !! (KEYBOARD_ANIME, 1)
     = Some [SNull; SNull; SInt 1; SNull; SNull; SNull]
  /\ cached_field w' 1 KEYBOARD_ANIME "current_page" = Some PNone
  /\ ~ same_state fresh w'.
Proof.
  intros w'.
  assert (db w' !! (KEYBOARD_ANIME, 1)
          = Some [SNull; SNull; SInt 1; SNull; SNull; SNull]) as Hafter
    by (vm_compute; reflexivity).
  split; [reflexivity|].
  split; [reflexivity|].
  split; [vm_compute; reflexivity|].
  split; [exact Hafter|].
  split; [vm_compute; reflexivity|].
  clearbody w'. intros [_ Hdb].
  rewrite Hdb in Hafter. discriminate.
Qed.




(** ** Write-through: the store first, the cache after *)

(** C9. [set_user_data] first reads through the cache, then sends the
    [UPDATE], then commits, and only then copies the changes into the
    cached dictionary.  When it raises, whether in the statement or in
    the commit, the cache is as the read-through left it (as it was, for
    a user already cached): none of the changes is in it, even when the
    statement itself had succeeded.  When it returns, the statement and
    the commit are the last two calls made, the database holds the effect
    of the statement and the cache holds the changes. *)
Theorem set_user_data_store_before_cache env user_id t changes w :
  let w0 := snd (ensure_cached env user_id w) in
  match set_user_data env user_id t changes w with
  | (Raise _, w') =>
      data_cache w' = data_cache w0
      /\ (is_cached w user_id = true -> data_cache w' = data_cache w)
      /\ (fst (ensure_cached env user_id w) = Ok tt ->
          cached_table w0 user_id t <> None ->
          db_unavailable env (clock w0) = false ->
          forall d, update_effect env (clock w0) t user_id changes (db w0) = Some d ->
          db w' = d)
  | (Ok _, w') =>
      db_unavailable env (clock w0) = false
      /\ db_unavailable env (S (clock w0)) = false
      /\ update_effect env (clock w0) t user_id changes (db w0) = Some (db w')
      /\ trace w' = trace w0 ++ [EvExecute (sql_update t changes) user_id; EvCommit]
      /\ data_cache w' = cache_after_changes user_id t changes (data_cache w0)
  end.
Proof.
  intros w0.
  assert (is_cached w user_id = true -> w0 = w) as Hhit.
  { unfold is_cached, w0, ensure_cached.
    destruct (data_cache w !! user_id); [reflexivity | discriminate]. }
  unfold set_user_data, mbind, M_bind.
  destruct (ensure_cached env user_id w) as [[[]|e] w1] eqn:Hread; simpl in w0;
    subst w0.
  2:{ split; [reflexivity|]. split; [intros H; now rewrite (Hhit H)|].
      intros H. discriminate. }
  unfold assert_table, cached_table.
  destruct (data_cache w1 !! user_id) as [ud|] eqn:Hud.
  2:{ split; [reflexivity|]. split; [intros H; now rewrite (Hhit H)|].
      intros _ H. contradiction. }
  destruct (ud !! t) as [row|] eqn:Hrow.
  2:{ split; [reflexivity|]. split; [intros H; now rewrite (Hhit H)|].
      intros _ H. contradiction. }
  unfold cursor_execute.
  destruct (db_unavailable env (clock w1)) eqn:Hdown1.
  { split; [reflexivity|]. split; [intros H; now rewrite (Hhit H)|].
    intros _ _ H. discriminate. }
  destruct (update_effect env (clock w1) t user_id changes (db w1)) as [d|] eqn:Heff.
  2:{ split; [reflexivity|]. split; [intros H; now rewrite (Hhit H)|].
      intros _ _ _ d H. discriminate. }
  unfold connection_commit. simpl.
  destruct (db_unavailable env (S (clock w1))) eqn:Hdown2.
  { split; [reflexivity|]. split; [intros H; now rewrite (Hhit H)|].
    intros _ _ _ d' [= <-]. reflexivity. }
  erewrite for_each_setitem_hit by (simpl; eassumption).
  assert (changes <> []) as Hne.
  { intros ->. unfold update_effect in Heff. discriminate. }
  destruct changes as [|kv changes]; [contradiction|].
  repeat split; try reflexivity.
  - simpl. now rewrite <- app_assoc.
  - simpl. unfold cache_after_changes. now rewrite Hud, Hrow.
Qed.

Lemma set_user_data_store_before_cache_witness :
  let change := [("current_page", PInt 2)] in
  let commit_fails := scenario_db_down_at 18 in
  let w' := snd (set_user_data commit_fails 1 KEYBOARD_ANIME change after_naruto) in
  fst (set_user_data commit_fails 1 KEYBOARD_ANIME change after_naruto)
  = Raise DatabaseError
  /\ data_cache w' = data_cache after_naruto
  /\ cached_field after_naruto 1 KEYBOARD_ANIME "current_page" = Some (PInt 1)
  /\ db w' !! (KEYBOARD_ANIME, 1)
     = Some [SInt 114; SInt 3; SInt 1; SInt 2; SInt 3;
             SText (dumps (JObj [(str "identifier", JStr (str "Naruto"))]))].
Proof.
  intros change commit_fails w'.
  assert (fst (set_user_data commit_fails 1 KEYBOARD_ANIME change after_naruto)
          = Raise DatabaseError) as Hraise by (vm_compute; reflexivity).
  assert (is_cached after_naruto 1 = true) as Hcached by (vm_compute; reflexivity).
  pose proof (set_user_data_store_before_cache commit_fails 1 KEYBOARD_ANIME
                change after_naruto) as H.
  cbv zeta in H. rewrite (pair_of_fst _ _ Hraise) in H.
  destruct H as (_ & Hsame & _).
  split; [exact Hraise|]. split; [exact (Hsame Hcached)|].
  split; vm_compute; reflexivity.
Defined.

(** ** The reference to the displayed message *)

(** The deletion and the clearing, for a user who is cached. *)
Lemma generate_markup_clears_reference
    env cls current_page last_page update w mid st :
  let u := effective_user update in
  let t := table_name cls in
  let run := generate_markup env cls current_page last_page update w in
  let kb := keyboard cls st (clamp current_page 1 last_page) last_page in
  cached_field w u t "message_id" = Some mid -> truthy mid = true ->
  cached_field w u t "step" = Some st ->
  (exists rest,
      trace (snd run)
      = trace w ++ EvDeleteMessage (effective_chat update) mid
                :: EvExecute (clear_statement t) u :: rest)
  /\ (db_unavailable env (S (clock w)) = false ->
      db_unavailable env (S (S (clock w))) = false ->
      (exists v, cached_field (snd run) u t "message_id" = Some v
                 /\ forall z, v <> PInt z)
      /\ (forall stored, db w !! (t, u) = Some stored ->
                         db (snd run) !! (t, u) = Some (<[0%nat := SNull]> stored))
      /\ fst run = match delete_message_result env (clock w) with
                   | Ok _ => Ok kb
                   | Raise e => if is_BadRequest e then Ok kb else Raise e
                   end).
Proof.
  intros u t run kb Hmid Htruthy Hst. subst u t run kb.
  destruct (cached_field_row w _ _ _ _ Hmid) as (row & Hrow & Hmid').
  destruct (cached_field_row w _ _ _ _ Hst) as (row' & Hrow' & Hst').
  rewrite Hrow in Hrow'. injection Hrow' as <-.
  assert (exists ud, data_cache w !! effective_user update = Some ud
                     /\ ud !! table_name cls = Some row)
    as (ud & Hud & Hudt).
  { unfold cached_table in Hrow.
    destruct (data_cache w !! effective_user update) as [ud|]; [|discriminate].
    eauto. }
  rewrite (generate_markup_run env cls current_page last_page update w row mid st
             Hrow Hmid' Htruthy Hst').
  cbv zeta.
  remember (called (EvDeleteMessage (effective_chat update) mid) w) as w1 eqn:Hw1.
  assert (clock w1 = S (clock w)) as Hc1 by now subst w1.
  assert (db w1 = db w) as Hd1 by now subst w1.
  assert (data_cache w1 = data_cache w) as Hk1 by now subst w1.
  assert (trace w1 = trace w ++ [EvDeleteMessage (effective_chat update) mid])
    as Ht1 by now subst w1.
  clear Hw1.
  rewrite (set_user_data_run env _ _ _ w1 ud row) by (rewrite ?Hk1; assumption).
  cbv zeta. rewrite Hc1, Hd1, Hk1, update_effect_clear.
  fold (clear_statement (table_name cls)).
  destruct (db_unavailable env (S (clock w))) eqn:Hdown1.
  { split; [|discriminate]. simpl. rewrite Ht1, <- app_assoc. simpl. eauto. }
  destruct (db_unavailable env (S (S (clock w)))) eqn:Hdown2.
  { split; [|discriminate]. simpl. rewrite Ht1, <- !app_assoc. simpl. eauto. }
  split.
  { simpl. rewrite Ht1, <- !app_assoc. simpl. eauto. }
  intros _ _. split; [|split].
  - exists (PStr (str "NULL")). split; [|discriminate].
    unfold cached_field, cached_table. simpl.
    rewrite lookup_insert_eq. rewrite lookup_insert_eq.
    unfold update_row. simpl. apply lookup_insert_eq.
  - intros stored Hstored. simpl. rewrite Hstored. apply lookup_insert_eq.
  - reflexivity.
Qed.

(** C5, as the code has it. When the row read by [generate_markup]
    holds a reference to a displayed message, [generate_markup] first
    attempts to delete that message and then, in a [finally] block, sends
    the statement that clears the reference.  The clearing runs however
    the deletion ends.  When the database is reachable for the statement
    and for its commit, the cached field no longer holds a message id, the
    stored row holds [NULL], and the outcome is that of the deletion, a
    [BadRequest] being swallowed. *)
Theorem message_reference_cleared_after_delete
    env cls current_page last_page update w mid st :
  let u := effective_user update in
  let t := table_name cls in
  let w1 := snd (get_user_data env u t w) in
  let run := generate_markup env cls current_page last_page update w in
  let kb := keyboard cls st (clamp current_page 1 last_page) last_page in
  fst (get_user_data env u t w) = Ok (u, t) ->
  cached_field w1 u t "message_id" = Some mid -> truthy mid = true ->
  cached_field w1 u t "step" = Some st ->
  (exists rest,
      trace (snd run)
      = trace w1 ++ EvDeleteMessage (effective_chat update) mid
                 :: EvExecute (clear_statement t) u :: rest)
  /\ (db_unavailable env (S (clock w1)) = false ->
      db_unavailable env (S (S (clock w1))) = false ->
      (exists v, cached_field (snd run) u t "message_id" = Some v
                 /\ forall z, v <> PInt z)
      /\ (forall stored, db w1 !! (t, u) = Some stored ->
                         db (snd run) !! (t, u) = Some (<[0%nat := SNull]> stored))
      /\ fst run = match delete_message_result env (clock w1) with
                   | Ok _ => Ok kb
                   | Raise e => if is_BadRequest e then Ok kb else Raise e
                   end).
Proof.
  intros u t w1 run kb Hget Hmid Htruthy Hst.
  apply pair_of_fst in Hget. fold w1 in Hget. subst run.
  rewrite (generate_markup_after_read env cls current_page last_page update w
             _ w1 Hget).
  exact (generate_markup_clears_reference env cls current_page last_page update
           w1 mid st Hmid Htruthy Hst).
Qed.

Lemma message_reference_cleared_after_delete_witness :
  let u := effective_user alice in
  let t := table_name Anime in
  let w1 := snd (get_user_data scenario u t after_naruto) in
  let run := generate_markup scenario Anime 2 3 alice after_naruto in
  let kb := keyboard Anime (PInt 1) (clamp 2 1 3) 3 in
  (exists rest,
      trace (snd run)
      = trace w1 ++ EvDeleteMessage (effective_chat alice) (PInt 114)
                 :: EvExecute (clear_statement t) u :: rest)
  /\ (db_unavailable scenario (S (clock w1)) = false ->
      db_unavailable scenario (S (S (clock w1))) = false ->
      (exists v, cached_field (snd run) u t "message_id" = Some v
                 /\ forall z, v <> PInt z)
      /\ (forall stored, db w1 !! (t, u) = Some stored ->
                         db (snd run) !! (t, u) = Some (<[0%nat := SNull]> stored))
      /\ fst run = match delete_message_result scenario (clock w1) with
                   | Ok _ => Ok kb
                   | Raise e => if is_BadRequest e then Ok kb else Raise e
                   end).
Proof.
  refine (message_reference_cleared_after_delete scenario Anime 2 3 alice
            after_naruto (PInt 114) (PInt 1) _ _ _ _).
  - vm_compute. reflexivity.
  - vm_compute. reflexivity.
  - reflexivity.
  - vm_compute. reflexivity.
Defined.

(** C5, as stated, fails: with message 114 on display, the events of
    [generate_markup] are the deletion, then the clearing statement, then
    its commit. *)
Lemma clear_before_delete_counterexample :
  let w' := snd (generate_markup scenario Anime 2 3 alice after_naruto) in
  let evs := drop (length (trace after_naruto)) (trace w') in
  cached_field after_naruto 1 KEYBOARD_ANIME "message_id" = Some (PInt 114)
  /\ evs = [EvDeleteMessage 2 (PInt 114);
            EvExecute (clear_statement KEYBOARD_ANIME) 1;
            EvCommit]
  /\ ~ cleared_before_delete KEYBOARD_ANIME 1 evs.
Proof.
  intros w' evs.
  assert (evs = [EvDeleteMessage 2 (PInt 114);
                 EvExecute (clear_statement KEYBOARD_ANIME) 1;
                 EvCommit]) as Hevs by (vm_compute; reflexivity).
  split; [vm_compute; reflexivity|]. split; [exact Hevs|].
  clearbody evs. subst evs. intros H.
  destruct (H 0%nat 2 (PInt 114) eq_refl) as (j & Hj & _). lia.
Qed.

(** ** Numeric identifiers *)




(** ** What the cache holds and what the store holds *)

(** C4 fails on the code. After [/anime Naruto] the cached [kwargs]
    is the quoted text that was spliced into the statement while the
    stored one is the text the engine read from it; and once the message
    reference is cleared the cache holds the four letters [NULL] while the
    store holds no value. *)
Theorem cache_diverges_from_store :
  let cleared := snd (generate_markup scenario Anime 2 3 alice after_naruto) in
  let json := dumps (JObj [(str "identifier", JStr (str "Naruto"))]) in
  fst (handle_first scenario Anime alice [str "Naruto"] fresh) = Ok tt
  /\ cached_field after_naruto 1 KEYBOARD_ANIME "kwargs"
     = Some (PStr (apostrophe :: json ++ [apostrophe]))
  /\ db after_naruto !! (KEYBOARD_ANIME, 1)
     = Some [SInt 114; SInt 3; SInt 1; SInt 1; SInt 3; SText json]
  /\ ~ cache_mirrors_store 1 KEYBOARD_ANIME after_naruto
  /\ fst (generate_markup scenario Anime 2 3 alice after_naruto)
     = Ok (keyboard Anime (PInt 1) 2 3)
  /\ cached_field cleared 1 KEYBOARD_ANIME "message_id" = Some (PStr (str "NULL"))
  /\ db cleared !! (KEYBOARD_ANIME, 1)
     = Some [SNull; SInt 3; SInt 1; SInt 1; SInt 3; SText json]
  /\ ~ cache_mirrors_store 1 KEYBOARD_ANIME cleared.
Proof.
  intros cleared json.
  assert (cached_field after_naruto 1 KEYBOARD_ANIME "kwargs"
          = Some (PStr (apostrophe :: json ++ [apostrophe]))) as Hk
    by (vm_compute; reflexivity).
  assert (db after_naruto !! (KEYBOARD_ANIME, 1)
          = Some [SInt 114; SInt 3; SInt 1; SInt 1; SInt 3; SText json]) as Hs
    by (vm_compute; reflexivity).
  assert (cached_field cleared 1 KEYBOARD_ANIME "message_id"
          = Some (PStr (str "NULL"))) as Hm by (vm_compute; reflexivity).
  assert (db cleared !! (KEYBOARD_ANIME, 1)
          = Some [SNull; SInt 3; SInt 1; SInt 1; SInt 3; SText json]) as Hc
    by (vm_compute; reflexivity).
  split; [vm_compute; reflexivity|].
  split; [exact Hk|]. split; [exact Hs|]. split.
  { revert Hk Hs. generalize after_naruto. intros w Hk Hs Hmirror.
    destruct (cached_field_row w _ _ _ _ Hk) as (row & Hrow & Hkw).
    pose proof (Hmirror row _ Hrow Hs 5%nat "kwargs" eq_refl) as H.
    rewrite Hkw in H. simpl in H. discriminate. }
  split; [vm_compute; reflexivity|].
  split; [exact Hm|]. split; [exact Hc|].
  clearbody cleared. intros Hmirror.
  destruct (cached_field_row cleared _ _ _ _ Hm) as (row & Hrow & Hmid).
  pose proof (Hmirror row _ Hrow Hc 0%nat "message_id" eq_refl) as H.
  rewrite Hmid in H. discriminate.
Qed.

(** ** Serialisation of the query parameters *)

Lemma hex_value_hex_digit (n : N) :
  (n < 16)%N -> hex_value (hex_digit n) = Some n.
Proof.
  intros H.
  destruct n as [|p]; [reflexivity|].
  do 4 (destruct p as [p|p|]; try reflexivity); lia.
Qed.

Lemma parse_hex4_hex4 (c : N) (rest : pystr) :
  (c < 65536)%N -> parse_hex4 (hex4 c ++ rest) = Some (c, rest).
Proof.
  intros H. unfold hex4, parse_hex4. simpl.
  rewrite !hex_value_hex_digit by (apply N.mod_lt; discriminate).
  do 2 f_equal.
  assert (c / 16 / 16 = c / 256)%N as E1 by now rewrite N.Div0.div_div.
  assert (c / 256 / 16 = c / 4096)%N as E2 by now rewrite N.Div0.div_div.
  pose proof (N.div_mod c 16 ltac:(discriminate)) as H0.
  pose proof (N.div_mod (c / 16) 16 ltac:(discriminate)) as H1.
  pose proof (N.div_mod (c / 256) 16 ltac:(discriminate)) as H2.
  rewrite E1 in H1. rewrite E2 in H2.
  assert (c / 4096 < 16)%N by (apply N.Div0.div_lt_upper_bound; lia).
  rewrite (N.mod_small (c / 4096) 16) by assumption.
  lia.
Qed.

Lemma scan_string_escape (c : N) (tail : pystr) (fuel : nat) :
  scalar_value c ->
  scan_string (S fuel) (escape_char c ++ tail) = prepend c (scan_string fuel tail).
Proof.
  intros [Hmax Hsur]. unfold escape_char.
  destruct (N.eqb_spec c 34) as [->|H34]; [reflexivity|].
  destruct (N.eqb_spec c 92) as [->|H92]; [reflexivity|].
  destruct (N.eqb_spec c 10) as [->|H10]; [reflexivity|].
  destruct (N.eqb_spec c 13) as [->|H13]; [reflexivity|].
  destruct (N.eqb_spec c 9) as [->|H9]; [reflexivity|].
  destruct (N.eqb_spec c 8) as [->|H8]; [reflexivity|].
  destruct (N.eqb_spec c 12) as [->|H12]; [reflexivity|].
  destruct (N.leb_spec 32 c) as [Hge|Hlt]; simpl andb.
  - destruct (N.leb_spec c 126) as [Hle|Hgt].
    + cbn [app scan_string].
      destruct (N.eqb_spec c 34); [contradiction|].
      destruct (N.eqb_spec c 92); [contradiction|].
      destruct (N.ltb_spec c 32); [lia|]. reflexivity.
    + destruct (N.ltb_spec c 65536) as [Hbmp|Hastral].
      * change (scan_string (S fuel) (92%N :: 117%N :: hex4 c ++ tail)
                = prepend c (scan_string fuel tail)).
        cbn [scan_string]. change (92 =? 34)%N with false.
        change (92 =? 92)%N with true. change (117 =? 117)%N with true.
        cbv iota. rewrite parse_hex4_hex4 by assumption.
        unfold is_high_surrogate.
        destruct (N.leb_spec 55296 c); destruct (N.leb_spec c 56319);
          try reflexivity. lia.
      * set (v := (c - 65536)%N).
        assert (v < 1048576)%N by lia.
        assert (v / 1024 < 1024)%N by (apply N.Div0.div_lt_upper_bound; lia).
        assert (v mod 1024 < 1024)%N by (apply N.mod_lt; discriminate).
        pose proof (N.div_mod v 1024 ltac:(discriminate)) as Hv.
        assert (c = 65536 + v)%N as Hc by lia.
        change (scan_string (S fuel)
                  (92%N :: 117%N :: hex4 (55296 + v / 1024)
                     ++ (92%N :: 117%N :: hex4 (56320 + v mod 1024) ++ tail))
                = prepend c (scan_string fuel tail)).
        set (q := (v / 1024)%N) in *. set (m := (v mod 1024)%N) in *.
        clearbody q m. clearbody v.
        cbn [scan_string]. change (92 =? 34)%N with false.
        change (92 =? 92)%N with true. change (117 =? 117)%N with true.
        cbv iota. rewrite parse_hex4_hex4 by lia.
        unfold is_high_surrogate.
        destruct (N.leb_spec 55296 (55296 + q)); [|lia].
        destruct (N.leb_spec (55296 + q) 56319); [|lia].
        cbn [andb]. change (92 =? 92)%N with true. change (117 =? 117)%N with true.
        cbn [andb]. rewrite parse_hex4_hex4 by lia.
        unfold is_low_surrogate.
        destruct (N.leb_spec 56320 (56320 + m)); [|lia].
        destruct (N.leb_spec (56320 + m) 57343); [|lia].
        cbn [andb]. f_equal. lia.
  - destruct (N.ltb_spec c 65536) as [Hbmp|]; [|lia].
    change (scan_string (S fuel) (92%N :: 117%N :: hex4 c ++ tail)
            = prepend c (scan_string fuel tail)).
    cbn [scan_string]. change (92 =? 34)%N with false.
    change (92 =? 92)%N with true. change (117 =? 117)%N with true.
    cbv iota. rewrite parse_hex4_hex4 by assumption.
    unfold is_high_surrogate.
    destruct (N.leb_spec 55296 c); [lia|]. reflexivity.
Qed.

Lemma escape_char_nonempty c : (1 <= length (escape_char c))%nat.
Proof.
  unfold escape_char.
  repeat match goal with |- context [if ?b then _ else _] => destruct b end;
    simpl; lia.
Qed.

Lemma length_escaped s :
  (length s <= length (concat (map escape_char s)))%nat.
Proof.
  induction s as [|c s IH]; simpl; [lia|].
  rewrite length_app. pose proof (escape_char_nonempty c). lia.
Qed.

Lemma scan_string_escaped s : forall fuel tail,
  Forall scalar_value s -> (length s < fuel)%nat ->
  scan_string fuel (concat (map escape_char s) ++ 34%N :: tail) = Some (s, tail).
Proof.
  induction s as [|c s IH]; intros fuel tail Hs Hfuel.
  - destruct fuel; [simpl in Hfuel; lia|]. reflexivity.
  - destruct fuel as [|fuel]; [simpl in Hfuel; lia|].
    inversion Hs as [|? ? Hc Hs']; subst. simpl concat.
    rewrite <- app_assoc, scan_string_escape by assumption.
    rewrite IH; [reflexivity | assumption | simpl in Hfuel; lia].
Qed.

Lemma parse_value_json_string s fuel tail :
  Forall scalar_value s ->
  parse_value (S fuel) (json_string s ++ tail) = Some (JStr s, tail).
Proof.
  intros Hs. unfold json_string. simpl app. rewrite <- app_assoc. simpl app.
  cbn [parse_value]. change (34 =? 34)%N with true. cbv iota.
  rewrite scan_string_escaped; [reflexivity | assumption |].
  rewrite length_app. pose proof (length_escaped s). lia.
Qed.

Lemma skip_ws_json_string s tail :
  skip_ws (json_string s ++ tail) = json_string s ++ tail.
Proof. reflexivity. Qed.

(** An object with one member whose value is a string. *)
Lemma parse_value_object key s fuel :
  Forall scalar_value key -> Forall scalar_value s ->
  parse_value (S (S (S fuel)))
    (123%N :: json_string key ++ [58%N; 32%N] ++ json_string s ++ [125%N])
  = Some (JObj [(key, JStr s)], []).
Proof.
  intros Hkey Hs.
  set (tail := json_string s ++ [125%N]).
  assert (forall n, parse_value (S n) tail = Some (JStr s, [125%N])) as Htail
    by (intros n; now apply parse_value_json_string).
  assert (skip_ws tail = tail) as Hws by apply skip_ws_json_string.
  clearbody tail.
  replace (123%N :: json_string key ++ [58%N; 32%N] ++ tail)
    with (123%N :: 34%N :: (concat (map escape_char key)
                              ++ 34%N :: 58%N :: 32%N :: tail))
    by (unfold json_string; simpl; now rewrite <- app_assoc).
  cbn [parse_value].
  change (123 =? 34)%N with false. change (123 =? 123)%N with true. cbv iota.
  cbn [skip_ws]. change (is_json_ws 34) with false. cbv iota.
  change (34 =? 125)%N with false. cbv iota.
  cbn [parse_members]. change (34 =? 34)%N with true. cbv iota.
  rewrite scan_string_escaped;
    [| assumption | rewrite length_app; pose proof (length_escaped key); lia].
  cbn [skip_ws]. change (is_json_ws 58) with false. cbv iota.
  change (58 =? 58)%N with true. cbv iota.
  cbn [skip_ws]. change (is_json_ws 32) with true. cbv iota.
  rewrite Hws, Htail.
  reflexivity.
Qed.

Lemma loads_dumps_identifier s :
  Forall scalar_value s ->
  loads (dumps (JObj [(str "identifier", JStr s)]))
  = Ok (JObj [(str "identifier", JStr s)]).
Proof.
  intros Hs. unfold loads.
  change (dumps (JObj [(str "identifier", JStr s)]))
    with (123%N :: json_string (str "identifier")
            ++ [58%N; 32%N] ++ json_string s ++ [125%N]).
  change (skip_ws (123%N :: ?x)) with (123%N :: x).
  assert (Forall scalar_value (str "identifier")) as Hkey.
  { repeat constructor; vm_compute; intuition discriminate. }
  set (text := _ ++ _ ++ _).
  assert (exists n, length (123%N :: text) = S (S n)) as [n ->].
  { subst text. unfold json_string. simpl. eauto. }
  subst text. rewrite parse_value_object by assumption. reflexivity.
Qed.

(** The text [dumps] writes for the parameters of a query. *)
Lemma dumps_identifier_shape s :
  exists body,
    dumps (JObj [(str "identifier", JStr s)]) = 123%N :: body ++ [125%N].
Proof.
  eexists. change (dumps (JObj [(str "identifier", JStr s)]))
    with (123%N :: (json_string (str "identifier")
                      ++ [58%N; 32%N] ++ json_string s) ++ [125%N]).
  reflexivity.
Qed.

Lemma lstrip_stop p c s : p c = false -> lstrip p (c :: s) = c :: s.
Proof. intros H. simpl. now rewrite H. Qed.

Lemma rstrip_stop p s c : p c = false -> rstrip p (s ++ [c]) = s ++ [c].
Proof.
  intros H. unfold rstrip. rewrite rev_app_distr. simpl. rewrite H. simpl.
  now rewrite rev_involutive.
Qed.

Lemma rstrip_skip p s c : p c = true -> rstrip p (s ++ [c]) = rstrip p s.
Proof. intros H. unfold rstrip. rewrite rev_app_distr. simpl. now rewrite H. Qed.

(** Stripping apostrophes from a text in braces, quoted or not, gives the
    text in braces. *)
Lemma strip_apostrophes_braces body :
  let text := 123%N :: body ++ [125%N] in
  strip_chars [apostrophe] (apostrophe :: text ++ [apostrophe]) = text
  /\ strip_chars [apostrophe] text = text.
Proof.
  intros text. unfold strip_chars.
  set (p := fun c : N => existsb (N.eqb c) [apostrophe]).
  assert (rstrip p text = text) as Hr
    by (unfold text; rewrite app_comm_cons; now apply rstrip_stop).
  split.
  - change (lstrip p (apostrophe :: text ++ [apostrophe]))
      with (text ++ [apostrophe]).
    now rewrite rstrip_skip.
  - change (lstrip p text) with text. exact Hr.
Qed.

Lemma keyword_call_identifier s n :
  keyword_call (dict_set (str "page") (JInt n)
                  (dict_of_members [(str "identifier", JStr s)]))
  = Ok (positional_call s n).
Proof. reflexivity. Qed.


Lemma hex_digit_plain n : (n < 16)%N -> plain_char (hex_digit n).
Proof.
  intros H. destruct n as [|q]; [split; [discriminate|reflexivity]|].
  do 4 (destruct q as [q|q|]; try (split; [discriminate|reflexivity])); lia.
Qed.

Lemma hex4_plain c : Forall plain_char (hex4 c).
Proof.
  unfold hex4. repeat constructor; apply hex_digit_plain, N.mod_lt; discriminate.
Qed.

Lemma escape_char_plain c : c <> apostrophe -> Forall plain_char (escape_char c).
Proof.
  intros Hc. unfold escape_char.
  assert (plain_char 92) as P92 by (split; [discriminate|reflexivity]).
  assert (plain_char 117) as P117 by (split; [discriminate|reflexivity]).
  repeat match goal with
         | |- context [if (c =? ?k)%N then _ else _] =>
             destruct (N.eqb_spec c k);
             [repeat constructor; try discriminate; reflexivity|]
         end.
  assert (forall x, Forall plain_char (92%N :: 117%N :: hex4 x)) as Hu.
  { intros x. constructor; [exact P92|]. constructor; [exact P117|].
    apply hex4_plain. }
  destruct (N.leb_spec 32 c); simpl andb.
  - destruct (N.leb_spec c 126).
    + constructor; [|constructor]. split; [assumption|]. unfold sql_char.
      destruct (N.ltb_spec 0 c); [|lia]. destruct (N.ltb_spec c 55296); [|lia].
      reflexivity.
    + destruct (c <? 65536)%N; [apply Hu|].
      apply Forall_app. split; apply Hu.
  - destruct (c <? 65536)%N; [apply Hu|].
    apply Forall_app. split; apply Hu.
Qed.

Lemma json_string_plain s :
  Forall (fun c => c <> apostrophe) s -> Forall plain_char (json_string s).
Proof.
  intros Hs. unfold json_string. constructor; [split; [discriminate|reflexivity]|].
  apply Forall_app. split; [|repeat constructor; discriminate].
  induction Hs as [|c s Hc Hs IH]; simpl; [constructor|].
  apply Forall_app. split; [now apply escape_char_plain | exact IH].
Qed.

Lemma sql_unquote_plain body : Forall plain_char body -> sql_unquote body = Some body.
Proof.
  induction 1 as [|c body [Hc Hsql] _ IH]; [reflexivity|]. simpl.
  destruct (N.eqb_spec c apostrophe); [contradiction|].
  now rewrite Hsql, IH.
Qed.

Lemma sql_string_literal_quoted body :
  sql_string_literal (apostrophe :: body ++ [apostrophe]) = sql_unquote body.
Proof.
  unfold sql_string_literal. change (apostrophe =? apostrophe)%N with true.
  cbv iota. rewrite rev_app_distr. simpl.
  now rewrite rev_involutive.
Qed.

Lemma sql_literal_quoted_kwargs s :
  Forall (fun c => c <> apostrophe) s ->
  sql_literal (quoted_kwargs s)
  = Some (SText (dumps (JObj [(str "identifier", JStr s)]))).
Proof.
  intros Hs.
  assert (Forall plain_char (dumps (JObj [(str "identifier", JStr s)]))) as Hplain.
  { change (dumps (JObj [(str "identifier", JStr s)]))
      with (123%N :: json_string (str "identifier")
              ++ [58%N; 32%N] ++ json_string s ++ [125%N]).
    constructor; [split; [discriminate|reflexivity]|].
    apply Forall_app. split.
    { apply json_string_plain. repeat constructor; discriminate. }
    apply Forall_app. split; [repeat constructor; discriminate|].
    apply Forall_app. split; [now apply json_string_plain|].
    repeat constructor; discriminate. }
  destruct (dumps_identifier_shape s) as [body Hshape].
  unfold quoted_kwargs. rewrite Hshape in *.
  unfold sql_literal.
  assert (is_null_keyword (apostrophe :: (123%N :: body ++ [125%N]) ++ [apostrophe])
          = false) as ->.
  { simpl. destruct (body ++ [125%N]) as [|a [|b [|c t]]]; reflexivity. }
  rewrite sql_string_literal_quoted, sql_unquote_plain by assumption.
  reflexivity.
Qed.

(** For an identifier made of scalar values, the parameters written at
    the commit are read back as they were, from the cache (quoted) as from
    the store (unquoted); and the store holds the text that was written as
    long as the identifier has no apostrophe. *)
Lemma identifier_round_trip s n :
  Forall scalar_value s ->
  let json := dumps (JObj [(str "identifier", JStr s)]) in
  strip_chars [apostrophe] (quoted_kwargs s) = json
  /\ strip_chars [apostrophe] json = json
  /\ loads json = Ok (JObj [(str "identifier", JStr s)])
  /\ keyword_call (dict_set (str "page") (JInt n)
                     (dict_of_members [(str "identifier", JStr s)]))
     = Ok (positional_call s n)
  /\ (Forall (fun c => c <> apostrophe) s ->
      sql_literal (quoted_kwargs s) = Some (SText json)).
Proof.
  intros Hs json. subst json.
  destruct (dumps_identifier_shape s) as [body Hshape].
  destruct (strip_apostrophes_braces body) as [Hquoted Hbare].
  cbv zeta in Hquoted, Hbare. rewrite <- Hshape in Hquoted, Hbare.
  split; [exact Hquoted|]. split; [exact Hbare|].
  split; [now apply loads_dumps_identifier|].
  split; [apply keyword_call_identifier|].
  apply sql_literal_quoted_kwargs.
Qed.

(** ** Query parameters through the store *)

(** C6 fails on the code. The identifier [a''b] is stored as [a'b]: the
    engine reads the doubled apostrophe inside the quoted text as one.
    The click that follows a restart finds the stored text and searches
    for [a'b].  With a single apostrophe, as in [JoJo's], the statement of
    the commit is not well formed; when the engine rejects it the reply
    has been sent and no parameter is stored. *)
Theorem apostrophes_do_not_round_trip :
  let restarted := restart after_quotes in
  let clicked := snd (handle_next scenario Anime alice 1 restarted) in
  let failed := handle_first scenario Anime alice [str "JoJo's"] fresh in
  fst (handle_first scenario Anime alice [str "a''b"] fresh) = Ok tt
  /\ trace after_quotes !! 0%nat
     = Some (EvSearch Anime (str "a''b") (JInt 1) (JInt 1))
  /\ db after_quotes !! (KEYBOARD_ANIME, 1)
     = Some [SInt 114; SInt 3; SInt 1; SInt 1; SInt 3;
             SText (dumps (JObj [(str "identifier", JStr (str "a'b"))]))]
  /\ fst (handle_next scenario Anime alice 1 restarted) = Ok tt
  /\ trace clicked !! 29%nat
     = Some (EvSearch Anime (str "a'b") (JInt 1) (JInt 2))
  /\ sql_literal (quoted_kwargs (str "JoJo's")) = None
  /\ fst failed = Raise DatabaseError
  /\ cached_field (snd failed) 1 KEYBOARD_ANIME "kwargs" = Some PNone
  /\ db (snd failed) !! (KEYBOARD_ANIME, 1)
     = Some [SNull; SNull; SInt 1; SNull; SNull; SNull].
Proof.
  intros restarted clicked failed.
  repeat (split; [vm_compute; reflexivity|]).
  vm_compute. reflexivity.
Qed.

(** * The code around the pagination state *)

(** ** [chunkify_text] and [clamp] at their bounds *)

Lemma range_len_ceil (n k : Z) :
  0 < k -> 0 <= n -> range_len 0 n k = (n + k - 1) / k.
Proof.
  intros Hk Hn. unfold range_len.
  destruct (Z.ltb_spec 0 k); [|lia].
  destruct (Z.ltb_spec 0 n).
  - replace (n + k - 1) with (n - 0 - 1 + 1 * k) by lia.
    rewrite Z.div_add by lia. reflexivity.
  - replace n with 0 by lia. simpl. symmetry. apply Z.div_small. lia.
Qed.

(** X1. For a positive chunk length the number of chunks is the length of
    the text divided by the chunk length, rounded up; no chunk is empty,
    and every chunk but the last has exactly [chunk_length] elements. *)
Theorem chunkify_text_sizes {A} (text : list A) (chunk_length : Z) :
  0 < chunk_length ->
  exists chunks,
    chunkify_text text chunk_length = Ok chunks
    /\ Z.of_nat (length chunks)
       = (Z.of_nat (length text) + chunk_length - 1) / chunk_length
    /\ forall i chunk, chunks !! i = Some chunk ->
         chunk <> []
         /\ ((S i < length chunks)%nat -> Z.of_nat (length chunk) = chunk_length).
Proof.
  intros Hk. unfold chunkify_text, py_range.
  destruct (Z.eqb_spec chunk_length 0) as [Hz|Hnz]; [lia|].
  eexists. split; [reflexivity|].
  rewrite fold_append_map. simpl.
  set (n := Z.of_nat (length text)).
  destruct (range_len_cover n chunk_length Hk ltac:(lia)) as (Hm0 & Hcov & Hlast).
  pose proof (range_len_ceil n chunk_length Hk ltac:(lia)) as Hceil.
  set (m := range_len 0 n chunk_length) in *.
  rewrite !length_map, length_seq.
  split; [lia|].
  intros i chunk Hi.
  rewrite list_lookup_fmap in Hi.
  rewrite list_lookup_fmap in Hi.
  destruct (seq 0 (Z.to_nat m) !! i) as [j|] eqn:Hj; [|discriminate].
  apply lookup_seq in Hj as [-> Hlt]. simpl in Hi. injection Hi as <-.
  change (0 + Z.of_nat i * chunk_length) with (Z.of_nat i * chunk_length).
  assert (m <> 0) as Hm by lia. specialize (Hlast Hm).
  assert (Z.of_nat i * chunk_length < n) as Hstart by nia.
  destruct (Z.lt_ge_cases (Z.of_nat i * chunk_length + chunk_length) n) as [Hin|Hout].
  - rewrite chunk_at_inner by lia.
    assert (length (take (Z.to_nat chunk_length)
                      (drop (Z.to_nat (Z.of_nat i * chunk_length)) text))
            = Z.to_nat chunk_length) as Hlen.
    { rewrite length_take, length_drop. lia. }
    split; [|lia].
    intros E. rewrite E in Hlen. simpl in Hlen. lia.
  - rewrite chunk_at_last by lia.
    assert (length (drop (Z.to_nat (Z.of_nat i * chunk_length)) text)
            = Z.to_nat (n - Z.of_nat i * chunk_length)) as Hlen.
    { rewrite length_drop. lia. }
    split.
    + intros E. rewrite E in Hlen. simpl in Hlen. lia.
    + intros Hnl. exfalso. assert (Z.of_nat (S i) <= m - 1) by lia. nia.
Qed.

Lemma chunkify_text_sizes_witness :
  exists chunks,
    chunkify_text (str "pagination") 4 = Ok chunks
    /\ Z.of_nat (length chunks) = (Z.of_nat (length (str "pagination")) + 4 - 1) / 4
    /\ forall i chunk, chunks !! i = Some chunk ->
         chunk <> []
         /\ ((S i < length chunks)%nat -> Z.of_nat (length chunk) = 4).
Proof. apply (chunkify_text_sizes (str "pagination") 4). lia. Defined.

(** X2. A chunk length of zero makes [range] raise [ValueError]; a
    negative one gives no chunk at all, whatever the text. *)
Theorem chunkify_text_nonpositive_length {A} (text : list A) (chunk_length : Z) :
  chunk_length <= 0 ->
  chunkify_text text chunk_length
  = if chunk_length =? 0 then Raise ValueError else Ok [].
Proof.
  intros Hk. unfold chunkify_text, py_range.
  destruct (Z.eqb_spec chunk_length 0) as [Hz|Hnz]; [reflexivity|].
  unfold range_len.
  destruct (Z.ltb_spec 0 chunk_length); [lia|].
  destruct (Z.ltb_spec (Z.of_nat (length text)) 0); [lia|].
  reflexivity.
Qed.

Lemma chunkify_text_nonpositive_length_witness :
  chunkify_text (str "pagination") (-4) = Ok [].
Proof. apply (chunkify_text_nonpositive_length (str "pagination") (-4)). lia. Defined.

(** X3. With the current page in range, the page a click aims at is the
    current page in three cases only: the step is zero, the step points
    back from the first page, or it points forward from the last. *)
Theorem click_stays_iff (current_page last_page step : Z) :
  1 <= current_page <= last_page ->
  clamp (current_page + step) 1 last_page = current_page
  <-> step = 0 \/ (current_page = 1 /\ step < 0)
      \/ (current_page = last_page /\ 0 < step).
Proof. intros H. unfold clamp. lia. Qed.

Lemma click_stays_iff_witness :
  clamp (3 + 2) 1 3 = 3 <-> 2 = 0 \/ (3 = 1 /\ 2 < 0) \/ (3 = 3 /\ 0 < 2).
Proof. apply (click_stays_iff 3 3 2). lia. Defined.

(** ** [complete_html_tags] *)

Lemma join_nil parts : join [] parts = concat parts.
Proof.
  induction parts as [|p parts IH]; [reflexivity|].
  destruct parts as [|q parts]; [simpl; now rewrite app_nil_r|].
  change (join [] (p :: q :: parts)) with (p ++ [] ++ join [] (q :: parts)).
  rewrite IH. reflexivity.
Qed.

Lemma fold_closing stack acc :
  fold_left (fun completed missing_tag => completed ++ [closing_tag missing_tag])
    stack acc
  = acc ++ map closing_tag stack.
Proof.
  revert acc. induction stack as [|m stack IH]; intros acc; simpl.
  - now rewrite app_nil_r.
  - rewrite IH, <- app_assoc. reflexivity.
Qed.

Lemma complete_html_tags_eq html_string :
  complete_html_tags html_string
  = let '(stack, completed_html) :=
      process_tags (find_tags html_string None) [] [] in
    concat (completed_html ++ map closing_tag (rev stack)).
Proof.
  unfold complete_html_tags.
  destruct (process_tags _ _ _) as [stack completed].
  now rewrite join_nil, fold_closing.
Qed.

Lemma find_tags_inside body : forall read rest,
  tag_body body ->
  find_tags (body ++ 62%N :: rest) (Some read)
  = (read ++ body ++ [62%N]) :: find_tags rest None.
Proof.
  induction body as [|c body IH]; intros read rest Hb; simpl.
  - reflexivity.
  - inversion Hb as [|? ? Hc Hb']; subst.
    destruct (N.eqb_spec c 62); [contradiction|].
    rewrite IH by assumption. now rewrite <- app_assoc.
Qed.

Lemma find_tags_cut tag rest :
  cut_tag tag -> find_tags (tag ++ rest) None = tag :: find_tags rest None.
Proof.
  intros (body & -> & Hb). simpl.
  rewrite <- app_assoc. simpl. now rewrite find_tags_inside.
Qed.

Lemma find_tags_concat tags :
  Forall cut_tag tags -> find_tags (concat tags) None = tags.
Proof.
  induction 1 as [|tag tags Ht _ IH]; [reflexivity|].
  simpl. rewrite find_tags_cut by assumption. now rewrite IH.
Qed.

Lemma find_tags_are_cut html_string : forall tag,
  match tag with
  | None => True
  | Some read => exists body, read = 60%N :: body /\ tag_body body
  end ->
  Forall cut_tag (find_tags html_string tag).
Proof.
  induction html_string as [|c rest IH]; intros tag Htag; simpl; [constructor|].
  destruct tag as [read|].
  - destruct Htag as (body & -> & Hb).
    destruct (N.eqb_spec c 62) as [->|Hc].
    + constructor; [|now apply IH]. exists body. split; [reflexivity|exact Hb].
    + apply IH. exists (body ++ [c]). split; [reflexivity|].
      apply Forall_app. split; [exact Hb|]. now repeat constructor.
  - destruct (N.eqb_spec c 60) as [->|Hc]; [|now apply IH].
    apply IH. exists []. split; [reflexivity|constructor].
Qed.

Lemma py_slice_body (front body : pystr) :
  py_slice (front ++ body ++ [62%N]) (Z.of_nat (length front)) (-1) = body.
Proof.
  unfold py_slice, slice_index. rewrite !length_app. simpl length.
  destruct (Z.ltb_spec (Z.of_nat (length front)) 0); [lia|].
  change (-1 <? 0) with true. cbv iota.
  replace (Z.to_nat (Z.min _ _)) with (length front) by lia.
  replace (Z.to_nat (Z.max _ _)) with (length front + length body)%nat by lia.
  rewrite drop_app_length.
  replace (length front + length body - length front)%nat with (length body) by lia.
  now rewrite take_app_length.
Qed.

Lemma cut_tag_name body : py_slice (60%N :: body ++ [62%N]) 1 (-1) = body.
Proof. exact (py_slice_body [60%N] body). Qed.

Lemma closing_tag_name name : py_slice (closing_tag name) 2 (-1) = name.
Proof. exact (py_slice_body [60%N; 47%N] name). Qed.

Lemma closing_tag_closes name : startswith (str "</") (closing_tag name) = true.
Proof. reflexivity. Qed.

Lemma process_tags_acc tags : forall stack acc,
  process_tags tags stack acc
  = (fst (process_tags tags stack []), acc ++ snd (process_tags tags stack [])).
Proof.
  induction tags as [|tag tags IH]; intros stack acc; simpl.
  - now rewrite app_nil_r.
  - destruct (startswith (str "</") tag).
    + destruct (last stack) as [top|]; [|apply IH].
      destruct (pystr_eqb top (py_slice tag 2 (-1))); [|apply IH].
      rewrite IH, (IH _ [tag]). simpl. now rewrite <- app_assoc.
    + rewrite IH, (IH _ [tag]). simpl. now rewrite <- app_assoc.
Qed.

Lemma process_tags_app a b : forall stack acc,
  process_tags (a ++ b) stack acc
  = process_tags b (fst (process_tags a stack acc)) (snd (process_tags a stack acc)).
Proof.
  induction a as [|tag a IH]; intros stack acc; simpl; [reflexivity|].
  destruct (startswith (str "</") tag).
  - destruct (last stack) as [top|]; [|apply IH].
    destruct (pystr_eqb top (py_slice tag 2 (-1))); apply IH.
  - apply IH.
Qed.

(** The tags that are kept pass the second loop again, all of them, and
    leave the same stack. *)
Lemma process_tags_replay tags : forall stack,
  process_tags (snd (process_tags tags stack [])) stack []
  = process_tags tags stack [].
Proof.
  induction tags as [|tag tags IH]; intros stack; simpl; [reflexivity|].
  destruct (startswith (str "</") tag) eqn:Hclose.
  - destruct (last stack) as [top|] eqn:Htop; [|apply IH].
    destruct (pystr_eqb top (py_slice tag 2 (-1))) eqn:Heq; [|apply IH].
    rewrite (process_tags_acc tags). simpl.
    rewrite Hclose, Htop, Heq.
    rewrite (process_tags_acc _ _ [tag]), IH. reflexivity.
  - rewrite (process_tags_acc tags). simpl. rewrite Hclose.
    rewrite (process_tags_acc _ _ [tag]), IH. reflexivity.
Qed.

Lemma process_tags_closers stack : forall acc,
  process_tags (map closing_tag (rev stack)) stack acc
  = ([], acc ++ map closing_tag (rev stack)).
Proof.
  induction stack as [|name stack IH] using rev_ind; intros acc; simpl.
  - now rewrite app_nil_r.
  - rewrite rev_app_distr. simpl.
    rewrite last_snoc, closing_tag_name.
    unfold pystr_eqb. rewrite bool_decide_eq_true_2 by reflexivity.
    rewrite removelast_last, IH, <- app_assoc. reflexivity.
Qed.

(** Every name on the stack is the body of a tag. *)
Lemma process_tags_bodies tags : forall stack acc,
  Forall cut_tag tags -> Forall tag_body stack -> Forall cut_tag acc ->
  Forall tag_body (fst (process_tags tags stack acc))
  /\ Forall cut_tag (snd (process_tags tags stack acc)).
Proof.
  induction tags as [|tag tags IH]; intros stack acc Ht Hs Ha; simpl; [auto|].
  inversion Ht as [|? ? Htag Ht']; subst.
  destruct (startswith (str "</") tag).
  - destruct (last stack) as [top|]; [|now apply IH].
    destruct (pystr_eqb top (py_slice tag 2 (-1))); [|now apply IH].
    apply IH; [assumption| |].
    + destruct stack as [|x stack] using rev_ind; [constructor|].
      rewrite removelast_last. now apply Forall_app in Hs as [Hs _].
    + apply Forall_app. split; [assumption|]. now repeat constructor.
  - apply IH; [assumption| |].
    + apply Forall_app. split; [assumption|]. repeat constructor.
      destruct Htag as (body & -> & Hb). now rewrite cut_tag_name.
    + apply Forall_app. split; [assumption|]. now repeat constructor.
Qed.

Lemma closing_tag_cut name : tag_body name -> cut_tag (closing_tag name).
Proof.
  intros Hb. exists (47%N :: name). split; [reflexivity|].
  constructor; [discriminate|exact Hb].
Qed.

(** X4. Completing the tags twice gives what completing them once gives. *)
Theorem complete_html_tags_idempotent html_string :
  complete_html_tags (complete_html_tags html_string)
  = complete_html_tags html_string.
Proof.
  rewrite (complete_html_tags_eq html_string).
  pose proof (process_tags_replay (find_tags html_string None) []) as Hreplay.
  pose proof (process_tags_bodies (find_tags html_string None) [] []
                (find_tags_are_cut html_string None I)
                ltac:(constructor) ltac:(constructor)) as [Hstack Hkept].
  destruct (process_tags (find_tags html_string None) [] [])
    as [stack completed] eqn:Hrun.
  simpl in Hreplay, Hstack, Hkept.
  rewrite complete_html_tags_eq.
  rewrite find_tags_concat; cycle 1.
  { apply Forall_app. split; [exact Hkept|].
    apply Forall_forall. intros tag Hin. apply list_elem_of_In in Hin.
    apply in_map_iff in Hin as (name & <- & Hin).
    apply closing_tag_cut. apply in_rev in Hin.
    rewrite Forall_forall in Hstack. apply Hstack. now apply list_elem_of_In. }
  rewrite process_tags_app, Hreplay. simpl.
  rewrite process_tags_closers. simpl. now rewrite app_nil_r.
Qed.

Lemma find_tags_outside text : forall html_string,
  Forall (fun c => c <> 60%N) text ->
  find_tags (text ++ html_string) None = find_tags html_string None.
Proof.
  induction text as [|c text IH]; intros html Ht; [reflexivity|].
  inversion Ht as [|? ? Hc Ht']; subst. simpl.
  destruct (N.eqb_spec c 60); [contradiction|]. now apply IH.
Qed.

(** X5. Text in front of the first tag is not kept. *)
Theorem complete_html_tags_drops_text text html_string :
  Forall (fun c => c <> 60%N) text ->
  complete_html_tags text = []
  /\ complete_html_tags (text ++ html_string) = complete_html_tags html_string.
Proof.
  intros Ht. split.
  - rewrite complete_html_tags_eq.
    rewrite <- (app_nil_r text), find_tags_outside by assumption. reflexivity.
  - rewrite !complete_html_tags_eq. now rewrite find_tags_outside.
Qed.

Lemma complete_html_tags_drops_text_witness :
  complete_html_tags (str "3 > 2") = []
  /\ complete_html_tags (str "3 > 2" ++ str "<b>bold") = complete_html_tags (str "<b>bold").
Proof.
  apply (complete_html_tags_drops_text (str "3 > 2") (str "<b>bold")).
  repeat constructor; discriminate.
Defined.

Lemma process_tags_opening names : forall stack acc,
  Forall (fun name => tag_body name /\ startswith (str "/") name = false) names ->
  process_tags (map opening_tag names) stack acc
  = (stack ++ names, acc ++ map opening_tag names).
Proof.
  induction names as [|name names IH]; intros stack acc Hn; simpl.
  - now rewrite !app_nil_r.
  - inversion Hn as [|? ? [Hb Hs] Hn']; subst.
    assert (startswith (str "</") (opening_tag name) = false) as ->.
    { destruct name as [|c name]; [reflexivity|].
      unfold startswith in Hs |- *.
      change (str "/") with [47%N] in Hs. change (str "</") with [60%N; 47%N].
      change (opening_tag (c :: name)) with (60%N :: c :: name ++ [62%N]).
      cbn [after_prefix] in Hs |- *. change (60 =? 60)%N with true. cbv iota.
      destruct (47 =? c)%N; [discriminate|reflexivity]. }
    change (opening_tag name) with (60%N :: name ++ [62%N]) at 1.
    rewrite cut_tag_name, IH by assumption.
    now rewrite <- !app_assoc.
Qed.

(** X6. Tags that are opened and never closed are closed at the end, the
    last one first. *)
Theorem complete_html_tags_closes_open_tags names :
  Forall (fun name => tag_body name /\ startswith (str "/") name = false) names ->
  complete_html_tags (concat (map opening_tag names))
  = concat (map opening_tag names) ++ concat (map closing_tag (rev names)).
Proof.
  intros Hn. rewrite complete_html_tags_eq.
  rewrite find_tags_concat; cycle 1.
  { apply Forall_forall. intros tag Hin. apply list_elem_of_In in Hin.
    apply in_map_iff in Hin as (name & <- & Hin).
    rewrite Forall_forall in Hn. apply list_elem_of_In, Hn in Hin as [Hb _].
    exists name. split; [reflexivity|exact Hb]. }
  rewrite process_tags_opening by assumption. simpl.
  now rewrite concat_app.
Qed.

Lemma complete_html_tags_closes_open_tags_witness :
  complete_html_tags (concat (map opening_tag [str "b"; str "i"]))
  = concat (map opening_tag [str "b"; str "i"])
      ++ concat (map closing_tag (rev [str "b"; str "i"])).
Proof.
  apply (complete_html_tags_closes_open_tags [str "b"; str "i"]).
  repeat first [constructor | discriminate].
Defined.

(** X7. A closing tag is kept only when its name is the whole body of the tag
    that is open. *)
Theorem complete_html_tags_unmatched_closing body text name :
  tag_body body -> startswith (str "/") body = false ->
  Forall (fun c => c <> 60%N) text ->
  tag_body name -> name <> body ->
  complete_html_tags (opening_tag body ++ text ++ closing_tag name)
  = opening_tag body ++ closing_tag body.
Proof.
  intros Hb Hs Ht Hn Hne. rewrite complete_html_tags_eq.
  rewrite find_tags_cut by (exists body; split; [reflexivity|exact Hb]).
  rewrite find_tags_outside by assumption.
  rewrite <- (app_nil_r (closing_tag name)).
  rewrite find_tags_cut by now apply closing_tag_cut.
  change (find_tags [] None) with (@nil pystr).
  change [opening_tag body; closing_tag name]
    with (map opening_tag [body] ++ [closing_tag name]).
  rewrite process_tags_app, process_tags_opening by (repeat constructor; assumption).
  simpl fst. simpl snd. simpl process_tags.
  rewrite closing_tag_name.
  unfold pystr_eqb. rewrite bool_decide_eq_false_2 by congruence.
  simpl. now rewrite app_nil_r.
Qed.

Lemma complete_html_tags_unmatched_closing_witness :
  complete_html_tags (opening_tag (str "a href='x'") ++ str "link" ++ closing_tag (str "a"))
  = opening_tag (str "a href='x'") ++ closing_tag (str "a href='x'").
Proof.
  apply (complete_html_tags_unmatched_closing (str "a href='x'") (str "link") (str "a")).
  - repeat constructor; discriminate.
  - reflexivity.
  - repeat constructor; discriminate.
  - repeat constructor; discriminate.
  - discriminate.
Defined.

(** ** [remove_update_sensitive_info] *)

Lemma after_prefix_app p : forall s rest,
  after_prefix p s = Some rest -> s = p ++ rest.
Proof.
  induction p as [|c p IH]; intros s rest; simpl.
  - now intros [= ->].
  - destruct s as [|d s]; [discriminate|].
    destruct (N.eqb_spec c d) as [->|]; [|discriminate].
    intros H. now rewrite (IH _ _ H).
Qed.

Lemma after_prefix_here p rest : after_prefix p (p ++ rest) = Some rest.
Proof. induction p as [|c p IH]; simpl; [reflexivity|]. now rewrite N.eqb_refl. Qed.

Lemma any_star_fails s k :
  (forall i, k (drop i s) = None) -> any_star s k = None.
Proof.
  induction s as [|c s IH]; intros Hk; simpl.
  - exact (Hk 0%nat).
  - rewrite IH by (intros i; exact (Hk (S i))).
    destruct (c =? 10)%N; exact (Hk 0%nat).
Qed.

Lemma field_fails before after s :
  (exists c, c ∈ after /\ c ∉ s) ->
  re_match (RSeq (RLit before) (RSeq RAnyStar (RLit after))) s Some = None.
Proof.
  intros (c & Hin & Hout). simpl.
  destruct (after_prefix before s) as [s'|] eqn:Hb; [|reflexivity].
  apply after_prefix_app in Hb. subst s.
  apply any_star_fails. intros i.
  destruct (after_prefix after (drop i s')) as [rest|] eqn:Ha; [|reflexivity].
  apply after_prefix_app in Ha. exfalso. apply Hout.
  apply elem_of_app. right. rewrite <- (take_drop i s'). apply elem_of_app. right.
  rewrite Ha. apply elem_of_app. now left.
Qed.

Lemma sensitive_needs_comma s :
  44%N ∉ s -> re_match (alternatives sensitive_fields) s Some = None.
Proof.
  intros Hs. unfold sensitive_fields. cbn [alternatives re_match].
  pose proof (fun before after Hin =>
                field_fails before after s (ex_intro _ 44%N (conj Hin Hs))) as H.
  cbn [re_match] in H.
  rewrite !H; [reflexivity|..]; cbn; repeat constructor.
Qed.

Lemma re_sub_empty_unmatched r : forall fuel s,
  (forall i, re_match r (drop i s) Some = None) ->
  re_sub_empty fuel r s = s.
Proof.
  induction fuel as [|fuel IH]; intros s Hs; [reflexivity|].
  destruct s as [|c s]; [reflexivity|]. simpl.
  pose proof (Hs 0%nat) as H0. simpl in H0. rewrite H0.
  f_equal. apply IH. intros i. exact (Hs (S i)).
Qed.

(** X8. A text without a comma is returned as it is: every field of the
    pattern ends with one. *)
Theorem remove_update_sensitive_info_needs_comma update :
  44%N ∉ update -> remove_update_sensitive_info update = update.
Proof.
  intros H. apply re_sub_empty_unmatched. intros i.
  apply sensitive_needs_comma. intros Hin. apply H.
  rewrite <- (take_drop i update). apply elem_of_app. now right.
Qed.

Lemma remove_update_sensitive_info_needs_comma_witness :
  remove_update_sensitive_info (34%N :: str "id" ++ 34%N :: str ": 42")
  = 34%N :: str "id" ++ 34%N :: str ": 42".
Proof.
  apply (remove_update_sensitive_info_needs_comma
           (34%N :: str "id" ++ 34%N :: str ": 42")).
  intros H. vm_compute in H.
  repeat (apply elem_of_cons in H as [H|H]; [discriminate|]).
  now apply elem_of_nil in H.
Defined.

Lemma re_sub_empty_fuel r : forall fuel1 fuel2 s,
  (length s <= fuel1)%nat -> (length s <= fuel2)%nat ->
  re_sub_empty fuel1 r s = re_sub_empty fuel2 r s.
Proof.
  induction fuel1 as [|fuel1 IH]; intros fuel2 s H1 H2.
  - destruct s; [|simpl in H1; lia]. now destruct fuel2.
  - destruct fuel2 as [|fuel2]; [destruct s; [reflexivity|simpl in H2; lia]|].
    destruct s as [|c s]; [reflexivity|]. simpl in H1, H2.
    cbn [re_sub_empty].
    destruct (re_match r (c :: s) Some) as [rest|].
    + destruct (Nat.ltb_spec (length rest) (length (c :: s))) as [Hlt|_].
      * simpl in Hlt. apply IH; lia.
      * f_equal. apply IH; lia.
    + f_equal. apply IH; lia.
Qed.

Lemma sensitive_starts_with_quote c s :
  c <> 34%N -> re_match (alternatives sensitive_fields) (c :: s) Some = None.
Proof.
  intros Hc. unfold sensitive_fields. cbn [alternatives re_match].
  assert (forall p, after_prefix (34%N :: p) (c :: s) = None) as H.
  { intros p. cbn [after_prefix].
    destruct (N.eqb_spec 34 c) as [<-|_]; [contradiction|reflexivity]. }
  now rewrite !H.
Qed.

(** The text in front of the first field of the pattern is kept. *)
Lemma re_sub_empty_keeps front : forall fuel s,
  Forall (fun c => c <> 34%N) front ->
  (length (front ++ s) <= fuel)%nat ->
  re_sub_empty fuel (alternatives sensitive_fields) (front ++ s)
  = front ++ re_sub_empty (length s) (alternatives sensitive_fields) s.
Proof.
  induction front as [|c front IH]; intros fuel s Hf Hfuel.
  - apply re_sub_empty_fuel; simpl in *; lia.
  - inversion Hf as [|? ? Hc Hf']; subst.
    destruct fuel as [|fuel]; [simpl in Hfuel; lia|].
    simpl app. cbn [re_sub_empty].
    rewrite sensitive_starts_with_quote by assumption.
    f_equal. apply IH; [assumption|]. simpl in Hfuel. lia.
Qed.

Lemma any_star_line v : forall s k rest,
  Forall (fun c => c <> 10%N) v ->
  any_star s k = Some rest -> any_star (v ++ s) k = Some rest.
Proof.
  induction v as [|c v IH]; intros s k rest Hv Hs; [exact Hs|].
  inversion Hv as [|? ? Hc Hv']; subst. simpl.
  destruct (N.eqb_spec c 10); [contradiction|].
  now rewrite (IH s k rest).
Qed.

(** A closing text that is not in [s] is not found either when the line
    ends after [s]. *)
Lemma after_prefix_line p tail : forall s,
  Forall (fun c => c <> 10%N) p -> line_end tail ->
  after_prefix p s = None -> after_prefix p (s ++ tail) = None.
Proof.
  induction p as [|c p IH]; intros s Hp Htail; [discriminate|].
  inversion Hp as [|? ? Hc Hp']; subst.
  destruct s as [|d s]; cbn [after_prefix app].
  - intros _. destruct Htail as [->|[s' ->]]; [reflexivity|].
    cbn [after_prefix]. now destruct (N.eqb_spec c 10).
  - destruct (c =? d)%N; [|reflexivity]. now apply IH.
Qed.

(** [.*] cannot end anywhere in a text the continuation refuses up to the
    end of the line. *)
Lemma any_star_fails_line rest tail k :
  line_end tail ->
  (forall i, k (drop i rest ++ tail) = None) ->
  any_star (rest ++ tail) k = None.
Proof.
  intros Htail. induction rest as [|c rest IH]; intros Hk.
  - specialize (Hk 0%nat). simpl in *.
    destruct Htail as [->|[s' ->]]; exact Hk.
  - cbn [app any_star]. rewrite IH by (intros i; exact (Hk (S i))).
    destruct (c =? 10)%N; exact (Hk 0%nat).
Qed.

(** [.*] in front of [pre ++ s] stops before [pre] when no later place
    lets the continuation go on. *)
Lemma any_star_first pre : forall s k,
  pre <> [] -> Forall (fun c => c <> 10%N) pre ->
  any_star s k = None ->
  (forall j, (0 < j < length pre)%nat -> k (drop j pre ++ s) = None) ->
  any_star (pre ++ s) k = k (pre ++ s).
Proof.
  induction pre as [|c pre IH]; intros s k Hne Hpre Hs Hk; [contradiction|].
  inversion Hpre as [|? ? Hc Hpre']; subst.
  cbn [app any_star]. destruct (N.eqb_spec c 10) as [|_]; [contradiction|].
  destruct pre as [|d pre].
  - cbn [app]. now rewrite Hs.
  - rewrite IH; [|discriminate|assumption|assumption|].
    + pose proof (Hk 1%nat ltac:(simpl; lia)) as H1. simpl in H1.
      cbn [app]. now rewrite H1.
    + intros j Hj. apply (Hk (S j)). simpl in *. lia.
Qed.

(** The greedy [.*] of a field, in front of the last closing text of the
    line. *)
Lemma any_star_closing after v rest tail :
  after <> [] -> Forall (fun c => c <> 10%N) after ->
  (forall j, (0 < j < length after)%nat ->
     after_prefix after (drop j after ++ rest ++ tail) = None) ->
  Forall (fun c => c <> 10%N) v ->
  (forall i, after_prefix after (drop i rest) = None) ->
  line_end tail ->
  any_star (v ++ after ++ rest ++ tail)
    (fun s => re_match (RLit after) s Some)
  = Some (rest ++ tail).
Proof.
  intros Hne Hafter Hin Hv Hrest Htail.
  apply any_star_line; [exact Hv|].
  rewrite any_star_first; try assumption.
  - cbn [re_match]. now rewrite after_prefix_here.
  - apply any_star_fails_line; [exact Htail|]. intros i. cbn [re_match].
    now rewrite (after_prefix_line after tail _ Hafter Htail (Hrest i)).
  - intros j Hj. cbn [re_match]. now rewrite (Hin j Hj).
Qed.

Lemma sensitive_fields_cut : Forall field_cut sensitive_fields.
Proof.
  unfold field_cut, sensitive_fields.
  repeat constructor; cbn [fst snd]; try discriminate;
    intros v rest tail Hv Hrest Htail;
    cbn [alternatives re_match];
    repeat match goal with
           | |- context [after_prefix ?p (?q ++ ?x)] =>
               first [ change (after_prefix p (q ++ x)) with (@None pystr)
                     | rewrite (after_prefix_here p x) ]
           end;
    cbv iota;
    match goal with
    | |- context [any_star (v ++ ?a ++ rest ++ tail) ?k] =>
        change (any_star (v ++ a ++ rest ++ tail) k)
          with (any_star (v ++ a ++ rest ++ tail)
                  (fun s => re_match (RLit a) s Some));
        rewrite (any_star_closing a v rest tail);
          [reflexivity | discriminate | repeat constructor; discriminate
          | | assumption | assumption | assumption]
    end;
    intros [|[|j]] Hj; first [reflexivity | simpl in Hj; lia].
Qed.

(** X9. A field of the pattern is cut from its name to the last closing
    text of its line: [v] is any text of the line, [rest] holds no further
    closing text, and the line ends where [tail] starts.  What stands in
    front of the field is kept, and the search goes on behind the cut. *)
Theorem remove_update_sensitive_info_cuts_field front before after v rest tail :
  (before, after) ∈ sensitive_fields ->
  Forall (fun c => c <> 34%N) front ->
  Forall (fun c => c <> 10%N) v ->
  (forall i, after_prefix after (drop i rest) = None) ->
  line_end tail ->
  remove_update_sensitive_info (front ++ before ++ v ++ after ++ rest ++ tail)
  = front ++ remove_update_sensitive_info (rest ++ tail).
Proof.
  intros Hin Hfront Hv Hrest Htail. unfold remove_update_sensitive_info.
  rewrite re_sub_empty_keeps by (assumption || lia).
  f_equal. clear Hfront front.
  pose proof sensitive_fields_cut as Hcut.
  rewrite Forall_forall in Hcut. destruct (Hcut _ Hin) as [Hne Hm].
  cbn [fst snd] in Hne, Hm. specialize (Hm v rest tail Hv Hrest Htail).
  destruct before as [|c before]; [contradiction|].
  cbn [app length re_sub_empty]. cbn [app] in Hm. rewrite Hm.
  destruct (Nat.ltb_spec (length (rest ++ tail))
              (S (length (before ++ v ++ after ++ rest ++ tail)))) as [_|Hge].
  - apply re_sub_empty_fuel; [|lia]. rewrite !length_app. lia.
  - rewrite !length_app in Hge. lia.
Qed.

Lemma remove_update_sensitive_info_cuts_field_witness :
  remove_update_sensitive_info
    ([] ++ (34%N :: str "username" ++ 34%N :: str ": " ++ [34%N]) ++ str "a"
       ++ (34%N :: str ",") ++ str " 1, c" ++ [10%N; 125%N])
  = [] ++ remove_update_sensitive_info (str " 1, c" ++ [10%N; 125%N]).
Proof.
  apply (remove_update_sensitive_info_cuts_field []
           (34%N :: str "username" ++ 34%N :: str ": " ++ [34%N])
           (34%N :: str ",") (str "a") (str " 1, c") [10%N; 125%N]).
  - unfold sensitive_fields. do 3 (apply elem_of_cons; right).
    apply elem_of_cons. now left.
  - constructor.
  - repeat constructor; discriminate.
  - intros i. do 6 (destruct i as [|i]; [reflexivity|]). reflexivity.
  - right. eexists. reflexivity.
Defined.

(** ** The cache is filled from the store *)

Lemma fold_insert_other (l : list (string * SqlVal)) : forall (d : gmap string PyVal) key,
  key ∉ map fst l ->
  fold_left (fun d kv => <[fst kv := py_of_sql (snd kv)]> d) l d !! key = d !! key.
Proof.
  induction l as [|[k v] l IH]; intros d key Hk; simpl; [reflexivity|].
  rewrite IH.
  - apply lookup_insert_ne. intros ->. apply Hk. simpl. left.
  - intros Hin. apply Hk. simpl. now right.
Qed.

Lemma zip_row_lookup cols : forall row i key,
  NoDup cols -> cols !! i = Some key ->
  zip_row cols row !! key = py_of_sql <$> row !! i.
Proof.
  unfold zip_row.
  assert (forall cols row i key (d : gmap string PyVal),
            NoDup cols -> cols !! i = Some key ->
            fold_left (fun d kv => <[fst kv := py_of_sql (snd kv)]> d) (zip cols row) d
              !! key
            = match row !! i with Some v => Some (py_of_sql v) | None => d !! key end)
    as H.
  { clear. induction cols as [|c cols IH]; intros row i key d Hnd Hi; [discriminate|].
    apply NoDup_cons in Hnd as [Hc Hnd].
    destruct row as [|v row]; [now destruct i|].
    destruct i as [|i]; simpl in *.
    - injection Hi as ->. rewrite fold_insert_other.
      + apply lookup_insert_eq.
      + intros Hin. apply Hc.
        assert (map fst (zip cols row) `sublist_of` cols) as Hsub.
        { clear. revert row. induction cols as [|c cols IH]; intros [|v row]; simpl;
            try apply sublist_nil_l. apply sublist_skip, IH. }
        eapply elem_of_sublist; eassumption.
    - rewrite (IH row i key) by assumption.
      destruct (row !! i); [reflexivity|].
      apply lookup_insert_ne. intros ->. apply Hc.
      eapply list_elem_of_lookup_2; eassumption. }
  intros row i key Hnd Hi. rewrite (H cols row i key ∅ Hnd Hi).
  destruct (row !! i); [reflexivity|apply lookup_empty].
Qed.

Lemma column_names_NoDup t : NoDup (column_names t).
Proof. destruct t; refine (bool_decide_unpack _ _); vm_compute; exact I. Qed.

Lemma all_tables_NoDup : NoDup all_tables.
Proof. refine (bool_decide_unpack _ _); vm_compute; exact I. Qed.

Lemma all_tables_complete t : t ∈ all_tables.
Proof. destruct t; unfold all_tables; set_solver. Qed.

Lemma insert_or_ignore_own t u d : is_Some (insert_or_ignore t u d !! (t, u)).
Proof.
  unfold insert_or_ignore. destruct (d !! (t, u)) eqn:H.
  - rewrite H. eauto.
  - rewrite lookup_insert_eq. eauto.
Qed.

Lemma insert_or_ignore_other t u d k :
  k <> (t, u) -> insert_or_ignore t u d !! k = d !! k.
Proof.
  intros Hk. unfold insert_or_ignore. destruct (d !! (t, u)); [reflexivity|].
  now apply lookup_insert_ne.
Qed.

Section CacheFill.
Context (env : Env).

(** What the loop over the tables leaves when it ends: each table of the
    loop has a row for the user, and that row is what the dictionary
    holds for the table. *)
Lemma load_tables_ok u tables : forall ud w ud' w',
  NoDup tables ->
  load_tables env u tables ud w = (Ok ud', w') ->
  (forall t, t ∈ tables ->
     exists row, db w' !! (t, u) = Some row
                 /\ ud' !! t = Some (zip_row (column_names t) row))
  /\ (forall t, t ∉ tables ->
        ud' !! t = ud !! t /\ db w' !! (t, u) = db w !! (t, u))
  /\ data_cache w' = data_cache w.
Proof.
  induction tables as [|t tables IH]; intros ud w ud' w' Hnd Hrun.
  { injection Hrun as <- <-. split; [intros t Ht; inversion Ht|]. auto. }
  apply NoDup_cons in Hnd as [Ht Hnd].
  simpl in Hrun. unfold mbind, M_bind, cursor_execute, connection_commit,
    fetchone_tail, mbind, M_bind, cursor_execute in Hrun.
  destruct (db_unavailable env (clock w)); [discriminate|].
  simpl in Hrun. destruct (db_unavailable env (S (clock w))); [discriminate|].
  simpl in Hrun. destruct (db_unavailable env (S (S (clock w)))); [discriminate|].
  simpl in Hrun.
  destruct (insert_or_ignore_own t u (db w)) as [row Hrow].
  rewrite Hrow in Hrun.
  apply IH in Hrun as (Hin & Hout & Hc); [|assumption].
  split; [|split].
  - intros t' Ht'. apply elem_of_cons in Ht' as [->|Ht']; [|now apply Hin].
    destruct (Hout t Ht) as [Hud Hdb]. exists row. split.
    + rewrite Hdb. exact Hrow.
    + rewrite Hud. apply lookup_insert_eq.
  - intros t' Ht'. apply not_elem_of_cons in Ht' as [Hne Ht'].
    destruct (Hout t' Ht') as [Hud Hdb]. split.
    + rewrite Hud. now apply lookup_insert_ne.
    + rewrite Hdb. simpl. apply insert_or_ignore_other. congruence.
  - exact Hc.
Qed.

Lemma load_tables_raise u tables : forall ud w e w',
  load_tables env u tables ud w = (Raise e, w') ->
  e = DatabaseError /\ data_cache w' = data_cache w.
Proof.
  induction tables as [|t tables IH]; intros ud w e w' Hrun; [discriminate|].
  simpl in Hrun. unfold mbind, M_bind, cursor_execute, connection_commit,
    fetchone_tail, mbind, M_bind, cursor_execute in Hrun.
  destruct (db_unavailable env (clock w)); [now injection Hrun as <- <-|].
  simpl in Hrun.
  destruct (db_unavailable env (S (clock w))); [now injection Hrun as <- <-|].
  simpl in Hrun.
  destruct (db_unavailable env (S (S (clock w)))); [now injection Hrun as <- <-|].
  simpl in Hrun.
  destruct (insert_or_ignore_own t u (db w)) as [row Hrow].
  rewrite Hrow in Hrun.
  apply IH in Hrun as [-> Hc]. auto.
Qed.

(** A read for a user who is not cached. *)
Lemma get_user_data_miss u t w :
  data_cache w !! u = None ->
  match get_user_data env u t w with
  | (Ok r, w') =>
      r = (u, t)
      /\ forall t', exists row,
           db w' !! (t', u) = Some row
           /\ cached_table w' u t' = Some (zip_row (column_names t') row)
  | (Raise e, w') => e = DatabaseError /\ data_cache w' = data_cache w
  end.
Proof.
  intros Hmiss.
  unfold get_user_data, mbind, M_bind, ensure_cached. rewrite Hmiss.
  unfold setup_data_cache, mbind, M_bind.
  destruct (load_tables env u all_tables ∅ w) as [[ud'|e] w1] eqn:Hrun.
  - apply load_tables_ok in Hrun as (Hin & _ & _); [|apply all_tables_NoDup].
    unfold assert_table. simpl. rewrite lookup_insert_eq.
    destruct (Hin t (all_tables_complete t)) as (row & Hdb & Hud). rewrite Hud.
    split; [reflexivity|]. intros t'.
    destruct (Hin t' (all_tables_complete t')) as (row' & Hdb' & Hud').
    exists row'. split; [exact Hdb'|].
    unfold cached_table. simpl. rewrite lookup_insert_eq. exact Hud'.
  - now apply load_tables_raise in Hrun.
Qed.
End CacheFill.

(** X10. A read that fills the cache caches what the store holds. *)
Theorem read_through_mirrors_store env u t w r :
  data_cache w !! u = None ->
  fst (get_user_data env u t w) = Ok r ->
  let w' := snd (get_user_data env u t w) in
  forall t', cache_mirrors_store u t' w'
             /\ is_Some (cached_table w' u t') /\ is_Some (db w' !! (t', u)).
Proof.
  intros Hmiss Hok w' t'. subst w'.
  pose proof (get_user_data_miss env u t w Hmiss) as H.
  destruct (get_user_data env u t w) as [[r'|e] w']; [|discriminate].
  destruct H as [_ H]. destruct (H t') as (row & Hdb & Hc). simpl.
  split; [|split; eauto].
  intros row' stored Hrow' Hstored i key Hkey.
  rewrite Hc in Hrow'. injection Hrow' as <-.
  rewrite Hdb in Hstored. injection Hstored as <-.
  apply zip_row_lookup; [apply column_names_NoDup|exact Hkey].
Qed.

Lemma read_through_mirrors_store_witness :
  let w' := snd (get_user_data scenario 1 KEYBOARD_ANIME (restart after_naruto)) in
  cache_mirrors_store 1 KEYBOARD_ANIME w'
  /\ is_Some (cached_table w' 1 KEYBOARD_ANIME)
  /\ is_Some (db w' !! (KEYBOARD_ANIME, 1)).
Proof.
  refine (read_through_mirrors_store scenario 1 KEYBOARD_ANIME (restart after_naruto)
            (1, KEYBOARD_ANIME) _ _ KEYBOARD_ANIME).
  - reflexivity.
  - vm_compute. reflexivity.
Defined.

(** X11. The first read for a user the store does not know creates the row
    with the defaults of the table. *)
Theorem first_contact_defaults env u t w r :
  data_cache w !! u = None ->
  db w !! (t, u) = None ->
  fst (get_user_data env u t w) = Ok r ->
  let w' := snd (get_user_data env u t w) in
  db w' !! (t, u) = Some (default_row t)
  /\ (t = PREFERENCES -> cached_field w' u t "language" = Some (PInt ENGLISH))
  /\ (t <> PREFERENCES ->
      cached_field w' u t "message_id" = Some PNone
      /\ cached_field w' u t "reply_id" = Some PNone
      /\ cached_field w' u t "step" = Some (PInt 1)
      /\ cached_field w' u t "current_page" = Some PNone
      /\ cached_field w' u t "last_page" = Some PNone
      /\ cached_field w' u t "kwargs" = Some PNone).
Proof.
  intros Hmiss Hnew Hok w'. subst w'.
  pose proof (get_user_data_miss env u t w Hmiss) as H.
  pose proof (get_user_data_read_through env u t w) as ((_ & Hnone & _) & _).
  destruct (get_user_data env u t w) as [[r'|e] w']; [|discriminate].
  simpl in *. destruct H as [_ H]. destruct (H t) as (row & Hdb & Hc).
  destruct (Hnone (t, u) Hnew) as [Hn|[_ Hd]]; [congruence|].
  simpl in Hd. rewrite Hdb in Hd. injection Hd as ->.
  split; [exact Hdb|].
  unfold cached_field. rewrite Hc.
  split; [intros ->; reflexivity|].
  intros Hne. destruct t; [contradiction|..]; repeat split; reflexivity.
Qed.

Lemma first_contact_defaults_witness :
  let w' := snd (get_user_data scenario 1 PREFERENCES fresh) in
  db w' !! (PREFERENCES, 1) = Some (default_row PREFERENCES)
  /\ (PREFERENCES = PREFERENCES ->
      cached_field w' 1 PREFERENCES "language" = Some (PInt ENGLISH))
  /\ (PREFERENCES <> PREFERENCES ->
      cached_field w' 1 PREFERENCES "message_id" = Some PNone
      /\ cached_field w' 1 PREFERENCES "reply_id" = Some PNone
      /\ cached_field w' 1 PREFERENCES "step" = Some (PInt 1)
      /\ cached_field w' 1 PREFERENCES "current_page" = Some PNone
      /\ cached_field w' 1 PREFERENCES "last_page" = Some PNone
      /\ cached_field w' 1 PREFERENCES "kwargs" = Some PNone).
Proof.
  refine (first_contact_defaults scenario 1 PREFERENCES fresh (1, PREFERENCES) _ _ _).
  - reflexivity.
  - reflexivity.
  - vm_compute. reflexivity.
Defined.

(** X12. Once a read has succeeded, reading again changes nothing and
    cannot fail, whatever the database does. *)
Theorem cached_read_is_silent env env' u t w r :
  fst (get_user_data env u t w) = Ok r ->
  let w1 := snd (get_user_data env u t w) in
  get_user_data env' u t w1 = (Ok (u, t), w1)
  /\ (data_cache w !! u = None ->
      forall t', get_user_data env' u t' w1 = (Ok (u, t'), w1)).
Proof.
  intros Hok w1. subst w1.
  pose proof (get_user_data_ok env u t w) as H.
  pose proof (get_user_data_miss env u t w) as Hm.
  destruct (get_user_data env u t w) as [[r'|e] w1]; [|discriminate].
  simpl. destruct (H r' w1 eq_refl) as [_ [row Hrow]]. split.
  - exact (get_user_data_hit env' u t row w1 Hrow).
  - intros Hmiss t'. destruct (Hm Hmiss) as [_ Hall].
    destruct (Hall t') as (row' & _ & Hc).
    exact (get_user_data_hit env' u t' _ w1 Hc).
Qed.

Lemma cached_read_is_silent_witness :
  let w1 := snd (get_user_data scenario 1 KEYBOARD_ANIME fresh) in
  get_user_data (scenario_db_down_at 12) 1 KEYBOARD_ANIME w1
  = (Ok (1, KEYBOARD_ANIME), w1)
  /\ (data_cache fresh !! 1 = None ->
      forall t', get_user_data (scenario_db_down_at 12) 1 t' w1 = (Ok (1, t'), w1)).
Proof.
  refine (cached_read_is_silent scenario (scenario_db_down_at 12) 1 KEYBOARD_ANIME
            fresh (1, KEYBOARD_ANIME) _).
  vm_compute. reflexivity.
Defined.

(** X13. A read that fails leaves the cache as it was: no entry is made
    for the user.  When the user is cached the failure is the assertion on
    the table, and nothing at all has changed. *)
Theorem failed_read_keeps_cache env u t w e :
  fst (get_user_data env u t w) = Raise e ->
  let w' := snd (get_user_data env u t w) in
  data_cache w' = data_cache w
  /\ (is_cached w u = true -> e = AssertionError /\ w' = w).
Proof.
  intros Hraise w'. subst w'. unfold is_cached.
  pose proof (get_user_data_miss env u t w) as Hm.
  destruct (data_cache w !! u) as [ud|] eqn:Hud.
  - clear Hm. revert Hraise.
    unfold get_user_data, mbind, M_bind.
    rewrite (ensure_cached_hit env u ud w Hud).
    unfold assert_table. rewrite Hud.
    destruct (ud !! t); [discriminate|]. simpl. intros [= <-].
    repeat split; auto.
  - specialize (Hm eq_refl).
    destruct (get_user_data env u t w) as [[r'|e'] w']; [discriminate|].
    simpl in *. destruct Hm as [_ Hc].
    split; [exact Hc|discriminate].
Qed.

Lemma failed_read_keeps_cache_witness :
  let w' := snd (get_user_data (scenario_db_down_at 4) 1 KEYBOARD_ANIME fresh) in
  data_cache w' = data_cache fresh
  /\ (is_cached fresh 1 = true -> DatabaseError = AssertionError /\ w' = fresh).
Proof.
  refine (failed_read_keeps_cache (scenario_db_down_at 4) 1 KEYBOARD_ANIME fresh
            DatabaseError _).
  vm_compute. reflexivity.
Defined.

Lemma assign_all_any_row t changes : forall row row',
  is_Some (assign_all t row changes) -> is_Some (assign_all t row' changes).
Proof.
  induction changes as [|change changes IH]; intros row row' H; simpl in *; [eauto|].
  unfold assign in *.
  destruct (column_index (fst change) (schema t)) as [[i ty]|]; [|now destruct H].
  destruct (sql_value_of (snd change)) as [v|]; [|now destruct H].
  destruct (stored_as_is ty v); [|now destruct H].
  eapply IH, H.
Qed.

(** X14. An update made of plain literals touches the user's row of the
    table and nothing else. *)
Theorem set_user_data_frame env u t changes w :
  is_cached w u = true ->
  is_Some (assign_all t (default_row t) changes) ->
  let w' := snd (set_user_data env u t changes w) in
  (forall k, k <> (t, u) -> db w' !! k = db w !! k)
  /\ (forall u', u' <> u -> data_cache w' !! u' = data_cache w !! u')
  /\ (forall t', t' <> t -> cached_table w' u t' = cached_table w u t').
Proof.
  intros Hcached Hlit w'. subst w'. unfold is_cached in Hcached.
  destruct (data_cache w !! u) as [ud|] eqn:Hud; [|discriminate].
  destruct (ud !! t) as [row|] eqn:Hrow.
  - rewrite (set_user_data_run env u t changes w ud row Hud Hrow). cbv zeta.
    destruct (db_unavailable env (clock w)); [simpl; auto|].
    assert (exists d, update_effect env (clock w) t u changes (db w) = d
                      /\ match d with
                         | Some d' => forall k, k <> (t, u) -> d' !! k = db w !! k
                         | None => True
                         end) as (d & -> & Hd).
    { eexists. split; [reflexivity|]. unfold update_effect.
      destruct changes as [|c changes]; [exact I|].
      destruct Hlit as [row0 Hlit]. rewrite Hlit.
      destruct (db w !! (t, u)) as [row1|]; [|auto].
      destruct (assign_all_any_row t (c :: changes) (default_row t) row1
                  (mk_is_Some _ _ Hlit)) as [row2 ->].
      intros k Hk. now apply lookup_insert_ne. }
    destruct d as [d|]; [|simpl; auto].
    destruct (db_unavailable env (S (clock w))); [simpl; auto|].
    destruct changes as [|c changes]; [simpl; auto|].
    simpl. split; [exact Hd|]. split.
    + intros u' Hu'. now apply lookup_insert_ne.
    + intros t' Ht'. unfold cached_table. simpl.
      rewrite lookup_insert_eq, Hud. now apply lookup_insert_ne.
  - unfold set_user_data, mbind, M_bind.
    rewrite (ensure_cached_hit env u ud w Hud).
    unfold assert_table. rewrite Hud, Hrow. simpl. auto.
Qed.

Lemma set_user_data_frame_witness :
  let w' := snd (set_user_data scenario 1 KEYBOARD_ANIME
                   [("current_page", PInt 2)] after_naruto) in
  (forall k, k <> (KEYBOARD_ANIME, 1) -> db w' !! k = db after_naruto !! k)
  /\ (forall u', u' <> 1 -> data_cache w' !! u' = data_cache after_naruto !! u')
  /\ (forall t', t' <> KEYBOARD_ANIME ->
        cached_table w' 1 t' = cached_table after_naruto 1 t').
Proof.
  refine (set_user_data_frame scenario 1 KEYBOARD_ANIME [("current_page", PInt 2)]
            after_naruto _ _).
  - vm_compute. reflexivity.
  - vm_compute. eauto.
Defined.

(** ** Integers in the text of a statement *)

Lemma digits_value_acc (d : Decimal.uint) : forall acc : positive,
  fold_left (fun acc c => 10 * acc + (Z.of_N c - 48))
    (str (NilEmpty.string_of_uint d)) (Z.pos acc)
  = Z.pos (Pos.of_uint_acc d acc).
Proof.
  induction d; intros acc; simpl; try reflexivity;
    match goal with
    | IH : forall acc, _ = Z.pos (Pos.of_uint_acc ?d acc)
      |- _ = Z.pos (Pos.of_uint_acc ?d ?a) => rewrite <- (IH a); f_equal; lia
    end.
Qed.

Lemma digits_value_uint (d : Decimal.uint) :
  digits_value (str (NilEmpty.string_of_uint d)) = Z.of_uint d.
Proof.
  unfold digits_value, Z.of_uint.
  induction d; simpl; try reflexivity; try exact IHd;
    match goal with
    | |- _ = Z.pos (Pos.of_uint_acc ?d ?a) =>
        rewrite <- (digits_value_acc d a); reflexivity
    end.
Qed.

Lemma digits_are_digits (d : Decimal.uint) :
  forallb is_digit (str (NilEmpty.string_of_uint d)) = true.
Proof. induction d; simpl; try reflexivity; exact IHd. Qed.

(** The digits [str] writes for a natural number: at least one, digits
    only, and their value is the number. *)
Lemma digits_of_uint (d : Decimal.uint) :
  exists c ds,
    str (NilZero.string_of_uint d) = c :: ds
    /\ is_digit c = true /\ forallb is_digit ds = true
    /\ digits_value (c :: ds) = Z.of_uint d.
Proof.
  destruct d; simpl NilZero.string_of_uint;
    try (eexists _, _; split; [reflexivity|];
         split; [reflexivity|]; split; [apply digits_are_digits|];
         match goal with
         | |- digits_value ?l = Z.of_uint ?d =>
             change l with (str (NilEmpty.string_of_uint d));
             apply digits_value_uint
         end).
  exists 48%N, []. repeat split.
Qed.

Lemma not_null_keyword c rest :
  c <> 78%N -> c <> 110%N -> is_null_keyword (c :: rest) = false.
Proof.
  intros H1 H2. destruct rest as [|u [|l1 [|l2 [|x rest]]]]; try reflexivity.
  simpl. destruct (N.eqb_spec c 78); [contradiction|].
  destruct (N.eqb_spec c 110); [contradiction|]. reflexivity.
Qed.

Lemma not_string_literal c rest :
  c <> apostrophe -> sql_string_literal (c :: rest) = None.
Proof.
  intros H. simpl. destruct (N.eqb_spec c apostrophe); [contradiction|reflexivity].
Qed.

Lemma is_digit_range c : is_digit c = true -> (48 <= c <= 57)%N.
Proof.
  unfold is_digit. intros H. apply andb_prop in H as [H1 H2].
  apply N.leb_le in H1, H2. lia.
Qed.

Lemma sql_int_literal_repr_int z : sql_int_literal (repr_int z) = Some z.
Proof.
  unfold repr_int. rewrite <- (of_to z) at 2.
  destruct (Z.to_int z) as [d|d]; simpl NilZero.string_of_int; simpl Z.of_int.
  - destruct (digits_of_uint d) as (c & ds & -> & Hc & Hds & <-).
    apply is_digit_range in Hc as Hr.
    unfold sql_int_literal.
    destruct (N.eqb_spec c 45); [lia|].
    simpl forallb. now rewrite Hc, Hds.
  - change (str (String "-" (NilZero.string_of_uint d)))
      with (45%N :: str (NilZero.string_of_uint d)).
    destruct (digits_of_uint d) as (c & ds & -> & Hc & Hds & <-).
    unfold sql_int_literal. change (45 =? 45)%N with true. cbv iota.
    simpl forallb. now rewrite Hc, Hds.
Qed.

(** X15. An integer written into the text of the [UPDATE] is read back by
    the engine as the same integer. *)
Theorem integer_literal_round_trip (z : Z) :
  int64 z = true ->
  sql_literal (format_value (PInt z)) = Some (SInt z)
  /\ sql_value_of (PInt z) = Some (SInt z).
Proof.
  intros H64. split; [|simpl; now rewrite H64].
  simpl format_value. unfold sql_literal.
  pose proof (sql_int_literal_repr_int z) as Hint.
  assert (exists c rest, repr_int z = c :: rest
                         /\ c <> 78%N /\ c <> 110%N /\ c <> apostrophe)
    as (c & rest & Hshape & H1 & H2 & H3).
  { unfold repr_int. destruct (Z.to_int z) as [d|d]; simpl NilZero.string_of_int.
    - destruct (digits_of_uint d) as (c & ds & -> & Hc & _).
      apply is_digit_range in Hc. exists c, ds. unfold apostrophe.
      repeat split; lia.
    - eexists 45%N, _. split; [reflexivity|]. unfold apostrophe.
      repeat split; discriminate. }
  rewrite Hshape in *.
  rewrite not_null_keyword, not_string_literal by assumption.
  now rewrite Hint, H64.
Qed.

Lemma integer_literal_round_trip_witness :
  sql_literal (format_value (PInt (-2024))) = Some (SInt (-2024))
  /\ sql_value_of (PInt (-2024)) = Some (SInt (-2024)).
Proof. apply (integer_literal_round_trip (-2024)). reflexivity. Defined.

(** X16. What was written is read after a restart as the store holds it:
    when the changes are plain literals, the first read after the restart
    caches, for every column, the value the engine read in the text of
    the [UPDATE]. *)
Theorem written_values_after_restart
    env env' u t changes w row row' r i key v :
  cached_field w u t key = Some v ->
  db w !! (t, u) = Some row ->
  assign_all t row changes = Some row' ->
  fst (set_user_data env u t changes w) = Ok tt ->
  let w1 := restart (snd (set_user_data env u t changes w)) in
  fst (get_user_data env' u t w1) = Ok r ->
  column_names t !! i = Some key ->
  cached_field (snd (get_user_data env' u t w1)) u t key
  = py_of_sql <$> row' !! i.
Proof.
  intros Hcached Hrow Hassign Hset w1 Hget Hkey.
  apply cached_field_row in Hcached as (cached & Hcached & _).
  assert (db w1 !! (t, u) = Some row') as Hstored.
  { subst w1. unfold cached_table in Hcached.
    destruct (data_cache w !! u) as [ud|] eqn:Hud; [|discriminate].
    revert Hset.
    rewrite (set_user_data_run env u t changes w ud cached Hud Hcached). cbv zeta.
    destruct (db_unavailable env (clock w)); [discriminate|].
    assert (changes <> [] ->
            update_effect env (clock w) t u changes (db w)
            = Some (<[(t, u) := row']> (db w))) as Heff.
    { intros Hne. unfold update_effect.
      destruct changes as [|c changes]; [contradiction|].
      destruct (assign_all_any_row t (c :: changes) row (default_row t)
                  (mk_is_Some _ _ Hassign)) as [row0 ->].
      now rewrite Hrow, Hassign. }
    destruct changes as [|c changes]; [discriminate|].
    rewrite Heff by discriminate.
    destruct (db_unavailable env (S (clock w))); [discriminate|].
    intros _. simpl. apply lookup_insert_eq. }
  assert (data_cache w1 !! u = None) as Hmiss by apply lookup_empty.
  pose proof (get_user_data_miss env' u t w1 Hmiss) as Hfill.
  pose proof (get_user_data_read_through env' u t w1) as ((Hkept & _) & _).
  destruct (get_user_data env' u t w1) as [[r'|e] w2]; [|discriminate].
  simpl in *. destruct Hfill as [_ Hfill].
  destruct (Hfill t) as (row2 & Hdb2 & Hc2).
  rewrite (Hkept _ _ Hstored) in Hdb2. injection Hdb2 as <-.
  unfold cached_field. rewrite Hc2.
  apply zip_row_lookup; [apply column_names_NoDup|exact Hkey].
Qed.

Lemma written_values_after_restart_witness :
  let changes := [("message_id", PStr (str "NULL"))] in
  let w1 := restart (snd (set_user_data scenario 1 KEYBOARD_ANIME changes
                            after_naruto)) in
  cached_field (snd (get_user_data scenario 1 KEYBOARD_ANIME w1))
    1 KEYBOARD_ANIME "message_id"
  = py_of_sql
      <$> [SNull; SInt 3; SInt 1; SInt 1; SInt 3;
           SText (dumps (JObj [(str "identifier", JStr (str "Naruto"))]))]
          !! 0%nat.
Proof.
  intros changes w1.
  refine (written_values_after_restart scenario scenario 1 KEYBOARD_ANIME changes
            after_naruto
            [SInt 114; SInt 3; SInt 1; SInt 1; SInt 3;
             SText (dumps (JObj [(str "identifier", JStr (str "Naruto"))]))]
            _ (1, KEYBOARD_ANIME) 0 "message_id" (PInt 114) _ _ _ _ _ _).
  - vm_compute. reflexivity.
  - vm_compute. reflexivity.
  - vm_compute. reflexivity.
  - vm_compute. reflexivity.
  - vm_compute. reflexivity.
  - reflexivity.
Defined.

(** ** The content API *)

Lemma lstrip_all p s : Forall (fun c => p c = true) s -> lstrip p s = [].
Proof. induction 1 as [|c s Hc _ IH]; simpl; [reflexivity|]. now rewrite Hc. Qed.

Lemma join_blank sep parts (P : N -> Prop) :
  Forall P sep -> Forall (Forall P) parts -> Forall P (join sep parts).
Proof.
  intros Hsep. induction 1 as [|p parts Hp Hparts IH]; [constructor|].
  destruct parts as [|q parts]; [exact Hp|].
  change (join sep (p :: q :: parts)) with (p ++ sep ++ join sep (q :: parts)).
  repeat (apply Forall_app; split); assumption.
Qed.

(** X17. A command whose arguments are blank does nothing at all. *)
Theorem handle_first_blank env cls update args w :
  Forall (Forall (fun c => py_isspace c = true)) args ->
  handle_first env cls update args w = (Ok tt, w).
Proof.
  intros Hblank. unfold handle_first.
  assert (strip (join (str " ") args) = []) as ->; [|reflexivity].
  unfold strip. rewrite lstrip_all; [reflexivity|].
  apply join_blank; [|exact Hblank]. now repeat constructor.
Qed.

Lemma handle_first_blank_witness :
  handle_first scenario Anime alice [str " "; []] fresh = (Ok tt, fresh).
Proof.
  apply (handle_first_blank scenario Anime alice [str " "; []] fresh).
  repeat constructor.
Defined.

Section FetchFacts.
Context (env : Env).

Lemma fetch_each_trace cls found : forall w,
  let r := fetch_each env cls found w in
  same_state w (snd r)
  /\ exists evs, trace (snd r) = trace w ++ evs /\ Forall fetch_event evs
                 /\ (forall items, fst r = Ok items ->
                       evs = refetch cls found /\ length items = length found).
Proof.
  induction found as [|a found IH]; intros w; simpl.
  { split; [split; reflexivity|]. exists []. rewrite app_nil_r.
    repeat split; try constructor. now injection H as <-. }
  unfold mbind, M_bind, call.
  destruct (get_result env (clock w)) as [i|e]; simpl.
  - specialize (IH (called (EvGet cls (JInt (item_id a))) w)). simpl in IH.
    destruct (fetch_each env cls found _) as [[rest|e] w']; simpl in *;
      destruct IH as ([Hc Hd] & evs & Ht & Hf & Hok);
      (split; [split; assumption|]);
      exists (EvGet cls (JInt (item_id a)) :: evs);
      (split; [rewrite Ht, <- app_assoc; reflexivity|]);
      (split; [constructor; [exact I|exact Hf]|]).
    + intros items [= <-]. destruct (Hok rest eq_refl) as [-> Hl].
      split; [reflexivity|simpl; now rewrite Hl].
    + discriminate.
  - split; [split; reflexivity|]. exists [EvGet cls (JInt (item_id a))].
    repeat split; [repeat constructor|discriminate|discriminate].
Qed.

(** [get_data] calls the content API and does nothing else. *)
Lemma get_data_only_fetches cls request w :
  let w' := snd (get_data env cls request w) in
  same_state w w'
  /\ exists evs, trace w' = trace w ++ evs /\ Forall fetch_event evs.
Proof.
  unfold get_data.
  destruct (identifier request) as [| | | |ident| |];
    try (simpl; split; [split; reflexivity|];
         exists []; rewrite app_nil_r; split; [reflexivity|constructor]).
  unfold mbind, M_bind, call, lift.
  destruct (isnumeric (unicode_numeric env) ident).
  - destruct (get_result env (clock w)) as [item|e]; simpl.
    + match goal with
      | |- context [match ?x with Ok _ => _ | Raise _ => _ end] => destruct x
      end; simpl;
        (split; [split; reflexivity|]); eexists; split; try reflexivity;
        repeat constructor.
    + split; [split; reflexivity|]. eexists; split; [reflexivity|repeat constructor].
  - destruct (search_result env (clock w)) as [[found pagination]|e]; simpl.
    + pose proof (fetch_each_trace cls found
                    (called (EvSearch cls ident (per_page request) (page request)) w))
        as H. simpl in H.
      destruct (fetch_each env cls found _) as [[items|e] w']; simpl in *;
        destruct H as ([Hc Hd] & evs & Ht & Hf & _).
      * match goal with
        | |- context [match ?x with Ok _ => _ | Raise _ => _ end] => destruct x
        end; simpl;
          (split; [split; assumption|]);
          exists (EvSearch cls ident (per_page request) (page request) :: evs);
          (split; [rewrite Ht, <- app_assoc; reflexivity|]);
          constructor; [exact I|exact Hf|exact I|exact Hf].
      * split; [split; assumption|].
        exists (EvSearch cls ident (per_page request) (page request) :: evs).
        split; [rewrite Ht, <- app_assoc; reflexivity|].
        constructor; [exact I|exact Hf].
    + split; [split; reflexivity|]. eexists; split; [reflexivity|repeat constructor].
Qed.
End FetchFacts.

(** X18. When the fetch of the first page fails, the command fails
    with the same exception after calls to the content API only: nothing is
    cached, stored or sent. *)
Theorem handle_first_fetch_failure env cls update args w e :
  let identifier := strip (join (str " ") args) in
  identifier <> [] ->
  fst (get_data env cls (positional_call identifier 1) w) = Raise e ->
  let w' := snd (handle_first env cls update args w) in
  fst (handle_first env cls update args w) = Raise e
  /\ same_state w w'
  /\ exists evs, trace w' = trace w ++ evs /\ Forall fetch_event evs.
Proof.
  intros ident Hne Hraise w'. subst w'.
  pose proof (get_data_only_fetches env cls (positional_call ident 1) w) as H.
  assert (handle_first env cls update args w
          = (Raise e, snd (get_data env cls (positional_call ident 1) w))) as ->.
  { unfold handle_first. fold ident.
    destruct ident as [|ch rest] eqn:Hid; [contradiction|]. rewrite <- Hid in *.
    unfold mbind at 1, M_bind at 1.
    destruct (get_data env cls (positional_call ident 1) w) as [[r|e'] w1];
      [discriminate|].
    simpl in Hraise. now injection Hraise as ->. }
  split; [reflexivity|exact H].
Qed.

Lemma handle_first_fetch_failure_witness :
  let env := {| db_unavailable := fun _ => false;
                db_other := fun _ _ => None;
                delete_message_result := fun _ => Ok tt;
                reply_result := fun n => Ok 7;
                get_result := fun _ => Raise ClientError;
                search_result := fun _ => Raise ClientError;
                format_item := fun _ a _ => item_payload a;
                remove_unspecified_tags := fun s => s;
                unicode_numeric := fun _ => false |} in
  let w' := snd (handle_first env Anime alice [str "Naruto"] fresh) in
  fst (handle_first env Anime alice [str "Naruto"] fresh) = Raise ClientError
  /\ same_state fresh w'
  /\ exists evs, trace w' = trace fresh ++ evs /\ Forall fetch_event evs.
Proof.
  intros env.
  refine (handle_first_fetch_failure env Anime alice [str "Naruto"] fresh
            ClientError _ _).
  - discriminate.
  - vm_compute. reflexivity.
Defined.

(** X19. A search is followed by one more call for every item found. *)
Theorem get_data_search_calls env cls request ident w r w' :
  identifier request = JStr ident ->
  isnumeric (unicode_numeric env) ident = false ->
  get_data env cls request w = (Ok r, w') ->
  exists found,
    search_result env (clock w) = Ok (found, snd r)
    /\ trace w'
       = trace w ++ EvSearch cls ident (per_page request) (page request)
                      :: refetch cls found
    /\ same_state w w'.
Proof.
  intros Hid Hnum. unfold get_data. rewrite Hid, Hnum.
  unfold mbind, M_bind, call, lift.
  destruct (search_result env (clock w)) as [[found pagination]|e]; [|discriminate].
  pose proof (fetch_each_trace env cls found
                (called (EvSearch cls ident (per_page request) (page request)) w))
    as H. simpl in H.
  destruct (fetch_each env cls found _) as [[items|e] w1]; [|discriminate].
  simpl in H. destruct H as ([Hc Hd] & evs & Ht & _ & Hok).
  destruct (Hok items eq_refl) as [-> _].
  unfold mret at 1, M_ret at 1. cbv beta iota.
  match goal with
  | |- context [match ?x with Ok _ => _ | Raise _ => _ end] => destruct x
  end; [|discriminate].
  intros [= <- <-]. exists found. simpl.
  split; [reflexivity|]. split; [|split; assumption].
  rewrite Ht, <- app_assoc. reflexivity.
Qed.

Lemma get_data_search_calls_witness :
  let w' := snd (get_data scenario Anime (positional_call (str "Naruto") 1) fresh) in
  exists found,
    search_result scenario (clock fresh)
    = Ok (found, {| Page.last := 3; Page.current := 1; Page.per_page := 1 |})
    /\ trace w'
       = trace fresh ++ EvSearch Anime (str "Naruto") (JInt 1) (JInt 1)
                          :: refetch Anime found
    /\ same_state fresh w'.
Proof.
  assert (fst (get_data scenario Anime (positional_call (str "Naruto") 1) fresh)
          = Ok (str "Naruto",
                {| Page.last := 3; Page.current := 1; Page.per_page := 1 |}))
    as Hok by (vm_compute; reflexivity).
  exact (get_data_search_calls scenario Anime (positional_call (str "Naruto") 1)
           (str "Naruto") fresh _ _ eq_refl eq_refl (pair_of_fst _ _ Hok)).
Defined.

(** X20. When nothing is found the text says so, and no exception is
    raised. *)
Theorem get_data_not_found env cls request ident w p :
  identifier request = JStr ident ->
  (if isnumeric (unicode_numeric env) ident
   then get_result env (clock w) = Ok None /\ p = OnePage
   else search_result env (clock w) = Ok ([], p)) ->
  fst (get_data env cls request w)
  = Ok (remove_unspecified_tags env (not_found cls ident), p).
Proof.
  intros Hid H. unfold get_data. rewrite Hid.
  unfold mbind, M_bind, call, lift.
  destruct (isnumeric (unicode_numeric env) ident).
  - destruct H as [-> ->]. reflexivity.
  - rewrite H. reflexivity.
Qed.

Lemma get_data_not_found_witness :
  let env := {| db_unavailable := fun _ => false;
                db_other := fun _ _ => None;
                delete_message_result := fun _ => Ok tt;
                reply_result := fun n => Ok 7;
                get_result := fun _ => Ok None;
                search_result := fun _ => Ok ([], OnePage);
                format_item := fun _ a _ => item_payload a;
                remove_unspecified_tags := fun s => s;
                unicode_numeric := fun _ => false |} in
  fst (get_data env Manga (positional_call (str "404") 1) fresh)
  = Ok (remove_unspecified_tags env (not_found Manga (str "404")), OnePage).
Proof.
  intros env.
  refine (get_data_not_found env Manga (positional_call (str "404") 1) (str "404")
            fresh OnePage _ _).
  - reflexivity.
  - vm_compute. split; reflexivity.
Defined.

(** X21. An item that the search finds and that cannot be fetched again
    makes the fetch raise. *)
Theorem get_data_unfetched_item env cls request ident w a p :
  identifier request = JStr ident ->
  isnumeric (unicode_numeric env) ident = false ->
  search_result env (clock w) = Ok ([a], p) ->
  get_result env (S (clock w)) = Ok None ->
  fst (get_data env cls request w) = Raise AttributeError.
Proof.
  intros Hid Hnum Hs Hg. unfold get_data. rewrite Hid, Hnum.
  unfold mbind, M_bind, call, lift. rewrite Hs. simpl.
  unfold mbind, M_bind, call. simpl. rewrite Hg. reflexivity.
Qed.

Lemma get_data_unfetched_item_witness :
  let env := {| db_unavailable := fun _ => false;
                db_other := fun _ _ => None;
                delete_message_result := fun _ => Ok tt;
                reply_result := fun n => Ok 7;
                get_result := fun _ => Ok None;
                search_result := fun _ => Ok ([naruto], OnePage);
                format_item := fun _ a _ => item_payload a;
                remove_unspecified_tags := fun s => s;
                unicode_numeric := fun _ => false |} in
  fst (get_data env Anime (positional_call (str "Naruto") 1) fresh)
  = Raise AttributeError.
Proof.
  intros env.
  refine (get_data_unfetched_item env Anime (positional_call (str "Naruto") 1)
            (str "Naruto") fresh naruto OnePage _ _ _ _); reflexivity.
Defined.

(** ** The first query *)

Lemma Ticks_stable w0 :
  stable_call (Ticks w0) /\ stable_db (Ticks w0) /\ stable_cache (Ticks w0).
Proof.
  repeat split; intros x w (evs & H & Hc); [|exists evs; split; assumption..].
  exists (evs ++ [x]). simpl. rewrite H, Hc, length_app, app_assoc. simpl.
  split; [reflexivity|lia].
Qed.

Lemma Answered_stable {A} env (answer : Env -> nat -> Res A) w0 ev a :
  stable_call (Answered env answer w0 ev a)
  /\ stable_db (Answered env answer w0 ev a)
  /\ stable_cache (Answered env answer w0 ev a).
Proof.
  repeat split; intros x w (before & after & H & Ha);
    [|exists before, after; split; assumption..].
  exists before, (after ++ [x]). simpl. rewrite H. split; [|exact Ha].
  now rewrite <- !app_assoc.
Qed.

(** A call made after [w0], with the answer it gets. *)
Lemma triple_call_answered {A} env ev (answer : Env -> nat -> Res A) w0 :
  triple (Ticks w0) (call env ev answer)
    (fun a => Answered env answer w0 ev a) (fun _ => True).
Proof.
  intros w (evs & H & Hc). unfold call.
  destruct (answer env (clock w)) as [a|e] eqn:Ha; [|exact I].
  exists evs, []. simpl. rewrite H, <- Hc. split; [|exact Ha].
  now rewrite app_assoc.
Qed.

(** X22. A first query that completes leaves, in the cache, all that a click
    needs: the message it answers, the parameters of the query, and the
    message that was sent.  The reply to the command is in the trace of
    the run, and [message_id] is the answer that very call got. *)
Theorem handle_first_records env cls update args w w' :
  let identifier := strip (join (str " ") args) in
  let u := effective_user update in
  let t := table_name cls in
  identifier <> [] ->
  handle_first env cls update args w = (Ok tt, w') ->
  cached_field w' u t "reply_id" = Some (PInt (effective_message update))
  /\ cached_field w' u t "kwargs" = Some (PStr (quoted_kwargs identifier))
  /\ exists message body markup before after,
       trace w' = trace w ++ before
                    ++ EvReplyHtml body (Some (PInt (effective_message update)))
                         markup :: after
       /\ reply_result env (clock w + length before)%nat = Ok message
       /\ cached_field w' u t "message_id" = Some (PInt message).
Proof.
  intros identifier u t Hne Hrun.
  assert (triple (Ticks w) (handle_first env cls update args)
            (fun _ w' =>
               cached_field w' u t "reply_id" = Some (PInt (effective_message update))
               /\ cached_field w' u t "kwargs" = Some (PStr (quoted_kwargs identifier))
               /\ exists message body markup,
                    Answered env reply_result w
                      (EvReplyHtml body (Some (PInt (effective_message update)))
                         markup) message w'
                    /\ cached_field w' u t "message_id" = Some (PInt message))
            (fun _ => True)) as T.
  { unfold handle_first. fold identifier.
    destruct identifier as [|ch rest] eqn:Hid; [contradiction|].
    rewrite <- Hid.
    destruct (Ticks_stable w) as (Hc & Hd & Hk).
    eapply triple_bind; [eapply triple_any_exn; apply triple_get_data, Hc|].
    intros [text p]. apply triple_pure. intros _.
    eapply triple_bind;
      [eapply triple_any_exn; apply triple_generate_markup; assumption|].
    intros markup. apply triple_pure. intros _.
    eapply triple_bind; [apply triple_call_answered|].
    intros message w0 HA.
    match type of HA with Answered _ _ _ ?ev _ _ => set (reply := ev) in * end.
    pose proof (set_user_data_cache env u t
      [("message_id", PInt message);
       ("reply_id", PInt (effective_message update));
       ("current_page", PInt (Page.current p));
       ("last_page", PInt (Page.last p));
       ("kwargs", PStr (quoted_kwargs identifier))] w0) as S.
    destruct (Answered_stable env reply_result w reply message) as (Ac & Ad & Ak).
    pose proof (triple_set_user_data env u t
      [("message_id", PInt message);
       ("reply_id", PInt (effective_message update));
       ("current_page", PInt (Page.current p));
       ("last_page", PInt (Page.last p));
       ("kwargs", PStr (quoted_kwargs identifier))] _ Ac Ad Ak w0 HA) as Tr.
    simpl in S. fold u t.
    match goal with |- match ?m with _ => _ end => destruct m as [[[]|e] w1] end;
      [|exact I].
    destruct S as (ud & row & Hud & Hrow & Hcache).
    unfold cached_field, cached_table.
    rewrite Hcache, lookup_insert_eq, lookup_insert_eq.
    unfold update_row. simpl.
    split; [|split; [|eexists message, _, _; split; [exact Tr|]]].
    - rewrite !lookup_insert_ne by discriminate. apply lookup_insert_eq.
    - apply lookup_insert_eq.
    - rewrite !lookup_insert_ne by discriminate. apply lookup_insert_eq. }
  assert (Ticks w w) as H0 by (exists []; simpl; rewrite app_nil_r; auto).
  specialize (T w H0). rewrite Hrun in T.
  destruct T as (H1 & H2 & message & body & markup & HA & H3).
  split; [exact H1|]. split; [exact H2|].
  destruct HA as (before & after & Htr & Ha).
  exists message, body, markup, before, after. auto.
Qed.

Lemma handle_first_records_witness :
  cached_field after_naruto 1 KEYBOARD_ANIME "reply_id"
  = Some (PInt (effective_message alice))
  /\ cached_field after_naruto 1 KEYBOARD_ANIME "kwargs"
     = Some (PStr (quoted_kwargs (strip (join (str " ") [str "Naruto"]))))
  /\ exists message body markup before after,
       trace after_naruto
       = trace fresh ++ before
           ++ EvReplyHtml body (Some (PInt (effective_message alice))) markup
           :: after
       /\ reply_result scenario (clock fresh + length before)%nat = Ok message
       /\ cached_field after_naruto 1 KEYBOARD_ANIME "message_id"
          = Some (PInt message).
Proof.
  assert (strip (join (str " ") [str "Naruto"]) <> []) as Hne
    by (vm_compute; discriminate).
  assert (fst (handle_first scenario Anime alice [str "Naruto"] fresh) = Ok tt)
    as Hok by (vm_compute; reflexivity).
  exact (handle_first_records scenario Anime alice [str "Naruto"] fresh
           after_naruto Hne (pair_of_fst _ _ Hok)).
Defined.

(** ** A click that moves *)

Section ClickFacts.
Context (env : Env).

Lemma bind_ok {A B} (m : M A) (k : A -> M B) a w w' :
  m w = (Ok a, w') -> (m ≫= k) w = k a w'.
Proof. intros H. unfold mbind, M_bind. now rewrite H. Qed.

(** The four steps that turn the cached parameters into a request. *)
Lemma request_of_kwargs_run {B} (kwargs : PyVal) (next_page : Z)
    (rest : FetchRequest -> M B) (w : World) :
  (kwargs ← strip_quotes kwargs;
   kwargs ← lift (loads kwargs);
   kwargs ← set_page kwargs next_page;
   request ← lift (keyword_call kwargs);
   rest request) w
  = match request_of_kwargs kwargs next_page with
    | Ok request => rest request w
    | Raise e => (Raise e, w)
    end.
Proof.
  unfold request_of_kwargs, mbind, M_bind, lift.
  destruct kwargs as [|z|s]; try reflexivity. simpl.
  destruct (loads (strip_chars [apostrophe] s)) as [decoded|e]; [|reflexivity].
  destruct decoded; reflexivity.
Qed.

(** A click that moves, up to the request it makes. *)
Lemma handle_next_moving cls update step w row c l kwargs :
  let u := effective_user update in
  let t := table_name cls in
  cached_table w u t = Some row ->
  row !! "current_page" = Some (PInt c) -> c <> 0 ->
  row !! "last_page" = Some (PInt l) ->
  row !! "kwargs" = Some kwargs ->
  clamp (c + step) 1 l <> c ->
  exists rest : pystr * Page.t -> M unit,
    handle_next env cls update step w
    = match request_of_kwargs kwargs (clamp (c + step) 1 l) with
      | Ok request => (r ← get_data env cls request; rest r) w
      | Raise e => (Raise e, w)
      end
    /\ (forall tr0 r, triple (Ext tr0) (rest r) (fun _ => Ext tr0) (Ext tr0))
    /\ (forall r, triple (Fields u t (PInt c) (PInt l)) (rest r)
                    (fun _ => Fields u t (PInt (clamp (c + step) 1 l)) (PInt l))
                    (Fields u t (PInt c) (PInt l))).
Proof.
  intros u t Hrow Hc Hnz Hl Hk Hmove.
  eexists. split; [|split].
  - unfold handle_next. fold u t.
    rewrite (bind_ok _ _ (u, t) w w (get_user_data_hit env u t row w Hrow)).
    rewrite (bind_ok _ _ (PInt c) w w)
      by (rewrite (getitem_hit u t row) by assumption; now rewrite Hc).
    change (truthy (PInt c)) with (negb (c =? 0)).
    destruct (Z.eqb_spec c 0) as [|_]; [contradiction|].
    change (negb (negb false)) with false. cbv iota.
    rewrite (bind_ok _ _ c w w) by reflexivity.
    rewrite (bind_ok _ _ (PInt l) w w)
      by (rewrite (getitem_hit u t row) by assumption; now rewrite Hl).
    rewrite (bind_ok _ _ l w w) by reflexivity.
    cbv zeta.
    destruct (Z.eqb_spec (clamp (c + step) 1 l) c) as [|_]; [contradiction|].
    rewrite (bind_ok _ _ kwargs w w)
      by (rewrite (getitem_hit u t row) by assumption; now rewrite Hk).
    rewrite request_of_kwargs_run.
    reflexivity.
  - intros tr0 [text p].
    destruct (Ext_stable tr0) as (Sc & Sd & Sk). simpl.
    eapply triple_bind; [apply triple_getitem|]. intros last_page.
    eapply triple_bind; [apply triple_getitem|]. intros last_page'.
    eapply triple_bind with (R := fun _ => Ext tr0).
    { intros w0 H. destruct last_page'; exact H. }
    intros most.
    eapply triple_bind with (R := fun _ => Ext tr0).
    { eapply triple_weaken; [apply (triple_generate_markup env); eassumption|..];
        [auto|intros ? ? [H _]; exact H|auto]. }
    intros markup.
    eapply triple_bind; [apply triple_getitem|]. intros reply_id.
    eapply triple_bind with (R := fun _ => Ext tr0).
    { eapply triple_try_except.
      - apply triple_call, Sc.
      - apply triple_call, Sc.
      - intros w0 H. exact H. }
    intros message. apply triple_set_user_data; assumption.
  - intros [text p]. simpl.
    eapply triple_bind; [apply triple_getitem|]. intros last_page.
    eapply triple_bind; [apply triple_getitem_fields|].
    intros last_page'. apply triple_pure. intros [_ Hv].
    specialize (Hv eq_refl). subst last_page'.
    eapply triple_bind; [apply triple_as_int|].
    intros most. apply triple_pure. intros [= <-].
    eapply triple_bind; [apply triple_generate_markup_fields|]. intros markup.
    eapply triple_bind; [apply triple_getitem|]. intros reply_id.
    eapply triple_bind.
    { eapply triple_try_except.
      - apply triple_call, Fields_stable_call.
      - apply triple_call, Fields_stable_call.
      - intros w0 H. exact H. }
    intros message.
    apply triple_set_user_data_fields.
    intros row' Hc' Hl'. unfold update_row. simpl.
    rewrite lookup_insert_eq. rewrite !lookup_insert_ne by discriminate.
    auto.
Qed.

Lemma cached_row w u t c l kwargs :
  cached_field w u t "current_page" = Some c ->
  cached_field w u t "last_page" = Some l ->
  cached_field w u t "kwargs" = Some kwargs ->
  exists row, cached_table w u t = Some row
              /\ row !! "current_page" = Some c
              /\ row !! "last_page" = Some l
              /\ row !! "kwargs" = Some kwargs.
Proof.
  unfold cached_field. destruct (cached_table w u t) as [row|]; [|discriminate].
  eauto.
Qed.
End ClickFacts.

(** X23. A click whose stored parameters cannot be read raises before
    anything is fetched, sent or written. *)
Theorem click_with_unreadable_parameters env cls update step w c l kwargs e :
  let u := effective_user update in
  let t := table_name cls in
  cached_field w u t "current_page" = Some (PInt c) -> c <> 0 ->
  cached_field w u t "last_page" = Some (PInt l) ->
  cached_field w u t "kwargs" = Some kwargs ->
  clamp (c + step) 1 l <> c ->
  request_of_kwargs kwargs (clamp (c + step) 1 l) = Raise e ->
  handle_next env cls update step w = (Raise e, w).
Proof.
  intros u t Hc Hnz Hl Hk Hmove Hreq.
  destruct (cached_row w u t _ _ _ Hc Hl Hk) as (row & Hrow & Hc' & Hl' & Hk').
  destruct (handle_next_moving env cls update step w row c l kwargs
              Hrow Hc' Hnz Hl' Hk' Hmove) as (rest & -> & _).
  now rewrite Hreq.
Qed.

Lemma click_with_unreadable_parameters_witness :
  handle_next scenario Anime alice 1 lost_parameters
  = (Raise AttributeError, lost_parameters).
Proof.
  refine (click_with_unreadable_parameters scenario Anime alice 1 lost_parameters
            1 3 PNone AttributeError _ _ _ _ _ _);
    first [reflexivity | discriminate].
Defined.

Lemma request_of_stored_identifier s n kwargs :
  Forall scalar_value s ->
  kwargs = PStr (quoted_kwargs s)
  \/ kwargs = PStr (dumps (JObj [(str "identifier", JStr s)])) ->
  request_of_kwargs kwargs n = Ok (positional_call s n).
Proof.
  intros Hs Hk.
  destruct (identifier_round_trip s n Hs) as (Hq & Hb & Hloads & Hcall & _).
  cbv zeta in *. unfold request_of_kwargs.
  destruct Hk as [-> | ->]; [rewrite Hq|rewrite Hb]; now rewrite Hloads.
Qed.

(** X24. The first thing a click that moves does is to fetch the page it
    aims at, for the identifier the first query was made with. *)
Theorem click_fetches_next_page env cls update step w c l kwargs s :
  let u := effective_user update in
  let t := table_name cls in
  let next_page := clamp (c + step) 1 l in
  cached_field w u t "current_page" = Some (PInt c) -> c <> 0 ->
  cached_field w u t "last_page" = Some (PInt l) ->
  cached_field w u t "kwargs" = Some kwargs ->
  kwargs = PStr (quoted_kwargs s)
  \/ kwargs = PStr (dumps (JObj [(str "identifier", JStr s)])) ->
  Forall scalar_value s ->
  next_page <> c ->
  exists evs,
    trace (snd (handle_next env cls update step w))
    = trace w ++ first_fetch env cls s (JInt 1) (JInt next_page) :: evs.
Proof.
  intros u t next_page Hc Hnz Hl Hk Hstored Hs Hmove.
  destruct (cached_row w u t _ _ _ Hc Hl Hk) as (row & Hrow & Hc' & Hl' & Hk').
  destruct (handle_next_moving env cls update step w row c l kwargs
              Hrow Hc' Hnz Hl' Hk' Hmove) as (rest & -> & Hrest & _).
  fold next_page. rewrite (request_of_stored_identifier s next_page kwargs Hs Hstored).
  set (ev := first_fetch env cls s (JInt 1) (JInt next_page)).
  set (tr1 := trace w ++ [ev]).
  destruct (Ext_stable tr1) as (Sc & Sd & Sk).
  assert (triple (eq w) (r ← get_data env cls (positional_call s next_page); rest r)
            (fun _ => Ext tr1) (Ext tr1)) as T.
  { eapply triple_bind with (R := fun _ => Ext tr1); [|intros r; apply Hrest].
    unfold get_data. simpl identifier.
    eapply triple_bind with (R := fun _ => Ext tr1).
    - subst tr1 ev. unfold first_fetch. simpl per_page. simpl page.
      destruct (isnumeric (unicode_numeric env) s).
      + eapply triple_bind with (R := fun _ => Ext (trace w ++ [EvGet cls (JStr s)])).
        * intros w0 <-. unfold call.
          destruct (get_result env (clock w)); exists []; simpl;
            now rewrite app_nil_r.
        * intros item w0 H. exact H.
      + eapply triple_bind
          with (R := fun _ => Ext (trace w ++ [EvSearch cls s (JInt 1) (JInt next_page)])).
        * intros w0 <-. unfold call.
          destruct (search_result env (clock w)); exists []; simpl;
            now rewrite app_nil_r.
        * intros [found pagination].
          eapply triple_bind; [apply triple_fetch_each|].
          { apply (Ext_stable (trace w ++ [EvSearch cls s (JInt 1) (JInt next_page)])). }
          intros items w0 H. exact H.
    - intros [items pagination].
      eapply triple_bind; [apply triple_lift|].
      intros text w0 [H _]. exact H. }
  specialize (T w eq_refl).
  destruct ((r ← get_data env cls (positional_call s next_page); rest r) w)
    as [[[]|e] w']; destruct T as [evs Hevs]; exists evs; simpl; rewrite Hevs;
    subst tr1; now rewrite <- app_assoc.
Qed.

Lemma click_fetches_next_page_witness :
  exists evs,
    trace (snd (handle_next scenario Anime alice 1 after_naruto))
    = trace after_naruto
        ++ first_fetch scenario Anime (str "Naruto") (JInt 1) (JInt (clamp (1 + 1) 1 3))
        :: evs.
Proof.
  refine (click_fetches_next_page scenario Anime alice 1 after_naruto 1 3
            (PStr (quoted_kwargs (str "Naruto"))) (str "Naruto") _ _ _ _ _ _ _).
  - vm_compute. reflexivity.
  - discriminate.
  - vm_compute. reflexivity.
  - vm_compute. reflexivity.
  - left. reflexivity.
  - repeat constructor; vm_compute; intuition discriminate.
  - vm_compute. discriminate.
Defined.

(** X25. A click that moves records the page it aimed at when it completes,
    and leaves the recorded page as it was when it fails; the last page
    is never rewritten. *)
Theorem moving_click_commits env cls update step w c l :
  let u := effective_user update in
  let t := table_name cls in
  let next_page := clamp (c + step) 1 l in
  cached_field w u t "current_page" = Some (PInt c) -> c <> 0 ->
  cached_field w u t "last_page" = Some (PInt l) ->
  next_page <> c ->
  let run := handle_next env cls update step w in
  cached_field (snd run) u t "current_page"
  = Some (PInt (match fst run with Ok _ => next_page | Raise _ => c end))
  /\ cached_field (snd run) u t "last_page" = Some (PInt l).
Proof.
  intros u t next_page Hc Hnz Hl Hmove run. subst run.
  destruct (cached_field w u t "kwargs") as [kwargs|] eqn:Hk.
  - destruct (cached_row w u t _ _ _ Hc Hl Hk) as (row & Hrow & Hc' & Hl' & Hk').
    destruct (handle_next_moving env cls update step w row c l kwargs
                Hrow Hc' Hnz Hl' Hk' Hmove) as (rest & -> & _ & Hrest).
    fold next_page.
    destruct (request_of_kwargs kwargs next_page) as [request|e]; [|simpl; auto].
    assert (triple (Fields u t (PInt c) (PInt l))
              (r ← get_data env cls request; rest r)
              (fun _ => Fields u t (PInt next_page) (PInt l))
              (Fields u t (PInt c) (PInt l))) as T.
    { eapply triple_bind with (R := fun _ => Fields u t (PInt c) (PInt l));
        [|intros r; apply Hrest].
      eapply triple_weaken; [apply triple_get_data, Fields_stable_call|..];
        [intros ? H; exact H|intros ? ? [H _]; exact H|intros ? H; exact H]. }
    specialize (T w (Fields_of_cached_fields w u t _ _ Hc Hl)).
    destruct ((r ← get_data env cls request; rest r) w) as [[[]|e] w'];
      simpl; now apply cached_fields_of_Fields.
  - (* the row has no [kwargs]: the click raises [KeyError] *)
    destruct (cached_field_row w u t _ _ Hc) as (row & Hrow & Hc').
    assert (row !! "last_page" = Some (PInt l)) as Hl'
      by (unfold cached_field in Hl; now rewrite Hrow in Hl).
    assert (row !! "kwargs" = None) as Hk'
      by (unfold cached_field in Hk; now rewrite Hrow in Hk).
    assert (handle_next env cls update step w = (Raise KeyError, w)) as ->.
    { unfold handle_next. fold u t.
      rewrite (bind_ok _ _ (u, t) w w (get_user_data_hit env u t row w Hrow)).
      rewrite (bind_ok _ _ (PInt c) w w)
        by (rewrite (getitem_hit u t row) by assumption; now rewrite Hc').
      change (truthy (PInt c)) with (negb (c =? 0)).
      destruct (Z.eqb_spec c 0) as [|_]; [contradiction|].
      change (negb (negb false)) with false. cbv iota.
      rewrite (bind_ok _ _ c w w) by reflexivity.
      rewrite (bind_ok _ _ (PInt l) w w)
        by (rewrite (getitem_hit u t row) by assumption; now rewrite Hl').
      rewrite (bind_ok _ _ l w w) by reflexivity.
      cbv zeta. fold next_page.
      destruct (Z.eqb_spec next_page c) as [|_]; [contradiction|].
      unfold mbind, M_bind.
      rewrite (getitem_hit u t row) by assumption. now rewrite Hk'. }
    simpl. auto.
Qed.

Lemma moving_click_commits_witness :
  let run := handle_next scenario Anime alice 1 after_naruto in
  cached_field (snd run) 1 KEYBOARD_ANIME "current_page"
  = Some (PInt (match fst run with Ok _ => clamp (1 + 1) 1 3 | Raise _ => 1 end))
  /\ cached_field (snd run) 1 KEYBOARD_ANIME "last_page" = Some (PInt 3).
Proof.
  refine (moving_click_commits scenario Anime alice 1 after_naruto 1 3 _ _ _ _).
  - vm_compute. reflexivity.
  - discriminate.
  - vm_compute. reflexivity.
  - vm_compute. discriminate.
Defined.

(** ** The request of a click *)

Lemma dict_get_set key value d : dict_get key (dict_set key value d) = Some value.
Proof.
  induction d as [|[k x] d IH]; simpl.
  - unfold pystr_eqb. now rewrite bool_decide_eq_true_2.
  - destruct (pystr_eqb k key) eqn:E; simpl; rewrite E; [reflexivity|exact IH].
Qed.

Lemma dict_get_set_other key key' value d :
  key' <> key -> dict_get key' (dict_set key value d) = dict_get key' d.
Proof.
  intros Hne. induction d as [|[k x] d IH]; simpl.
  - unfold pystr_eqb. rewrite bool_decide_eq_false_2 by congruence. reflexivity.
  - destruct (pystr_eqb k key) eqn:E; simpl.
    + unfold pystr_eqb in *. apply bool_decide_eq_true_1 in E. subst k.
      rewrite bool_decide_eq_false_2 by congruence. reflexivity.
    + destruct (pystr_eqb k key'); [reflexivity|exact IH].
Qed.

(** X26. The page a click asks for is the page it aims at, whatever the
    stored parameters say; the identifier is the stored one. *)
Theorem request_page_is_target kwargs next_page request :
  request_of_kwargs kwargs next_page = Ok request ->
  page request = JInt next_page
  /\ exists s members,
       kwargs = PStr s
       /\ loads (strip_chars [apostrophe] s) = Ok (JObj members)
       /\ dict_get (str "identifier") (dict_of_members members)
          = Some (identifier request).
Proof.
  unfold request_of_kwargs.
  destruct kwargs as [| |s]; try discriminate.
  destruct (loads (strip_chars [apostrophe] s)) as [decoded|] eqn:Hloads;
    [|discriminate].
  destruct decoded as [| | | | | |members]; try discriminate.
  unfold keyword_call.
  destruct (forallb _ _); [|discriminate].
  rewrite dict_get_set.
  rewrite (dict_get_set_other (str "page") (str "identifier")) by discriminate.
  destruct (dict_get (str "identifier") (dict_of_members members)) as [i|] eqn:Hi;
    [|discriminate].
  intros [= <-]. simpl. split; [reflexivity|].
  exists s, members. auto.
Qed.

Lemma request_page_is_target_witness :
  page (positional_call (str "Naruto") 2) = JInt 2
  /\ exists s members,
       PStr (dumps (JObj [(str "identifier", JStr (str "Naruto"));
                          (str "page", JInt 9)])) = PStr s
       /\ loads (strip_chars [apostrophe] s) = Ok (JObj members)
       /\ dict_get (str "identifier") (dict_of_members members)
          = Some (identifier (positional_call (str "Naruto") 2)).
Proof.
  apply (request_page_is_target
           (PStr (dumps (JObj [(str "identifier", JStr (str "Naruto"));
                               (str "page", JInt 9)]))) 2).
  vm_compute. reflexivity.
Defined.

(** ** The keyboards *)

(** X27. Every button of the help keyboard carries a payload of the
    handler's pattern, and two different buttons lead to two different
    texts: a click on another topic always edits the message. *)
Theorem help_buttons_change_the_text b1 b2 :
  b1 ∈ concat help_markup -> b2 ∈ concat help_markup -> b1 <> b2 ->
  startswith (str "help:") (callback_data b2) = true
  /\ help_handle (callback_data b2) (Some (help_text (callback_data b1)))
     = Some (help_text (callback_data b2), help_markup)
  /\ help_handle (callback_data b2) (Some (help_text (callback_data b2))) = None.
Proof.
  intros H1 H2 Hne. unfold help_markup in H1, H2. cbn [concat app] in H1, H2.
  repeat (apply elem_of_cons in H1 as [->|H1]);
    [..|now apply elem_of_nil in H1];
    repeat (apply elem_of_cons in H2 as [->|H2]);
    try (now apply elem_of_nil in H2);
    try contradiction;
    (split; [reflexivity|split; vm_compute; reflexivity]).
Qed.

Lemma help_buttons_change_the_text_witness :
  let anime := {| text := "Anime"; callback_data := help_topic_value HELP_ANIME |} in
  let about := {| text := "About"; callback_data := help_topic_value HELP_ABOUT |} in
  startswith (str "help:") (callback_data about) = true
  /\ help_handle (callback_data about) (Some (help_text (callback_data anime)))
     = Some (help_text (callback_data about), help_markup)
  /\ help_handle (callback_data about) (Some (help_text (callback_data about))) = None.
Proof.
  intros anime about.
  refine (help_buttons_change_the_text anime about _ _ _).
  - unfold help_markup. cbn [concat app]. apply elem_of_cons. now left.
  - unfold help_markup. cbn [concat app]. do 3 (apply elem_of_cons; right).
    apply elem_of_cons. now left.
  - discriminate.
Defined.

(** X28. With no message on display, [generate_markup] reads the cache and
    nothing else: no deletion, no statement, the world is left as it
    was. *)
Theorem generate_markup_without_previous
    env cls current_page last_page update w mid st :
  let u := effective_user update in
  let t := table_name cls in
  cached_field w u t "message_id" = Some mid -> truthy mid = false ->
  cached_field w u t "step" = Some st ->
  generate_markup env cls current_page last_page update w
  = (Ok (keyboard cls st (clamp current_page 1 last_page) last_page), w).
Proof.
  intros u t Hmid Hfalse Hst.
  destruct (cached_field_row w u t _ _ Hmid) as (row & Hrow & Hmid').
  assert (row !! "step" = Some st) as Hst'
    by (unfold cached_field in Hst; now rewrite Hrow in Hst).
  unfold generate_markup. fold u t.
  rewrite (bind_ok _ _ (u, t) w w (get_user_data_hit env u t row w Hrow)).
  rewrite (bind_ok _ _ mid w w)
    by (rewrite (getitem_hit u t row) by assumption; now rewrite Hmid').
  rewrite (bind_ok _ _ st w w)
    by (rewrite (getitem_hit u t row) by assumption; now rewrite Hst').
  rewrite Hfalse. reflexivity.
Qed.

Lemma generate_markup_without_previous_witness :
  let w := snd (get_user_data scenario 1 KEYBOARD_MANGA fresh) in
  generate_markup scenario Manga 2 5 alice w
  = (Ok (keyboard Manga (PInt 1) (clamp 2 1 5) 5), w).
Proof.
  intros w.
  refine (generate_markup_without_previous scenario Manga 2 5 alice w PNone (PInt 1)
            _ _ _).
  - vm_compute. reflexivity.
  - reflexivity.
  - vm_compute. reflexivity.
Defined.

(** X29. The parameters of a query whose identifier has no apostrophe are
    stored as they were written, and a click reads the same request from
    the cache (quoted) and from the store (bare). *)
Theorem stored_identifier_round_trip s n :
  Forall scalar_value s ->
  Forall (fun c => c <> apostrophe) s ->
  let json := dumps (JObj [(str "identifier", JStr s)]) in
  sql_value_of (PStr (quoted_kwargs s)) = Some (SText json)
  /\ request_of_kwargs (PStr (quoted_kwargs s)) n = Ok (positional_call s n)
  /\ request_of_kwargs (py_of_sql (SText json)) n = Ok (positional_call s n).
Proof.
  intros Hs Hq json.
  destruct (identifier_round_trip s n Hs) as (_ & _ & _ & _ & Hsql).
  split; [exact (Hsql Hq)|].
  split; apply request_of_stored_identifier; auto.
Qed.

Lemma stored_identifier_round_trip_witness :
  let json := dumps (JObj [(str "identifier", JStr (str "Naruto"))]) in
  sql_value_of (PStr (quoted_kwargs (str "Naruto"))) = Some (SText json)
  /\ request_of_kwargs (PStr (quoted_kwargs (str "Naruto"))) 2
     = Ok (positional_call (str "Naruto") 2)
  /\ request_of_kwargs (py_of_sql (SText json)) 2
     = Ok (positional_call (str "Naruto") 2).
Proof.
  apply (stored_identifier_round_trip (str "Naruto") 2).
  - repeat constructor; vm_compute; intuition discriminate.
  - repeat constructor; discriminate.
Defined.

(** ** One user at a time *)

Section EntryFacts.
Context (env : Env) (u : Z) (P : World -> Prop).
Hypothesis (Hc : stable_call P) (Hd : stable_db P) (Hk : stable_entry u P).

Lemma triple_ensure_cached_entry :
  triple P (ensure_cached env u) (fun _ => P) P.
Proof.
  intros w H. unfold ensure_cached.
  destruct (data_cache w !! u); [exact H|].
  unfold setup_data_cache.
  eapply triple_bind; [apply triple_load_tables; assumption| |exact H].
  intros ud w' H'. apply Hk, H'.
Qed.

Lemma triple_get_user_data_entry t :
  triple P (get_user_data env u t) (fun _ => P) P.
Proof.
  unfold get_user_data.
  eapply triple_bind; [apply triple_ensure_cached_entry|]. intros ?.
  eapply triple_bind; [apply triple_assert_table|]. intros ?.
  intros w H. exact H.
Qed.

Lemma triple_for_each_setitem_entry t changes :
  triple P (for_each (setitem u t) changes) (fun _ => P) P.
Proof.
  induction changes as [|kv changes IH]; simpl.
  - intros w H. exact H.
  - eapply triple_bind; [|intros ?; apply IH].
    intros w H. unfold setitem.
    destruct (data_cache w !! u) as [ud|]; [|exact H].
    destruct (ud !! t); [apply Hk|]; exact H.
Qed.

Lemma triple_set_user_data_entry t changes :
  triple P (set_user_data env u t changes) (fun _ => P) P.
Proof.
  unfold set_user_data.
  eapply triple_bind; [apply triple_ensure_cached_entry|]. intros ?.
  eapply triple_bind; [apply triple_assert_table|]. intros ?.
  eapply triple_bind.
  { intros w H. apply (triple_cursor_execute env _ _ _ P Hc Hd w H). }
  intros ?.
  eapply triple_bind; [apply triple_connection_commit; assumption|]. intros ?.
  apply triple_for_each_setitem_entry.
Qed.
End EntryFacts.

Section HandlerEntryFacts.
Context (env : Env) (cls : Category) (update : Update) (P : World -> Prop).
Hypothesis (Hc : stable_call P) (Hd : stable_db P)
  (Hk : stable_entry (effective_user update) P).

Lemma triple_generate_markup_entry current_page last_page :
  triple P (generate_markup env cls current_page last_page update)
    (fun _ => P) P.
Proof.
  unfold generate_markup.
  eapply triple_bind; [apply triple_get_user_data_entry; assumption|]. intros r.
  eapply triple_bind; [apply triple_getitem|]. intros previous_keyboard.
  eapply triple_bind; [apply triple_getitem|]. intros step.
  eapply triple_bind with (R := fun _ => P).
  - destruct (truthy previous_keyboard); [|intros w H; exact H].
    eapply triple_try_finally.
    + eapply triple_try_except.
      * apply triple_call, Hc.
      * intros w H. exact H.
      * intros w H. exact H.
    + intros ?. apply triple_set_user_data_entry; assumption.
    + apply triple_set_user_data_entry; assumption.
  - intros ? w H. exact H.
Qed.

Lemma triple_get_data_entry request :
  triple P (get_data env cls request) (fun _ => P) P.
Proof.
  eapply triple_weaken; [apply triple_get_data, Hc|..];
    [intros ? H; exact H|intros ? ? [H _]; exact H|intros ? H; exact H].
Qed.

Lemma triple_handle_first_entry args :
  triple P (handle_first env cls update args) (fun _ => P) P.
Proof.
  unfold handle_first.
  destruct (strip (join (str " ") args)) as [|ch rest]; [intros w H; exact H|].
  eapply triple_bind; [apply triple_get_data_entry|]. intros [text p].
  eapply triple_bind; [apply triple_generate_markup_entry|]. intros markup.
  eapply triple_bind; [apply triple_call, Hc|]. intros message.
  apply triple_set_user_data_entry; assumption.
Qed.

Lemma triple_handle_next_entry step :
  triple P (handle_next env cls update step) (fun _ => P) P.
Proof.
  unfold handle_next.
  eapply triple_bind; [apply triple_get_user_data_entry; assumption|]. intros r.
  eapply triple_bind; [apply triple_getitem|]. intros current_page.
  destruct (negb (truthy current_page)).
  { eapply triple_bind; [apply triple_call, Hc|]. intros ? w H. exact H. }
  eapply triple_bind with (R := fun _ => P);
    [intros w H; destruct current_page; exact H|]. intros current.
  eapply triple_bind; [apply triple_getitem|]. intros last_page.
  eapply triple_bind with (R := fun _ => P);
    [intros w H; destruct last_page; exact H|]. intros most.
  cbv zeta. destruct (clamp (current + step) 1 most =? current).
  { intros w H. exact H. }
  eapply triple_bind; [apply triple_getitem|]. intros kwargs.
  eapply triple_bind; [apply triple_strip_quotes|]. intros stripped.
  eapply triple_bind with (R := fun _ => P);
    [intros w H; unfold lift; destruct (loads stripped); exact H|]. intros decoded.
  eapply triple_bind; [apply triple_set_page|]. intros kwargs'.
  eapply triple_bind with (R := fun _ => P);
    [intros w H; unfold lift; destruct (keyword_call kwargs'); exact H|].
  intros request.
  eapply triple_bind; [apply triple_get_data_entry|]. intros [text p].
  eapply triple_bind; [apply triple_getitem|]. intros last_page'.
  eapply triple_bind; [apply triple_getitem|]. intros last_page''.
  eapply triple_bind with (R := fun _ => P);
    [intros w H; destruct last_page''; exact H|]. intros most'.
  eapply triple_bind; [apply triple_generate_markup_entry|]. intros markup.
  eapply triple_bind; [apply triple_getitem|]. intros reply_id.
  eapply triple_bind with (R := fun _ => P).
  { eapply triple_try_except.
    - apply triple_call, Hc.
    - apply triple_call, Hc.
    - intros w H. exact H. }
  intros message. apply triple_set_user_data_entry; assumption.
Qed.
End HandlerEntryFacts.

(** X30. Whatever a command or a click does, the cache entries of the other
    users stay as they were. *)
Theorem handlers_keep_other_users env cls update i w u' :
  u' <> effective_user update ->
  data_cache (snd (handle env cls update i w)) !! u' = data_cache w !! u'.
Proof.
  intros Hne.
  set (P := others_kept (effective_user update) w).
  assert (stable_call P) as Hc by (intros ev w' H; exact H).
  assert (stable_db P) as Hd by (intros d w' H; exact H).
  assert (stable_entry (effective_user update) P) as Hk.
  { intros ud w' H u'' Hne'. simpl. rewrite lookup_insert_ne by congruence.
    now apply H. }
  assert (P w) as H0 by (intros u'' _; reflexivity).
  assert (triple P (handle env cls update i) (fun _ => P) P) as T.
  { destruct i as [args|step]; simpl.
    - now apply triple_handle_first_entry.
    - now apply triple_handle_next_entry. }
  specialize (T w H0).
  destruct (handle env cls update i w) as [[[]|e] w']; exact (T u' Hne).
Qed.

Lemma handlers_keep_other_users_witness :
  data_cache (snd (handle scenario Anime alice (CallbackQuery 1) after_naruto)) !! 2
  = data_cache after_naruto !! 2.
Proof.
  apply (handlers_keep_other_users scenario Anime alice (CallbackQuery 1)
           after_naruto 2).
  discriminate.
Defined.

(** * The page invariant, in the cache and in the store *)






Section PageFacts.
Context (env : Env) (cls : Category) (update : Update).
Local Abbreviation u := (effective_user update).
Local Abbreviation t := (table_name cls).















(** *** The initial query *)





End PageFacts.




